(** * Docker MCP orchestrator: connections, framing, correlation, fan-out

    A shallow embedding of the orchestrator's TypeScript sources
    ([src/index.ts], [src/mcpClient/mcp_client.ts], the modular
    orchestrator and its process handler) together with the properties
    the design document states about them, followed by the docker
    check, the listings and the task routing heuristics of the same
    sources with properties read off the code.

    Conventions.
    - A JavaScript string is a [string], one character per code unit
      (code units below 256); [+:+] is string concatenation.
    - Request ids, timestamps and delays are JavaScript numbers holding
      integers; they are modelled in [Z].  Increments are exact below
      2^53, a bound no connection reaches.
    - A [Map] that is only read and written by key is a [gmap]; the
      registry of clients, which is also iterated, keeps insertion order
      in an association list.
    - A plain object whose enumeration order is observed ([params],
      [tools]) is the list of its fields in that order.
    - Promise callbacks and timer closures are defunctionalised: what a
      closure captured is stored as data, and calling it is recorded as
      an [Effect]. *)

From stdpp Require Import base gmap list strings pretty.
From Stdlib Require Import ZArith Ascii String Sorted.

Open Scope Z_scope.
Set Warnings "-register-all".

(** ** JSON values and the built-in conversions the sources rely on *)

Module Json.

Inductive value : Type :=
| Null
| Bool (b : bool)
| Num (n : Z)
| Str (s : string)
| Arr (items : list value)
| Obj (fields : list (string * value))
    (** own properties in insertion order, each key once *).

(** Property read [v.k] on the result of an object lookup; [None] is
    [undefined]. *)
Fixpoint assoc (k : string) (fields : list (string * value)) : option value :=
  match fields with
  | [] => None
  | (k', v) :: rest => if decide (k = k') then Some v else assoc k rest
  end.

(** [v.k] for a value that is not [null]: primitives and arrays have no
    such own property. *)
Definition prop (k : string) (v : value) : option value :=
  match v with
  | Obj fields => assoc k fields
  | _ => None
  end.

(** JavaScript truthiness of a possibly undefined value. *)
Definition truthy (o : option value) : bool :=
  match o with
  | None => false
  | Some Null => false
  | Some (Bool b) => b
  | Some (Num n) => negb (n =? 0)
  | Some (Str s) => negb (bool_decide (s = ""))
  | Some (Arr _) => true
  | Some (Obj _) => true
  end.

(** Escaping of one character inside a JSON string literal. *)
Definition hex_digit (n : N) : ascii :=
  ascii_of_N (if (n <? 10)%N then 48 + n else 87 + n).

Definition dquote : ascii := "034"%char.

Definition escape_char (c : ascii) : string :=
  let n := N_of_ascii c in
  if (n =? 34)%N then String "092"%char (String dquote "")
  else if (n =? 92)%N then "\\"
  else if (n =? 8)%N then "\b"
  else if (n =? 9)%N then "\t"
  else if (n =? 10)%N then "\n"
  else if (n =? 12)%N then "\f"
  else if (n =? 13)%N then "\r"
  else if (n <? 32)%N then
    "\u00" +:+ String (hex_digit (n / 16)) (String (hex_digit (n mod 16)) "")
  else String c "".

Fixpoint escape (s : string) : string :=
  match s with
  | EmptyString => ""
  | String c rest => escape_char c +:+ escape rest
  end.

Definition quote (s : string) : string :=
  String dquote (escape s) +:+ String dquote "".

Fixpoint join (sep : string) (parts : list string) : string :=
  match parts with
  | [] => ""
  | [p] => p
  | p :: rest => p +:+ sep +:+ join sep rest
  end.

(** [JSON.stringify(v)] without indentation. *)
Fixpoint stringify (v : value) : string :=
  match v with
  | Null => "null"
  | Bool true => "true"
  | Bool false => "false"
  | Num n => pretty n
  | Str s => quote s
  | Arr items => "[" +:+ join "," (map stringify items) +:+ "]"
  | Obj fields =>
      "{" +:+
      join "," (map (fun kv : string * value =>
                       quote (fst kv) +:+ ":" +:+ stringify (snd kv)) fields)
      +:+ "}"
  end.

(** [String(v)], the conversion [new Error(v)] applies to its argument. *)
Fixpoint to_String (v : value) : string :=
  match v with
  | Null => "null"
  | Bool true => "true"
  | Bool false => "false"
  | Num n => pretty n
  | Str s => s
  | Arr items =>
      join "," (map (fun x => match x with Null => "" | _ => to_String x end) items)
  | Obj _ => "[object Object]"
  end.

End Json.


(** ** Frame reader: line splitting of the accumulation buffer *)

Module Frame.

Definition newline : ascii := "010"%char.

(** Prefix the first segment of a split with one more character. *)
Definition cons_head (c : ascii) (segs : list string) : list string :=
  match segs with
  | [] => [String c ""]
  | seg :: rest => String c seg :: rest
  end.

(** [s.split("\n")]: always at least one segment. *)
Fixpoint split_nl (s : string) : list string :=
  match s with
  | EmptyString => [""]
  | String c rest =>
      if decide (c = newline) then "" :: split_nl rest
      else cons_head c (split_nl rest)
  end.

(** [lines.pop() || ""]: the last segment, the empty string when there is
    none or when it is empty. *)
Definition pop_or_empty (lines : list string) : string := List.last lines "".

(** What [lines] holds after [lines.pop()]. *)
Definition popped (lines : list string) : list string := removelast lines.

(** White space and line terminators that [String.prototype.trim]
    strips, among the code units below 256. *)
Definition is_space (c : ascii) : bool :=
  let n := N_of_ascii c in
  ((9 <=? n)%N && (n <=? 13)%N) || (n =? 32)%N || (n =? 160)%N.

Fixpoint trim_start (s : string) : string :=
  match s with
  | EmptyString => ""
  | String c rest => if is_space c then trim_start rest else s
  end.

Fixpoint trim_end (s : string) : string :=
  match s with
  | EmptyString => ""
  | String c rest =>
      match trim_end rest with
      | EmptyString => if is_space c then "" else String c ""
      | t => String c t
      end
  end.

Definition trim (s : string) : string := trim_end (trim_start s).

Definition has_newline (s : string) : Prop := In newline (list_ascii_of_string s).

End Frame.

(** ** Data model ([src/types/mcp.ts]) *)

Record Container : Type := {
  container_name : string;
  command : option (list string);
  workdir : option string;
}.

Record HealthCheck : Type := {
  interval : option Z;
  timeout : option Z;
}.

Record MCPConfig : Type := {
  name : string;
  capabilities : list string;
  container : Container;
  healthCheck : option HealthCheck;
}.

(** A spawned [docker exec] process; its three streams are always piped,
    so [client.process?.stdin] is present exactly when the process is. *)
Record ChildProcess : Type := { pid : Z }.

(** The function that created a pending entry.  The entry's [resolve] and
    [reject] belong to the promise of the call with the entry's key; its
    [timeout] is the timer whose callback closes over that key and the
    method, and reports the message of [timeout_message]. *)
Inductive Sender : Type := BySendMCPRequest | BySendRequest.

Record PendingRequest : Type := {
  pr_method : string;
  pr_sender : Sender;
}.

Record MCPClient : Type := {
  config : MCPConfig;
  process : option ChildProcess;
  isReady : bool;
  requestId : Z;
  pendingRequests : gmap Z PendingRequest;
  lastHealthCheck : option Z;
  messageBuffer : string;
}.

Definition set_process (p : option ChildProcess) (c : MCPClient) : MCPClient :=
  {| config := config c; process := p; isReady := isReady c;
     requestId := requestId c; pendingRequests := pendingRequests c;
     lastHealthCheck := lastHealthCheck c; messageBuffer := messageBuffer c |}.

Definition set_isReady (b : bool) (c : MCPClient) : MCPClient :=
  {| config := config c; process := process c; isReady := b;
     requestId := requestId c; pendingRequests := pendingRequests c;
     lastHealthCheck := lastHealthCheck c; messageBuffer := messageBuffer c |}.

Definition set_requestId (n : Z) (c : MCPClient) : MCPClient :=
  {| config := config c; process := process c; isReady := isReady c;
     requestId := n; pendingRequests := pendingRequests c;
     lastHealthCheck := lastHealthCheck c; messageBuffer := messageBuffer c |}.

Definition set_pendingRequests (m : gmap Z PendingRequest) (c : MCPClient)
  : MCPClient :=
  {| config := config c; process := process c; isReady := isReady c;
     requestId := requestId c; pendingRequests := m;
     lastHealthCheck := lastHealthCheck c; messageBuffer := messageBuffer c |}.

Definition set_lastHealthCheck (t : option Z) (c : MCPClient) : MCPClient :=
  {| config := config c; process := process c; isReady := isReady c;
     requestId := requestId c; pendingRequests := pendingRequests c;
     lastHealthCheck := t; messageBuffer := messageBuffer c |}.

Definition set_messageBuffer (s : string) (c : MCPClient) : MCPClient :=
  {| config := config c; process := process c; isReady := isReady c;
     requestId := requestId c; pendingRequests := pendingRequests c;
     lastHealthCheck := lastHealthCheck c; messageBuffer := s |}.

(** What a handler does to the outside world, in program order. *)
Inductive Effect : Type :=
| StdinWrite (payload : string)
    (** [process.stdin.write(payload, callback)] *)
| SetTimeout (id : Z) (ms : Z)
    (** the timer of the call that was given request id [id] is armed *)
| ClearTimeout (id : Z)
| Resolve (id : Z) (result : option Json.value)
    (** [resolve(result)] of the promise of call [id] *)
| Reject (id : Z) (message : string)
    (** [reject(new Error(message))] of the promise of call [id] *)
| ScheduleReconnect
    (** [this.scheduleReconnect(client)] *)
| ParseError
    (** the [catch] branch of the frame loop: logged, nothing else *).

(** The promise a send function hands back to its caller. *)
Inductive CallHandle : Type :=
| Awaiting (id : Z)
    (** pending; settled by a later [Resolve id] or [Reject id] *)
| RejectedNow (message : string)
    (** rejected inside the executor, before any id was taken *).

(** How an awaited call ended. *)
Inductive Outcome : Type :=
| Resolved (result : option Json.value)
| Rejected (message : string).

(** ** Correlation engine *)

(** [client.config.healthCheck?.timeout || 30000] *)
Definition timeoutMs (c : MCPClient) : Z :=
  match healthCheck (config c) with
  | Some h =>
      match timeout h with
      | Some t => if t =? 0 then 30000 else t
      | None => 30000
      end
  | None => 30000
  end.

(** The object literal [{ jsonrpc: "2.0", id, method, params }]. *)
Definition request (id : Z) (method : string) (params : Json.value)
  : Json.value :=
  Json.Obj [("jsonrpc", Json.Str "2.0"); ("id", Json.Num id);
            ("method", Json.Str method); ("params", params)].

Definition nl : string := String Frame.newline "".

(** The last character of a written payload. *)
Fixpoint last_char (s : string) : option ascii :=
  match s with
  | EmptyString => None
  | String c EmptyString => Some c
  | String _ rest => last_char rest
  end.

(** [sendMCPRequest] of [src/index.ts] and of
    [src/mcpClient/mcp_client.ts] (the two bodies are the same). *)
Definition sendMCPRequest (c : MCPClient) (method : string)
    (params : Json.value) : MCPClient * list Effect * CallHandle :=
  match process c with
  | None =>
      (c, [], RejectedNow ("MCP " +:+ name (config c) +:+ " not connected"))
  | Some _ =>
      let id := requestId c + 1 in
      let c1 := set_requestId id c in
      let entry := {| pr_method := method; pr_sender := BySendMCPRequest |} in
      let c2 := set_pendingRequests (<[id := entry]> (pendingRequests c1)) c1 in
      (c2,
       [SetTimeout id (timeoutMs c);
        StdinWrite (Json.stringify (request id method params) +:+ nl)],
       Awaiting id)
  end.

(** [sendRequest] of the modular orchestrator. *)
Definition sendRequest (c : MCPClient) (method : string)
    (params : Json.value) : MCPClient * list Effect * CallHandle :=
  let id := requestId c + 1 in
  let c1 := set_requestId id c in
  let payload := Json.stringify (request id method params) +:+ "" in
  let entry := {| pr_method := method; pr_sender := BySendRequest |} in
  let c2 := set_pendingRequests (<[id := entry]> (pendingRequests c1)) c1 in
  (c2,
   SetTimeout id (timeoutMs c) ::
   match process c with
   | Some _ => [StdinWrite payload]
   | None => []
   end,
   Awaiting id).

(** The message of the error a call's timer rejects with. *)
Definition timeout_message (c : MCPClient) (e : PendingRequest) : string :=
  match pr_sender e with
  | BySendMCPRequest =>
      "Timeout for " +:+ pr_method e +:+ " in " +:+ name (config c)
  | BySendRequest => "RPC timeout for " +:+ pr_method e
  end.

(** The timer of call [id] fires.  A timer is live exactly while its
    entry is in [pendingRequests]: every path that clears a timer also
    deletes the entry, and a fresh id never overwrites one. *)
Definition timer_fired (c : MCPClient) (id : Z) : MCPClient * list Effect :=
  match pendingRequests c !! id with
  | Some e =>
      (set_pendingRequests (delete id (pendingRequests c)) c,
       [Reject id (timeout_message c e)])
  | None => (c, [])
  end.

(** The callback of [stdin.write] is called with an error. *)
Definition write_failed (sender : Sender) (c : MCPClient) (id : Z)
    (err : string) : MCPClient * list Effect :=
  match sender with
  | BySendMCPRequest =>
      (set_pendingRequests (delete id (pendingRequests c)) c,
       [ClearTimeout id; Reject id err])
  | BySendRequest => (c, [Reject id err])
  end.

(** [handleMCPResponse] of [src/index.ts]; [None] when reading
    [response.id] throws, that is for [null]. *)
Definition handleMCPResponse (c : MCPClient) (response : Json.value)
  : option (MCPClient * list Effect) :=
  match response with
  | Json.Null => None
  | _ =>
      match Json.prop "id" response with
      | Some (Json.Num id) =>
          if negb (id =? 0) && bool_decide (is_Some (pendingRequests c !! id))
          then
            let c' := set_pendingRequests (delete id (pendingRequests c)) c in
            let error := Json.prop "error" response in
            if Json.truthy error then
              let m := error ≫= Json.prop "message" in
              let msg := if Json.truthy m then default "" (Json.to_String <$> m)
                         else "MCP Error" in
              Some (c', [ClearTimeout id; Reject id msg])
            else
              Some (c', [ClearTimeout id;
                         Resolve id (Json.prop "result" response)])
          else Some (c, [])
      | _ => Some (c, [])
      end
  end.

(** [handleResponse] of the modular orchestrator; [None] when the
    destructuring of [message] throws. *)
Definition handleResponse (c : MCPClient) (message : Json.value)
  : option (MCPClient * list Effect) :=
  match message with
  | Json.Null => None
  | _ =>
      match Json.prop "id" message with
      | Some (Json.Num id) =>
          match pendingRequests c !! id with
          | Some _ =>
              let c' := set_pendingRequests (delete id (pendingRequests c)) c in
              let error := Json.prop "error" message in
              if Json.truthy error then
                let m := error ≫= Json.prop "message" in
                Some (c', [ClearTimeout id;
                           Reject id (default "" (Json.to_String <$> m))])
              else
                Some (c', [ClearTimeout id;
                           Resolve id (Json.prop "result" message)])
          | None => Some (c, [])
          end
      | _ => Some (c, [])
      end
  end.

(** ** Frame reader and process handlers *)

(** The built-ins of the platform that the listeners call and that stay
    abstract: the chunks a stream delivers, Node's
    [Buffer.prototype.toString], and [JSON.parse] ([None] when it throws
    a SyntaxError). *)
Class Platform : Type := {
  Buffer : Type;
  Buffer_toString : Buffer -> string;
  JSON_parse : string -> option Json.value;
}.

Section Listeners.

Context `{platform : Platform}.

(** A response handler as the process handler receives it; [None] when
    it throws. *)
Definition Handler : Type :=
  MCPClient -> Json.value -> option (MCPClient * list Effect).

(** [try { handle(client, JSON.parse(text)) } catch { console.error(..) }] *)
Definition dispatch (handle : Handler) (c : MCPClient) (text : string)
  : MCPClient * list Effect :=
  match JSON_parse text with
  | None => (c, [ParseError])
  | Some message =>
      match handle c message with
      | Some r => r
      | None => (c, [ParseError])
      end
  end.

(** The [for (const line of lines)] loop of [processMessages]. *)
Fixpoint processLines (handle : Handler) (c : MCPClient) (lines : list string)
  : MCPClient * list Effect :=
  match lines with
  | [] => (c, [])
  | line :: rest =>
      let trimmedLine := Frame.trim line in
      if decide (trimmedLine = "") then processLines handle c rest
      else
        let '(c1, e1) := dispatch handle c trimmedLine in
        let '(c2, e2) := processLines handle c1 rest in
        (c2, e1 ++ e2)
  end.

Definition processMessagesWith (handle : Handler) (c : MCPClient)
  : MCPClient * list Effect :=
  let lines := Frame.split_nl (messageBuffer c) in
  let c1 := set_messageBuffer (Frame.pop_or_empty lines) c in
  processLines handle c1 (Frame.popped lines).

(** [processMessages] of [src/index.ts]. *)
Definition processMessages (c : MCPClient) : MCPClient * list Effect :=
  processMessagesWith handleMCPResponse c.

(** The stdout [data] listener of [src/index.ts], for any handler. *)
Definition on_stdout_data_with (handle : Handler) (c : MCPClient)
    (data : Buffer) : MCPClient * list Effect :=
  processMessagesWith handle
    (set_messageBuffer (messageBuffer c +:+ Buffer_toString data) c).

Definition on_stdout_data (c : MCPClient) (data : Buffer)
  : MCPClient * list Effect :=
  processMessages
    (set_messageBuffer (messageBuffer c +:+ Buffer_toString data) c).

(** The filter of the process-handler module: [l.trim()] is truthy. *)
Definition nonblank (l : string) : bool :=
  negb (bool_decide (Frame.trim l = "")).

(** The loop of the stdout listener that [setupProcessHandlers] of the
    process-handler module installs: the lines were filtered on their
    trimmed text and are parsed as they are. *)
Fixpoint handleLines (handle : Handler) (c : MCPClient) (lines : list string)
  : MCPClient * list Effect :=
  match lines with
  | [] => (c, [])
  | line :: rest =>
      let '(c1, e1) := dispatch handle c line in
      let '(c2, e2) := handleLines handle c1 rest in
      (c2, e1 ++ e2)
  end.

Definition setupProcessHandlers_data (handle : Handler) (c : MCPClient)
    (data : Buffer) : MCPClient * list Effect :=
  let c0 := set_messageBuffer (messageBuffer c +:+ Buffer_toString data) c in
  let lines := Frame.split_nl (messageBuffer c0) in
  let c1 := set_messageBuffer (Frame.pop_or_empty lines) c0 in
  handleLines handle c1 (List.filter nonblank (Frame.popped lines)).

(** The shape both listeners share: append the chunk, split, keep the
    last segment as the buffer, run a loop over the others. *)
Definition listen (loop : MCPClient -> list string -> MCPClient * list Effect)
    (c : MCPClient) (data : Buffer) : MCPClient * list Effect :=
  let c0 := set_messageBuffer (messageBuffer c +:+ Buffer_toString data) c in
  let lines := Frame.split_nl (messageBuffer c0) in
  loop (set_messageBuffer (Frame.pop_or_empty lines) c0) (Frame.popped lines).

(** Feeding a listener the chunks of a stream, one [data] event each. *)
Fixpoint feed (listener : MCPClient -> Buffer -> MCPClient * list Effect)
    (c : MCPClient) (chunks : list Buffer) : MCPClient * list Effect :=
  match chunks with
  | [] => (c, [])
  | data :: rest =>
      let '(c1, e1) := listener c data in
      let '(c2, e2) := feed listener c1 rest in
      (c2, e1 ++ e2)
  end.

(** The text a sequence of chunks decodes to. *)
Definition text_of (chunks : list Buffer) : string :=
  fold_right (fun data acc => Buffer_toString data +:+ acc) "" chunks.

(** A handler that neither reads nor writes the accumulation buffer. *)
Definition buffer_agnostic (handle : Handler) : Prop :=
  forall c message s,
    handle (set_messageBuffer s c) message =
    match handle c message with
    | Some (c', e) => Some (set_messageBuffer s c', e)
    | None => None
    end.

(** The [exit] listener of [src/index.ts]. *)
Definition on_exit (c : MCPClient) : MCPClient * list Effect :=
  (set_process None (set_isReady false c), [ScheduleReconnect]).

(** The [error] listener of [src/index.ts]. *)
Definition on_error (c : MCPClient) : MCPClient * list Effect :=
  (set_isReady false c, [ScheduleReconnect]).

(** What can happen to one client object. *)
Inductive Event : Type :=
| EvSendMCPRequest (method : string) (params : Json.value)
| EvSendRequest (method : string) (params : Json.value)
| EvData (data : Buffer)
| EvTimeout (id : Z)
| EvWriteError (sender : Sender) (id : Z) (err : string)
| EvExit
| EvError.

Definition Listener : Type := MCPClient -> Buffer -> MCPClient * list Effect.

Definition step (listener : Listener) (c : MCPClient) (ev : Event)
  : MCPClient * list Effect :=
  match ev with
  | EvSendMCPRequest method params =>
      let '(c', e, _) := sendMCPRequest c method params in (c', e)
  | EvSendRequest method params =>
      let '(c', e, _) := sendRequest c method params in (c', e)
  | EvData data => listener c data
  | EvTimeout id => timer_fired c id
  | EvWriteError sender id err => write_failed sender c id err
  | EvExit => on_exit c
  | EvError => on_error c
  end.

Fixpoint run (listener : Listener) (c : MCPClient) (evs : list Event)
  : MCPClient * list Effect :=
  match evs with
  | [] => (c, [])
  | ev :: rest =>
      let '(c1, e1) := step listener c ev in
      let '(c2, e2) := run listener c1 rest in
      (c2, e1 ++ e2)
  end.

(** The listener the modular orchestrator installs in [initialize]. *)
Definition modular_listener : Listener :=
  setupProcessHandlers_data handleResponse.

(** The two orchestrators of the repository. *)
Inductive Implementation : Type := IndexOrchestrator | ModularOrchestrator.

Definition handler_of (i : Implementation) : Handler :=
  match i with
  | IndexOrchestrator => handleMCPResponse
  | ModularOrchestrator => handleResponse
  end.

Definition listener_of (i : Implementation) : Listener :=
  match i with
  | IndexOrchestrator => on_stdout_data
  | ModularOrchestrator => modular_listener
  end.

Definition is_write_error (ev : Event) : bool :=
  match ev with
  | EvWriteError _ _ _ => true
  | _ => false
  end.

(** Every key of the pending map was taken from the counter. *)
Definition pending_below (c : MCPClient) : Prop :=
  forall id pr, pendingRequests c !! id = Some pr -> id <= requestId c.

(** The request ids taken, in order: each one arms exactly one timer. *)
Definition issued_ids (effects : list Effect) : list Z :=
  omap (fun e => match e with SetTimeout id _ => Some id | _ => None end)
       effects.

(** The ids whose promise had [resolve] or [reject] called, in order. *)
Definition settled_ids (effects : list Effect) : list Z :=
  omap (fun e => match e with
                 | Resolve id _ | Reject id _ => Some id
                 | _ => None
                 end) effects.

End Listeners.

(** ** Connection set-up and handshake *)

(** The client object [connectToDockerMCP] and [connectToMCP] build for
    a freshly spawned process. *)
Definition new_client (cfg : MCPConfig) (p : ChildProcess) : MCPClient :=
  {| config := cfg; process := Some p; isReady := false; requestId := 0;
     pendingRequests := ∅; lastHealthCheck := None; messageBuffer := "" |}.

Definition initialize_params : Json.value :=
  Json.Obj
    [("protocolVersion", Json.Str "2024-11-05");
     ("capabilities", Json.Obj [("tools", Json.Obj [])]);
     ("clientInfo",
      Json.Obj [("name", Json.Str "docker-mcp-orchestrator");
                ("version", Json.Str "1.0.0")])].

(** Where an asynchronous handshake is suspended. *)
Inductive Handshake : Type :=
| AwaitInitialize (h : CallHandle)
| AwaitInitialized (h : CallHandle)
| HandshakeOk
| HandshakeFailed (message : string).

(** [initializeMCPClient] up to its first [await]. *)
Definition initializeMCPClient_begin (c : MCPClient)
  : MCPClient * list Effect * Handshake :=
  let '(c', e, h) := sendMCPRequest c "initialize" initialize_params in
  (c', e, AwaitInitialize h).

(** [initializeMCPClient] of [src/index.ts], resumed when the awaited
    promise settles with [o]. *)
Definition initializeMCPClient_resume (c : MCPClient) (phase : Handshake)
    (o : Outcome) : MCPClient * list Effect * Handshake :=
  match phase, o with
  | AwaitInitialize _, Resolved _ =>
      let '(c', e, h) := sendMCPRequest c "initialized" (Json.Obj []) in
      (c', e, AwaitInitialized h)
  | AwaitInitialized _, Resolved _ => (set_isReady true c, [], HandshakeOk)
  | AwaitInitialize _, Rejected m
  | AwaitInitialized _, Rejected m => (c, [], HandshakeFailed m)
  | HandshakeOk, _ => (c, [], HandshakeOk)
  | HandshakeFailed m, _ => (c, [], HandshakeFailed m)
  end.

(** The handshake inside [initialize] of the modular orchestrator: the
    [initialized] message is sent only for a truthy [initResult]. *)
Definition initialize_resume (c : MCPClient) (phase : Handshake)
    (o : Outcome) : MCPClient * list Effect * Handshake :=
  match phase, o with
  | AwaitInitialize _, Resolved initResult =>
      if Json.truthy initResult then
        let '(c', e, h) := sendMCPRequest c "initialized" (Json.Obj []) in
        (c', e, AwaitInitialized h)
      else (c, [], HandshakeFailed "Initialize request failed")
  | AwaitInitialized _, Resolved _ => (set_isReady true c, [], HandshakeOk)
  | AwaitInitialize _, Rejected m
  | AwaitInitialized _, Rejected m => (c, [], HandshakeFailed m)
  | HandshakeOk, _ => (c, [], HandshakeOk)
  | HandshakeFailed m, _ => (c, [], HandshakeFailed m)
  end.

(** ** The orchestrator *)

(** [Map<string, MCPClient>] in insertion order. *)
Definition Clients : Type := list (string * MCPClient).

Fixpoint clients_get (k : string) (m : Clients) : option MCPClient :=
  match m with
  | [] => None
  | (k', v) :: rest => if decide (k = k') then Some v else clients_get k rest
  end.

Fixpoint clients_set (k : string) (v : MCPClient) (m : Clients) : Clients :=
  match m with
  | [] => [(k, v)]
  | (k', v') :: rest =>
      if decide (k = k') then (k, v) :: rest
      else (k', v') :: clients_set k v rest
  end.

Record Orchestrator : Type := {
  mcpClients : Clients;
  healthCheckInterval : bool;
  reconnectAttempts : gmap string nat;
}.

Definition maxReconnectAttempts : nat := 5.

Definition set_mcpClients (m : Clients) (o : Orchestrator) : Orchestrator :=
  {| mcpClients := m; healthCheckInterval := healthCheckInterval o;
     reconnectAttempts := reconnectAttempts o |}.

Definition set_reconnectAttempts (a : gmap string nat) (o : Orchestrator)
  : Orchestrator :=
  {| mcpClients := mcpClients o; healthCheckInterval := healthCheckInterval o;
     reconnectAttempts := a |}.

(** *** Reconnection with backoff *)

(** The timer [scheduleReconnect] arms: its delay and the [attempts] its
    callback captured. *)
Record ReconnectTimer : Type := {
  rt_delay : Z;
  rt_attempts : nat;
}.

(** [Math.min(5000 * Math.pow(2, attempts), 60000)] *)
Definition reconnect_delay (attempts : nat) : Z :=
  Z.min (5000 * 2 ^ Z.of_nat attempts) 60000.

(** [this.reconnectAttempts.get(client.config.name) || 0] *)
Definition attempts_of (o : Orchestrator) (c : MCPClient) : nat :=
  default 0%nat (reconnectAttempts o !! name (config c)).

(** [scheduleReconnect(client)]: [None] when it returns without arming a
    timer. *)
Definition scheduleReconnect (o : Orchestrator) (c : MCPClient)
  : option ReconnectTimer :=
  match process c with
  | Some _ => None
  | None =>
      let attempts := attempts_of o c in
      if decide (maxReconnectAttempts <= attempts)%nat then None
      else Some {| rt_delay := reconnect_delay attempts;
                   rt_attempts := attempts |}
  end.

(** The callback of that timer.  [connected] is the client
    [connectToDockerMCP] stored after a successful handshake, [None]
    when it threw. *)
Definition reconnect_fired (o : Orchestrator) (c : MCPClient)
    (t : ReconnectTimer) (connected : option MCPClient)
  : Orchestrator * option ReconnectTimer :=
  let n := name (config c) in
  match connected with
  | Some c' =>
      let o1 := set_mcpClients (clients_set n c' (mcpClients o)) o in
      (set_reconnectAttempts (<[n := 0%nat]> (reconnectAttempts o1)) o1, None)
  | None =>
      let o1 :=
        set_reconnectAttempts
          (<[n := (rt_attempts t + 1)%nat]> (reconnectAttempts o)) o in
      (o1, scheduleReconnect o1 c)
  end.

(** A reconnection cycle: the timers armed one after the other while the
    attempts end as [outcomes] say.  Returns the delays of the timers
    that were armed. *)
Fixpoint reconnect_cycle (o : Orchestrator) (c : MCPClient)
    (t : option ReconnectTimer) (outcomes : list (option MCPClient))
  : Orchestrator * list Z :=
  match t with
  | None => (o, [])
  | Some t =>
      match outcomes with
      | [] => (o, [rt_delay t])
      | connected :: rest =>
          let '(o1, t1) := reconnect_fired o c t connected in
          let '(o2, delays) := reconnect_cycle o1 c t1 rest in
          (o2, rt_delay t :: delays)
      end
  end.

(** *** Shutdown *)

Inductive StopEffect : Type :=
| ClearInterval
| Kill (p : ChildProcess).

(** [stop()]: no field of the orchestrator or of a client is written. *)
Definition stop (o : Orchestrator) : Orchestrator * list StopEffect :=
  (o,
   (if healthCheckInterval o then [ClearInterval] else []) ++
   omap (fun kv : string * MCPClient => Kill <$> process (snd kv))
        (mcpClients o)).

(** *** Fan-out executor *)

Inductive Status : Type := StatusSuccess | StatusError.

Record ExecutionResult : Type := {
  stepId : string;
  mcp : string;
  tool : string;
  status : Status;
  result : option Json.value;
  error : option string;
  duration : Z;
}.

(** One entry of [executionPlan]. *)
Record ExecutionStep : Type := {
  step_mcp : string;
  step_tool : string;
  step_params : Json.value;
}.

(** An [executeTask] suspended at its [await]: what its continuation
    captured and the call it waits for. *)
Record Suspended : Type := {
  sus_mcp : string;
  sus_tool : string;
  sus_startTime : Z;
  sus_call : Z;
}.

Definition error_result (mcpName toolName message : string) (elapsed : Z)
  : ExecutionResult :=
  {| stepId := mcpName +:+ "_" +:+ toolName; mcp := mcpName; tool := toolName;
     status := StatusError; result := None; error := Some message;
     duration := elapsed |}.

Definition success_result (mcpName toolName : string) (r : option Json.value)
    (elapsed : Z) : ExecutionResult :=
  {| stepId := mcpName +:+ "_" +:+ toolName; mcp := mcpName; tool := toolName;
     status := StatusSuccess; result := r; error := None;
     duration := elapsed |}.

(** [client?.isReady] for the client registered under a name. *)
Definition available (o : Orchestrator) (mcpName : string) : bool :=
  match clients_get mcpName (mcpClients o) with
  | Some client => isReady client
  | None => false
  end.

(** [executeTask] up to its [await].  [now] is what [Date.now()] reads
    during the current turn of the event loop.  The effects are those on
    the named client's process. *)
Definition executeTask_begin (o : Orchestrator) (now : Z)
    (mcpName toolName : string) (params : Json.value)
  : Orchestrator * list Effect * (ExecutionResult + Suspended) :=
  let startTime := now in
  match clients_get mcpName (mcpClients o) with
  | Some client =>
      if isReady client then
        let '(client', e, h) :=
          sendMCPRequest client "tools/call"
            (Json.Obj [("name", Json.Str toolName); ("arguments", params)]) in
        let o' := set_mcpClients (clients_set mcpName client' (mcpClients o)) o in
        match h with
        | Awaiting id =>
            (o', e, inr {| sus_mcp := mcpName; sus_tool := toolName;
                           sus_startTime := startTime; sus_call := id |})
        | RejectedNow m =>
            (o', e, inl (error_result mcpName toolName m (now - startTime)))
        end
      else
        (o, [], inl (error_result mcpName toolName "MCP not available"
                       (now - startTime)))
  | None =>
      (o, [], inl (error_result mcpName toolName "MCP not available"
                     (now - startTime)))
  end.

(** The continuation of [executeTask] once its call settled, at time
    [now]. *)
Definition executeTask_end (s : Suspended) (o : Outcome) (now : Z)
  : ExecutionResult :=
  match o with
  | Resolved r =>
      success_result (sus_mcp s) (sus_tool s) r (now - sus_startTime s)
  | Rejected m =>
      error_result (sus_mcp s) (sus_tool s) m (now - sus_startTime s)
  end.

(** [executionPlan.map((step) => this.executeTask(..))]: every call runs
    to its [await] before the next one starts. *)
Fixpoint begin_all (o : Orchestrator) (now : Z) (plan : list ExecutionStep)
  : Orchestrator * list (string * Effect) *
    list (ExecutionResult + Suspended) :=
  match plan with
  | [] => (o, [], [])
  | s :: rest =>
      let '(o1, e1, slot) :=
        executeTask_begin o now (step_mcp s) (step_tool s) (step_params s) in
      let '(o2, e2, slots) := begin_all o1 now rest in
      (o2, map (pair (step_mcp s)) e1 ++ e2, slot :: slots)
  end.

(** One awaited call settling: the index of the step that waits for it,
    how it ended, and the clock at that moment. *)
Record Settlement : Type := {
  st_index : nat;
  st_outcome : Outcome;
  st_now : Z;
}.

(** The value array of [Promise.all]: a slot is written when the promise
    at its index fulfils, and a promise fulfils once. *)
Definition initial_values (slots : list (ExecutionResult + Suspended))
  : list (option ExecutionResult) :=
  map (fun slot => match slot with inl r => Some r | inr _ => None end) slots.

Definition settle (slots : list (ExecutionResult + Suspended))
    (values : list (option ExecutionResult)) (s : Settlement)
  : list (option ExecutionResult) :=
  match slots !! st_index s, values !! st_index s with
  | Some (inr sus), Some None =>
      <[st_index s := Some (executeTask_end sus (st_outcome s) (st_now s))]>
        values
  | _, _ => values
  end.

(** [await Promise.all(..)]: the array once every slot is written. *)
Definition promise_all (values : list (option ExecutionResult))
  : option (list ExecutionResult) :=
  mapM id values.

(** The [parallel] branch of [orchestrateTask]; [schedule] is the order
    in which the awaited calls settle. *)
Definition execute_parallel (o : Orchestrator) (now : Z)
    (plan : list ExecutionStep) (schedule : list Settlement)
  : Orchestrator * list (string * Effect) * option (list ExecutionResult) :=
  let '(o', e, slots) := begin_all o now plan in
  (o', e, promise_all (foldl (settle slots) (initial_values slots) schedule)).

(** How the environment ends the call with a given id on a given client:
    its outcome and the clock when it settles. *)
Definition Env : Type := string -> Z -> Outcome * Z.

(** Every path that settles a call of [sendMCPRequest] deletes its
    entry. *)
Definition forget_call (mcpName : string) (id : Z) (o : Orchestrator)
  : Orchestrator :=
  match clients_get mcpName (mcpClients o) with
  | Some c =>
      set_mcpClients
        (clients_set mcpName
           (set_pendingRequests (delete id (pendingRequests c)) c)
           (mcpClients o)) o
  | None => o
  end.

(** What the sequential loop does, in order. *)
Inductive TraceEvent : Type :=
| Issued (index : nat) (mcpName : string) (e : Effect)
| Recorded (index : nat) (r : ExecutionResult).

(** The [for (const step of executionPlan)] loop, [index] being the
    position of the head of [plan] in the whole plan. *)
Fixpoint execute_sequential (env : Env) (o : Orchestrator) (now : Z)
    (index : nat) (plan : list ExecutionStep)
  : Orchestrator * list TraceEvent * list ExecutionResult :=
  match plan with
  | [] => (o, [], [])
  | s :: rest =>
      let '(o1, e1, slot) :=
        executeTask_begin o now (step_mcp s) (step_tool s) (step_params s) in
      let '(o2, now2, r) :=
        match slot with
        | inl r => (o1, now, r)
        | inr sus =>
            let '(outcome, t) := env (sus_mcp sus) (sus_call sus) in
            (forget_call (sus_mcp sus) (sus_call sus) o1, t,
             executeTask_end sus outcome t)
        end in
      let '(o3, trace, results) :=
        execute_sequential env o2 now2 (S index) rest in
      (o3,
       map (Issued index (step_mcp s)) e1 ++ Recorded index r :: trace,
       r :: results)
  end.

(** Step 4 of [orchestrateTask]: the results array. *)
Definition execute_plan_parallel (o : Orchestrator) (now : Z)
    (plan : list ExecutionStep) (schedule : list Settlement)
  : option (list ExecutionResult) :=
  snd (execute_parallel o now plan schedule).

Definition execute_plan_sequential (env : Env) (o : Orchestrator) (now : Z)
    (plan : list ExecutionStep) : list ExecutionResult :=
  snd (execute_sequential env o now 0 plan).

(** *** On-demand health check ([checkHealth] of [src/index.ts]) *)

Inductive Health : Type := Healthy | Unhealthy.

Record HealthResult : Type := {
  hr_name : string;
  hr_status : Health;
  hr_response_time_ms : option Z;
  hr_error : option string;
  hr_container : string;
}.

Fixpoint clients_keys (m : Clients) : list string :=
  match m with
  | [] => []
  | (k, _) :: rest => k :: clients_keys rest
  end.

(** [mcp_name ? [this.mcpClients.get(mcp_name)].filter(Boolean)
              : Array.from(this.mcpClients.values())], by key.
    [None] is an absent [mcp_name]. *)
Definition mcpsToCheck (o : Orchestrator) (mcp_name : option string)
  : list string :=
  match mcp_name with
  | Some n =>
      if bool_decide (n = "") then clients_keys (mcpClients o)
      else
        match clients_get n (mcpClients o) with
        | Some _ => [n]
        | None => []
        end
  | None => clients_keys (mcpClients o)
  end.

(** The loop over [mcpsToCheck]. *)
Fixpoint check_each (env : Env) (o : Orchestrator) (now : Z)
    (keys : list string)
  : Orchestrator * list (string * Effect) * list HealthResult :=
  match keys with
  | [] => (o, [], [])
  | k :: rest =>
      match clients_get k (mcpClients o) with
      | None => check_each env o now rest
      | Some client =>
          let unhealthy m :=
            {| hr_name := name (config client); hr_status := Unhealthy;
               hr_response_time_ms := None; hr_error := Some m;
               hr_container := container_name (container (config client)) |} in
          let '(o1, e1, now1, r) :=
            if isReady client then
              let start := now in
              let '(client', e, h) :=
                sendMCPRequest client "ping" (Json.Obj []) in
              let o' :=
                set_mcpClients (clients_set k client' (mcpClients o)) o in
              match h with
              | RejectedNow m => (o', e, now, unhealthy m)
              | Awaiting id =>
                  match env k id with
                  | (Resolved _, t) =>
                      (forget_call k id o', e, t,
                       {| hr_name := name (config client);
                          hr_status := Healthy;
                          hr_response_time_ms := Some (t - start);
                          hr_error := None;
                          hr_container :=
                            container_name (container (config client)) |})
                  | (Rejected m, t) =>
                      (forget_call k id o', e, t, unhealthy m)
                  end
              end
            else (o, [], now, unhealthy "Client not ready") in
          let '(o2, e2, results) := check_each env o1 now1 rest in
          (o2, map (pair k) e1 ++ e2, r :: results)
      end
  end.

Definition checkHealth (env : Env) (o : Orchestrator) (now : Z)
    (mcp_name : option string)
  : Orchestrator * list (string * Effect) * list HealthResult :=
  check_each env o now (mcpsToCheck o mcp_name).

(** ** Text built-ins used by the task heuristics *)

Module Text.

(** [String.prototype.toLowerCase] on code units below 256: the ASCII
    capitals and the Latin-1 capitals (U+00C0 to U+00DE, the
    multiplication sign apart) move 32 up. *)
Definition lower_char (c : ascii) : ascii :=
  let n := N_of_ascii c in
  if ((65 <=? n) && (n <=? 90))%N then ascii_of_N (n + 32)
  else if ((192 <=? n) && (n <=? 222) && negb (n =? 215))%N
       then ascii_of_N (n + 32)
  else c.

Fixpoint toLowerCase (s : string) : string :=
  match s with
  | EmptyString => ""
  | String c rest => String (lower_char c) (toLowerCase rest)
  end.

(** [s.startsWith(p)] *)
Fixpoint startsWith (s p : string) : bool :=
  match p, s with
  | EmptyString, _ => true
  | String _ _, EmptyString => false
  | String b p', String a s' => bool_decide (a = b) && startsWith s' p'
  end.

(** [s.includes(p)] *)
Fixpoint includes (s p : string) : bool :=
  startsWith s p ||
  match s with
  | EmptyString => false
  | String _ rest => includes rest p
  end.

(** [s.split(sep)] for a one-character separator. *)
Fixpoint split (sep : ascii) (s : string) : list string :=
  match s with
  | EmptyString => [""]
  | String c rest =>
      if decide (c = sep) then "" :: split sep rest
      else Frame.cons_head c (split sep rest)
  end.

(** [s.substring(0, n)] *)
Fixpoint take (n : nat) (s : string) : string :=
  match n, s with
  | O, _ => ""
  | _, EmptyString => ""
  | S n', String c rest => String c (take n' rest)
  end.

(** [s.replace(/[^a-z0-9\s]/g, "")] *)
Definition is_lower_alnum (c : ascii) : bool :=
  let n := N_of_ascii c in
  ((97 <=? n) && (n <=? 122))%N || ((48 <=? n) && (n <=? 57))%N.

Fixpoint keep (f : ascii -> bool) (s : string) : string :=
  match s with
  | EmptyString => ""
  | String c rest => if f c then String c (keep f rest) else keep f rest
  end.

Definition dash : ascii := "045"%char.

(** [s.replace(/\s+/g, "-")]: [in_run] says that the previous character
    was white space, whose run already gave its dash. *)
Fixpoint dash_runs (in_run : bool) (s : string) : string :=
  match s with
  | EmptyString => ""
  | String c rest =>
      if Frame.is_space c then
        if in_run then dash_runs true rest
        else String dash (dash_runs true rest)
      else String c (dash_runs false rest)
  end.

Fixpoint all_space (s : string) : bool :=
  match s with
  | EmptyString => true
  | String c rest => Frame.is_space c && all_space rest
  end.

(** Number of occurrences of a character. *)
Fixpoint count (c : ascii) (s : string) : nat :=
  match s with
  | EmptyString => 0
  | String a rest => (if decide (a = c) then 1 else 0) + count c rest
  end.

End Text.

(** ** Attaching to a container *)

(** [config.container.command || ["node", "index.js"]]: an array, even
    an empty one, is truthy. *)
Definition container_command (cfg : MCPConfig) : list string :=
  default ["node"; "index.js"] (command (container cfg)).

(** [config.container.workdir] when it is truthy. *)
Definition container_workdir (cfg : MCPConfig) : option string :=
  match workdir (container cfg) with
  | Some w => if bool_decide (w = "") then None else Some w
  | None => None
  end.

(** The argument array [connectToDockerMCP] of [src/index.ts] builds
    with [push]. *)
Definition connectToDockerMCP_args (cfg : MCPConfig) : list string :=
  let dockerArgs := ["exec"; "-i"] in
  let dockerArgs :=
    match container_workdir cfg with
    | Some w => dockerArgs ++ ["-w"; w]
    | None => dockerArgs
    end in
  dockerArgs ++ container_name (container cfg) :: container_command cfg.

(** The argument array [connectToMCP] of [src/mcpClient/mcp_client.ts]
    builds with spreads. *)
Definition connectToMCP_args (cfg : MCPConfig) : list string :=
  ["exec"; "-i"] ++
  match container_workdir cfg with
  | Some w => ["-w"; w]
  | None => []
  end ++
  [container_name (container cfg)] ++
  container_command cfg.

(** Which module's [ensureContainerRunning]. *)
Inductive ContainerCheck : Type := CheckOfIndex | CheckOfDockerModule.

Section ContainerRunning.

Context `{platform : Platform}.

(** [ensureContainerRunning]: [chunks] is what [docker inspect] printed,
    [code] the exit code its [close] event reports ([None] for [null]).
    [None] when the promise resolves, the message of the error when it
    rejects. *)
Definition ensureContainerRunning (which : ContainerCheck)
    (containerName : string) (chunks : list Buffer) (code : option Z)
  : option string :=
  let output := text_of chunks in
  if bool_decide (code = Some 0) && bool_decide (Frame.trim output = "true")
  then None
  else Some
    match which with
    | CheckOfIndex => "Container " +:+ containerName +:+ " is not running"
    | CheckOfDockerModule => "Container " +:+ containerName +:+ " not running"
    end.

End ContainerRunning.

(** ** Periodic health probes ([startHealthChecks] of [src/index.ts]) *)

(** Where the probe of one client stands after the synchronous part of
    its [try] block. *)
Inductive Probe : Type :=
| ProbeNotReady
    (** [throw new Error("Client not ready")] *)
| ProbeAwaiting (h : CallHandle).

(** The [try] block up to its [await]. *)
Definition healthProbe_begin (c : MCPClient)
  : MCPClient * list Effect * Probe :=
  if isReady c then
    let '(c', e, h) := sendMCPRequest c "ping" (Json.Obj []) in
    (c', e, ProbeAwaiting h)
  else (c, [], ProbeNotReady).

(** The [catch] block: the timer [scheduleReconnect] arms, if any. *)
Definition healthProbe_failed (o : Orchestrator) (c : MCPClient)
  : MCPClient * option ReconnectTimer :=
  let c' := set_isReady false c in
  (c', scheduleReconnect o c').

(** The rest of the [try] block once the ping settled, at time [now]. *)
Definition healthProbe_end (o : Orchestrator) (c : MCPClient) (out : Outcome)
    (now : Z) : MCPClient * option ReconnectTimer :=
  match out with
  | Resolved _ => (set_lastHealthCheck (Some now) c, None)
  | Rejected _ => healthProbe_failed o c
  end.

(** One whole probe: [out] is how the ping ends when one is sent. *)
Definition healthProbe (o : Orchestrator) (c : MCPClient) (out : Outcome)
    (now : Z) : MCPClient * list Effect * option ReconnectTimer :=
  let '(c1, e, probe) := healthProbe_begin c in
  let '(c2, t) :=
    match probe with
    | ProbeNotReady => healthProbe_failed o c1
    | ProbeAwaiting (RejectedNow _) => healthProbe_failed o c1
    | ProbeAwaiting (Awaiting id) =>
        healthProbe_end o
          (set_pendingRequests (delete id (pendingRequests c1)) c1) out now
    end in
  (c2, e, t).

(** ** Listing the connections ([listMCPs]) *)

Inductive McpStatus : Type := McpReady | McpNotReady.

(** [toolsResponse.tools || []] inside its [try]; [None] when reading
    [.tools] throws. *)
Definition tools_of_response (r : option Json.value) : option Json.value :=
  match r with
  | None | Some Json.Null => None
  | Some v =>
      Some (if Json.truthy (Json.prop "tools" v)
            then default (Json.Arr []) (Json.prop "tools" v)
            else Json.Arr [])
  end.

Section Listing.

(** [new Date(t).toISOString()], a built-in that stays abstract. *)
Variable toISOString : Z -> string.

Record McpInfo : Type := {
  info_name : string;
  info_status : McpStatus;
  info_capabilities : list string;
  info_container : string;
  info_last_health_check : option string;
  info_tools : option Json.value;
}.

(** The object literal [mcpInfo], before any [tools] is added. *)
Definition mcpInfo_of (k : string) (client : MCPClient) : McpInfo :=
  {| info_name := k;
     info_status := if isReady client then McpReady else McpNotReady;
     info_capabilities := capabilities (config client);
     info_container := container_name (container (config client));
     info_last_health_check :=
       match lastHealthCheck client with
       | Some t => if t =? 0 then None else Some (toISOString t)
       | None => None
       end;
     info_tools := None |}.

Definition with_tools (tools : Json.value) (i : McpInfo) : McpInfo :=
  {| info_name := info_name i; info_status := info_status i;
     info_capabilities := info_capabilities i;
     info_container := info_container i;
     info_last_health_check := info_last_health_check i;
     info_tools := Some tools |}.

(** One turn of the loop of [listMCPs] of [src/index.ts]. *)
Definition listMCPs_one (env : Env) (include_tools : bool) (o : Orchestrator)
    (k : string) (client : MCPClient)
  : Orchestrator * list Effect * McpInfo :=
  let info := mcpInfo_of k client in
  if include_tools && isReady client then
    let '(client', e, h) :=
      sendMCPRequest client "tools/list" (Json.Obj []) in
    let o' := set_mcpClients (clients_set k client' (mcpClients o)) o in
    match h with
    | RejectedNow _ => (o', e, with_tools (Json.Arr []) info)
    | Awaiting id =>
        match env k id with
        | (Resolved r, _) =>
            (forget_call k id o', e,
             with_tools (default (Json.Arr []) (tools_of_response r)) info)
        | (Rejected _, _) =>
            (forget_call k id o', e, with_tools (Json.Arr []) info)
        end
    end
  else (o, [], info).

(** The loop of [listMCPs] of [src/index.ts]. *)
Fixpoint listMCPs_each (env : Env) (include_tools : bool) (o : Orchestrator)
    (keys : list string)
  : Orchestrator * list (string * Effect) * list McpInfo :=
  match keys with
  | [] => (o, [], [])
  | k :: rest =>
      match clients_get k (mcpClients o) with
      | None => listMCPs_each env include_tools o rest
      | Some client =>
          let '(o1, e1, info) := listMCPs_one env include_tools o k client in
          let '(o2, e2, infos) := listMCPs_each env include_tools o1 rest in
          (o2, map (pair k) e1 ++ e2, info :: infos)
      end
  end.

Record McpSummary : Type := {
  total_mcps : nat;
  ready_mcps : nat;
  mcps : list McpInfo;
}.

Definition is_ready_info (i : McpInfo) : bool :=
  match info_status i with McpReady => true | McpNotReady => false end.

Definition listMCPs (env : Env) (o : Orchestrator) (include_tools : bool)
  : Orchestrator * list (string * Effect) * McpSummary :=
  let '(o', e, mcpList) :=
    listMCPs_each env include_tools o (clients_keys (mcpClients o)) in
  (o', e,
   {| total_mcps := List.length mcpList;
      ready_mcps := List.length (List.filter is_ready_info mcpList);
      mcps := mcpList |}).

End Listing.

(** One entry of the listing of the modular orchestrator. *)
Record ModularEntry : Type := {
  entry_name : string;
  entry_ready : bool;
  entry_tools : option (option Json.value);
}.

(** How the environment ends a call of [sendRequest]: its outcome, and
    whether the path that settled it removed its entry (a response and
    the timer do, the write callback does not). *)
Definition ModularEnv : Type := string -> Z -> Outcome * bool.

Definition settle_modular (k : string) (id : Z) (removed : bool)
    (o : Orchestrator) : Orchestrator :=
  if removed then forget_call k id o else o.

(** The loop of [listMCPs] of the modular orchestrator: [inl] is the
    error the whole listing rejects with. *)
Fixpoint modular_listMCPs_each (env : ModularEnv) (include : bool)
    (o : Orchestrator) (keys : list string)
  : Orchestrator * list (string * Effect) * (string + list ModularEntry) :=
  match keys with
  | [] => (o, [], inr [])
  | k :: rest =>
      match clients_get k (mcpClients o) with
      | None => modular_listMCPs_each env include o rest
      | Some client =>
          if include && isReady client then
            let '(client', e, _) :=
              sendRequest client "tools/list" (Json.Obj []) in
            let id := requestId client' in
            let o' :=
              set_mcpClients (clients_set k client' (mcpClients o)) o in
            match env k id with
            | (Rejected m, removed) =>
                (settle_modular k id removed o', map (pair k) e, inl m)
            | (Resolved r, removed) =>
                let '(o2, e2, res) :=
                  modular_listMCPs_each env include
                    (settle_modular k id removed o') rest in
                (o2, map (pair k) e ++ e2,
                 match res with
                 | inl m => inl m
                 | inr entries =>
                     inr ({| entry_name := k; entry_ready := true;
                             entry_tools := Some r |} :: entries)
                 end)
            end
          else
            let '(o2, e2, res) :=
              modular_listMCPs_each env include o rest in
            (o2, e2,
             match res with
             | inl m => inl m
             | inr entries =>
                 inr ({| entry_name := k; entry_ready := isReady client;
                         entry_tools := None |} :: entries)
             end)
      end
  end.

Definition modular_listMCPs (env : ModularEnv) (o : Orchestrator)
    (include_tools : bool)
  : Orchestrator * list (string * Effect) * (string + nat * list ModularEntry) :=
  let '(o', e, res) :=
    modular_listMCPs_each env include_tools o (clients_keys (mcpClients o)) in
  (o', e,
   match res with
   | inl m => inl m
   | inr summary => inr (List.length summary, summary)
   end).

(** ** Task routing heuristics *)

(** *** [analyzeTask] *)

(** The [keywords] table of [src/index.ts]. *)
Definition keywords_index : list (string * list string) :=
  [("github", ["github"; "repo"; "repository"; "branch"; "commit";
               "pull request"]);
   ("trello", ["trello"; "board"; "card"; "list"; "kanban"]);
   ("database", ["database"; "db"; "sql"; "query"]);
   ("email", ["email"; "mail"; "send"; "notification"]);
   ("file", ["file"; "document"; "upload"; "download"])].

(** The [keywords] table of the tasks module. *)
Definition keywords_modular : list (string * list string) :=
  [("github", ["github"; "repo"; "repository"; "branch"; "commit";
               "pull request"]);
   ("trello", ["trello"; "board"; "card"; "list"; "kanban"])].

Definition keywords_of (i : Implementation) : list (string * list string) :=
  match i with
  | IndexOrchestrator => keywords_index
  | ModularOrchestrator => keywords_modular
  end.

(** The points a list of words earns: [points] for each that occurs in
    [text]. *)
Definition occurrences (points : nat) (text : string) (words : list string)
  : nat :=
  list_sum (map (fun w => if Text.includes text w then points else 0%nat) words).

(** The [score] of one client at the end of the loop body. *)
Definition analyze_score (table : list (string * list string))
    (taskLower mcpName : string) (client : MCPClient) : nat :=
  (if Text.includes taskLower (Text.toLowerCase mcpName) then 10 else 0) +
  occurrences 5 taskLower (map Text.toLowerCase (capabilities (config client))) +
  list_sum
    (map (fun entry : string * list string =>
            if Text.includes (Text.toLowerCase mcpName) (fst entry)
            then occurrences 3 taskLower (snd entry)
            else 0%nat) table).

Fixpoint analyze_clients (table : list (string * list string))
    (taskLower : string) (clients : Clients) : list string :=
  match clients with
  | [] => []
  | (mcpName, client) :: rest =>
      if isReady client then
        if (0 <? analyze_score table taskLower mcpName client)%nat
        then mcpName :: analyze_clients table taskLower rest
        else analyze_clients table taskLower rest
      else analyze_clients table taskLower rest
  end.

Definition analyzeTask (i : Implementation) (task : string) (clients : Clients)
  : list string :=
  analyze_clients (keywords_of i) (Text.toLowerCase task) clients.

(** *** [selectBestTools] *)

(** A tool of a listing as [selectBestTools] and [generateSmartParams]
    read it: its [name], a string; its [description], a string when it
    has a truthy one; its [inputSchema], any value or none. *)
Record Tool : Type := {
  tool_name : string;
  tool_description : option string;
  tool_inputSchema : option Json.value;
}.

(** [{ ...tool, score }] *)
Record ScoredTool : Type := {
  scored : Tool;
  score : nat;
}.

Definition actionWords : list string :=
  ["create"; "add"; "update"; "delete"; "send"; "get"; "list"].

Definition tool_score (taskLower : string) (t : Tool) : nat :=
  let toolName := Text.toLowerCase (tool_name t) in
  let toolDesc := Text.toLowerCase (default "" (tool_description t)) in
  (if Text.includes taskLower toolName then 10 else 0) +
  list_sum
    (map (fun action =>
            if Text.includes taskLower action &&
               (Text.includes toolName action || Text.includes toolDesc action)
            then 5 else 0)%nat actionWords).

(** [Array.prototype.sort] with the comparator [(a, b) => b.score -
    a.score]: the stable sort by decreasing score.  An element goes
    before the first one whose score is not above its own. *)
Fixpoint insert_by_score (x : ScoredTool) (l : list ScoredTool)
  : list ScoredTool :=
  match l with
  | [] => [x]
  | y :: rest =>
      if (score y <=? score x)%nat then x :: y :: rest
      else y :: insert_by_score x rest
  end.

Fixpoint sort_by_score (l : list ScoredTool) : list ScoredTool :=
  match l with
  | [] => []
  | x :: rest => insert_by_score x (sort_by_score rest)
  end.

Definition score_tools (task : string) (tools : list Tool) : list ScoredTool :=
  map (fun t => {| scored := t; score := tool_score (Text.toLowerCase task) t |})
      tools.

Definition selectBestTools (tools : list Tool) (task : string)
  : list ScoredTool :=
  sort_by_score
    (List.filter (fun t => (0 <? score t)%nat) (score_tools task tools)).

(** *** [extractTitle] and [generateBranchName] *)

Definition stopWords : list string :=
  ["quiero"; "crear"; "make"; "create"; "una"; "un"; "el"; "la"].

Definition space : ascii := "032"%char.

Definition extractTitle (task : string) : string :=
  let words :=
    List.filter
      (fun word => negb (bool_decide (Text.toLowerCase word ∈ stopWords)))
      (Text.split space task) in
  Text.take 50 (Json.join " " (List.firstn 4 words)).

Definition generateBranchName (task : string) : string :=
  let clean :=
    Text.take 30
      (Text.dash_runs false
         (Text.keep (fun c => Text.is_lower_alnum c || Frame.is_space c)
            (Text.toLowerCase task))) in
  "feature/" +:+ clean.

(** *** [generateSmartParams] *)

(** [Object.entries(v)] for a truthy value: the fields of an object in
    the order it enumerates them, the indexed elements of an array, the
    indexed characters of a string, nothing for a number or [true]. *)
Definition entries_of (v : Json.value) : list (string * Json.value) :=
  match v with
  | Json.Obj fields => fields
  | Json.Arr items => imap (fun i x => (pretty i, x)) items
  | Json.Str s =>
      imap (fun i c => (pretty i, Json.Str (String c "")))
           (list_ascii_of_string s)
  | _ => []
  end.

(** The array index a property key stands for, if any: a canonical
    decimal numeral below [2^32 - 1]. *)
Definition digit (c : ascii) : option N :=
  let n := N_of_ascii c in
  if ((48 <=? n) && (n <=? 57))%N then Some (n - 48)%N else None.

Fixpoint numeral (acc : N) (s : string) : option N :=
  match s with
  | EmptyString => Some acc
  | String c rest =>
      match digit c with
      | Some d => numeral (10 * acc + d)%N rest
      | None => None
      end
  end.

Definition array_index (k : string) : option N :=
  match k with
  | EmptyString => None
  | _ =>
      match numeral 0 k with
      | Some n =>
          if bool_decide (pretty n = k) && (n <? 4294967295)%N
          then Some n else None
      | None => None
      end
  end.

(** Where a new own property goes in the enumeration order of a plain
    object: array indices come first, in ascending order, then the
    other keys in the order they were created. *)
Fixpoint js_add (k : string) (v : Json.value)
    (fields : list (string * Json.value)) : list (string * Json.value) :=
  match fields with
  | [] => [(k, v)]
  | (k', x) :: rest =>
      match array_index k, array_index k' with
      | Some n, Some n' =>
          if (n <? n')%N then (k, v) :: fields
          else (k', x) :: js_add k v rest
      | Some _, None => (k, v) :: fields
      | None, _ => (k', x) :: js_add k v rest
      end
  end.

(** An own property that is written again keeps its place. *)
Fixpoint js_replace (k : string) (v : Json.value)
    (fields : list (string * Json.value)) : list (string * Json.value) :=
  match fields with
  | [] => []
  | (k', x) :: rest =>
      if decide (k = k') then (k, v) :: rest
      else (k', x) :: js_replace k v rest
  end.

(** [obj[key] = v] on a plain object. *)
Definition js_set (k : string) (v : Json.value)
    (fields : list (string * Json.value)) : list (string * Json.value) :=
  if bool_decide (is_Some (Json.assoc k fields)) then js_replace k v fields
  else js_add k v fields.

(** [v === text] for a possibly undefined value and a string. *)
Definition is_string (v : option Json.value) (text : string) : bool :=
  match v with
  | Some (Json.Str s) => bool_decide (s = text)
  | _ => false
  end.

(** What one turn of the loop assigns: [None] when reading a property of
    a [null] schema throws, [Some None] when no branch applies. *)
Definition smart_value (i : Implementation) (task paramName : string)
    (schema : Json.value) : option (option Json.value) :=
  let lower := Text.toLowerCase paramName in
  if Text.includes lower "title" || Text.includes lower "name" then
    Some (Some (Json.Str (extractTitle task)))
  else if Text.includes lower "description" || Text.includes lower "body" then
    Some (Some (Json.Str ("Generated from task: " +:+ task)))
  else if Text.includes lower "branch" then
    Some (Some (Json.Str (generateBranchName task)))
  else if Text.includes lower "list" &&
          Text.includes (Text.toLowerCase task) "backlog" then
    Some (Some (Json.Str "backlog"))
  else
    match schema with
    | Json.Null => None
    | _ =>
        let has_default :=
          match i with
          | IndexOrchestrator => Json.truthy (Json.prop "default" schema)
          | ModularOrchestrator =>
              bool_decide (is_Some (Json.prop "default" schema))
          end in
        if has_default then Some (Json.prop "default" schema)
        else if is_string (Json.prop "type" schema) "boolean"
        then Some (Some (Json.Bool true))
        else if is_string (Json.prop "type" schema) "string"
        then Some (Some (Json.Str ("Auto: " +:+ Text.take 30 task +:+ "...")))
        else Some None
    end.

Fixpoint smart_params (i : Implementation) (task : string)
    (entries : list (string * Json.value))
    (params : list (string * Json.value))
  : option (list (string * Json.value)) :=
  match entries with
  | [] => Some params
  | (paramName, schema) :: rest =>
      match smart_value i task paramName schema with
      | None => None
      | Some (Some v) => smart_params i task rest (js_set paramName v params)
      | Some None => smart_params i task rest params
      end
  end.

(** [tool.inputSchema?.properties] *)
Definition schema_properties (t : Tool) : option Json.value :=
  match tool_inputSchema t with
  | None | Some Json.Null => None
  | Some s => Json.prop "properties" s
  end.

(** [generateSmartParams]: the fields of [params], [None] when it
    throws. *)
Definition generateSmartParams (i : Implementation) (t : Tool) (task : string)
  : option (list (string * Json.value)) :=
  if Json.truthy (schema_properties t) then
    smart_params i task (entries_of (default Json.Null (schema_properties t))) []
  else Some [].

(** *** Step 3 of [orchestrateTask]: the execution plan *)

(** The inner loop: one step per selected tool. *)
Fixpoint steps_of_tools (i : Implementation) (task mcpName : string)
    (selected : list ScoredTool) : option (list ExecutionStep) :=
  match selected with
  | [] => Some []
  | t :: rest =>
      match generateSmartParams i (scored t) task with
      | None => None
      | Some params =>
          match steps_of_tools i task mcpName rest with
          | None => None
          | Some steps =>
              Some ({| step_mcp := mcpName; step_tool := tool_name (scored t);
                       step_params := Json.Obj params |} :: steps)
          end
      end
  end.

(** The steps one entry of [availableTools] contributes: those of its
    two best tools. *)
Definition plan_of_entry (i : Implementation) (task : string)
    (entry : string * list Tool) : option (list ExecutionStep) :=
  steps_of_tools i task (fst entry)
    (List.firstn 2 (selectBestTools (snd entry) task)).

(** The loop over [Object.entries(availableTools)]: [None] when
    [generateSmartParams] throws. *)
Fixpoint createPlan (i : Implementation) (task : string)
    (availableTools : list (string * list Tool)) : option (list ExecutionStep) :=
  match availableTools with
  | [] => Some []
  | entry :: rest =>
      match plan_of_entry i task entry with
      | None => None
      | Some steps =>
          match createPlan i task rest with
          | None => None
          | Some more => Some (steps ++ more)
          end
      end
  end.

(** ** Step 2 of [orchestrateTask]: the tools of the required connections *)

(** Where the arrow function of [getAvailableTools] stands for one name
    once [map] has called it. *)
Inductive ToolsSlot : Type :=
| SlotAssigned
    (** not available: [tools[mcpName] = []] is done, the promise is
        fulfilled *)
| SlotThrown
    (** the call was rejected at once: the [catch] block runs when the
        [await] resumes *)
| SlotAwaiting (id : Z).

(** One call of the arrow function, up to its [await] or its [return]. *)
Definition getAvailableTools_begin_one (o : Orchestrator)
    (tools : list (string * Json.value)) (mcpName : string)
  : Orchestrator * list Effect * list (string * Json.value) * ToolsSlot :=
  match clients_get mcpName (mcpClients o) with
  | Some client =>
      if isReady client then
        let '(client', e, h) :=
          sendMCPRequest client "tools/list" (Json.Obj []) in
        let o' := set_mcpClients (clients_set mcpName client' (mcpClients o)) o in
        match h with
        | Awaiting id => (o', e, tools, SlotAwaiting id)
        | RejectedNow _ => (o', e, tools, SlotThrown)
        end
      else (o, [], js_set mcpName (Json.Arr []) tools, SlotAssigned)
  | None => (o, [], js_set mcpName (Json.Arr []) tools, SlotAssigned)
  end.

(** [mcpNames.map(async (mcpName) => ..)]: every call runs to its
    [await] before the next one starts. *)
Fixpoint getAvailableTools_begin (o : Orchestrator)
    (tools : list (string * Json.value)) (mcpNames : list string)
  : Orchestrator * list (string * Effect) * list (string * Json.value) *
    list (string * ToolsSlot) :=
  match mcpNames with
  | [] => (o, [], tools, [])
  | mcpName :: rest =>
      let '(o1, e1, tools1, slot) :=
        getAvailableTools_begin_one o tools mcpName in
      let '(o2, e2, tools2, slots) := getAvailableTools_begin o1 tools1 rest in
      (o2, map (pair mcpName) e1 ++ e2, tools2, (mcpName, slot) :: slots)
  end.

(** The [catch] blocks of the calls rejected at once, which resume in
    the order of their [await]s, before any awaited call can settle. *)
Fixpoint assign_thrown (slots : list (string * ToolsSlot))
    (tools : list (string * Json.value)) : list (string * Json.value) :=
  match slots with
  | [] => tools
  | (mcpName, SlotThrown) :: rest =>
      assign_thrown rest (js_set mcpName (Json.Arr []) tools)
  | _ :: rest => assign_thrown rest tools
  end.

(** One awaited [tools/list] settling: the index of the name that waits
    for it and how it ended. *)
Record ToolsSettlement : Type := {
  ts_index : nat;
  ts_outcome : Outcome;
}.

(** What is assigned once the call settled: [response.tools || []], and
    [[]] from the [catch] block. *)
Definition listed_tools (out : Outcome) : Json.value :=
  match out with
  | Resolved r => default (Json.Arr []) (tools_of_response r)
  | Rejected _ => Json.Arr []
  end.

(** The registry, the [tools] object, and which promises are
    fulfilled. *)
Definition ToolsState : Type :=
  Orchestrator * list (string * Json.value) * list bool.

Definition tools_settle (slots : list (string * ToolsSlot))
    (st : ToolsState) (s : ToolsSettlement) : ToolsState :=
  let '(o, tools, fulfilled) := st in
  match slots !! ts_index s, fulfilled !! ts_index s with
  | Some (mcpName, SlotAwaiting id), Some false =>
      (forget_call mcpName id o,
       js_set mcpName (listed_tools (ts_outcome s)) tools,
       <[ts_index s := true]> fulfilled)
  | _, _ => st
  end.

Definition awaits (slot : string * ToolsSlot) : bool :=
  match snd slot with SlotAwaiting _ => true | _ => false end.

Definition assigned (slot : string * ToolsSlot) : bool :=
  match snd slot with SlotAssigned => true | _ => false end.

Definition thrown (slot : string * ToolsSlot) : bool :=
  match snd slot with SlotThrown => true | _ => false end.

(** [getAvailableTools] of [src/index.ts] and of the tools module (the
    two bodies are the same); [schedule] is the order in which the
    awaited calls settle.  The fields of the object it resolves with,
    [None] while [Promise.all] still waits. *)
Definition getAvailableTools (o : Orchestrator) (mcpNames : list string)
    (schedule : list ToolsSettlement)
  : Orchestrator * list (string * Effect) *
    option (list (string * Json.value)) :=
  let '(o1, e, tools1, slots) := getAvailableTools_begin o [] mcpNames in
  let '(o2, tools2, fulfilled) :=
    foldl (tools_settle slots)
          (o1, assign_thrown slots tools1, map (fun s => negb (awaits s)) slots)
          schedule in
  (o2, e, if forallb id fulfilled then Some tools2 else None).

(** ** Waiting for a spawned process ([waitForProcessReady]) *)

(** The text [onData] looks for in a chunk: the word jsonrpc between
    double quotes. *)
Definition ready_token : string :=
  String Json.dquote ("jsonrpc" +:+ String Json.dquote "").

(** The promise of [waitForProcessReady]. *)
Inductive Waiting : Type :=
| StillWaiting
| BecameReady
| GaveUp (message : string).

Section Connecting.

Context `{platform : Platform}.

(** What can happen while [waitForProcessReady] waits: a chunk on the
    standard output of the process, or its timer. *)
Inductive WaitEvent : Type :=
| WaitData (data : Buffer)
| WaitTimeout.

(** [onData] and the timer callback.  A promise settles once: [onData]
    removes itself when it resolves, and its [resolve] after a timeout
    changes nothing. *)
Definition waitForProcessReady_step (c : MCPClient) (w : Waiting)
    (ev : WaitEvent) : Waiting :=
  match w, ev with
  | StillWaiting, WaitData data =>
      if Text.includes (Buffer_toString data) ready_token then BecameReady
      else StillWaiting
  | StillWaiting, WaitTimeout =>
      GaveUp ("Timeout waiting for " +:+ name (config c))
  | _, _ => w
  end.

(** [connectToDockerMCP] of [src/index.ts] between [spawn] and the
    handshake.  The listener of [setupProcessHandlers] was added first,
    so it sees every chunk before [onData] does. *)
Definition connecting_step (st : MCPClient * Waiting) (ev : WaitEvent)
  : MCPClient * Waiting * list Effect :=
  let '(c, w) := st in
  match ev with
  | WaitData data =>
      let '(c', e) := on_stdout_data c data in
      (c', waitForProcessReady_step c w ev, e)
  | WaitTimeout => (c, waitForProcessReady_step c w ev, [])
  end.

Fixpoint connecting (st : MCPClient * Waiting) (evs : list WaitEvent)
  : MCPClient * Waiting * list Effect :=
  match evs with
  | [] => (st, [])
  | ev :: rest =>
      let '(st1, e1) := connecting_step st ev in
      let '(st2, e2) := connecting st1 rest in
      (st2, e1 ++ e2)
  end.

(** A chunk in which [onData] does not find the word. *)
Definition quiet (data : Buffer) : Prop :=
  Text.includes (Buffer_toString data) ready_token = false.

End Connecting.

(** What [connectToDockerMCP] does once [waitForProcessReady] has
    settled: the handshake begins, or the rejection is passed on.
    [None] while it still waits. *)
Definition connectToDockerMCP_after_wait (c : MCPClient) (w : Waiting)
  : option (MCPClient * list Effect * Handshake) :=
  match w with
  | StillWaiting => None
  | BecameReady => Some (initializeMCPClient_begin c)
  | GaveUp m => Some (c, [], HandshakeFailed m)
  end.

(** ** Vocabulary of the properties *)

(** From [c] to [c'], the ids taken are the consecutive integers after
    the counter of [c], up to the counter of [c']. *)
Definition ids_ok (c c' : MCPClient) (e : list Effect) : Prop :=
  requestId c <= requestId c' /\
  issued_ids e = seqZ (requestId c + 1) (requestId c' - requestId c).

(** [S] lists the calls settled so far: none of them is pending, none
    is listed twice, and every key was taken from the counter. *)
Definition settled_inv (c : MCPClient) (S : list Z) : Prop :=
  pending_below c /\
  (forall id, id ∈ S -> pendingRequests c !! id = None /\ id <= requestId c) /\
  NoDup S.

Definition settles_ok (c c' : MCPClient) (e : list Effect) : Prop :=
  forall S, settled_inv c S -> settled_inv c' (S ++ settled_ids e).

(** The result belongs to the step: it carries the step's connection
    and tool. *)
Definition aligned (r : ExecutionResult) (s : ExecutionStep) : Prop :=
  stepId r = step_mcp s +:+ "_" +:+ step_tool s /\
  mcp r = step_mcp s /\ tool r = step_tool s.

Definition slot_aligned (slot : ExecutionResult + Suspended)
    (s : ExecutionStep) : Prop :=
  match slot with
  | inl r => aligned r s
  | inr sus => sus_mcp sus = step_mcp s /\ sus_tool sus = step_tool s
  end.

Definition value_aligned (v : option ExecutionResult) (s : ExecutionStep)
  : Prop :=
  match v with
  | Some r => aligned r s
  | None => True
  end.

(** A slot of the value array is written. *)
Definition filled (k : nat) (values : list (option ExecutionResult)) : Prop :=
  exists r, values !! k = Some (Some r).

(** The array has a slot per promise and holds the value of every
    promise that was fulfilled from the start. *)
Definition values_inv (slots : list (ExecutionResult + Suspended))
    (values : list (option ExecutionResult)) : Prop :=
  List.length values = List.length slots /\
  forall k r, slots !! k = Some (inl r) -> filled k values.


(** [o1] differs from [o] at most in the client registered under [k]. *)
Definition same_but (k : string) (o o1 : Orchestrator) : Prop :=
  clients_keys (mcpClients o1) = clients_keys (mcpClients o) /\
  forall k', k' <> k ->
    clients_get k' (mcpClients o1) = clients_get k' (mcpClients o).

(** One turn of the loop of [checkHealth]. *)
Definition check_one (env : Env) (o : Orchestrator) (now : Z) (k : string)
    (client : MCPClient) : Orchestrator * list Effect * Z * HealthResult :=
  let unhealthy m :=
    {| hr_name := name (config client); hr_status := Unhealthy;
       hr_response_time_ms := None; hr_error := Some m;
       hr_container := container_name (container (config client)) |} in
  if isReady client then
    let start := now in
    let '(client', e, h) := sendMCPRequest client "ping" (Json.Obj []) in
    let o' := set_mcpClients (clients_set k client' (mcpClients o)) o in
    match h with
    | RejectedNow m => (o', e, now, unhealthy m)
    | Awaiting id =>
        match env k id with
        | (Resolved _, t) =>
            (forget_call k id o', e, t,
             {| hr_name := name (config client); hr_status := Healthy;
                hr_response_time_ms := Some (t - start); hr_error := None;
                hr_container := container_name (container (config client)) |})
        | (Rejected m, t) => (forget_call k id o', e, t, unhealthy m)
        end
    end
  else (o, [], now, unhealthy "Client not ready").

(** What [checkHealth] reports for the client under one key. *)
Definition reports (o : Orchestrator) (r : HealthResult) (k : string) : Prop :=
  exists c,
    clients_get k (mcpClients o) = Some c /\
    hr_name r = name (config c) /\
    hr_container r = container_name (container (config c)) /\
    (isReady c = false ->
     hr_status r = Unhealthy /\ hr_error r = Some "Client not ready") /\
    (hr_status r = Healthy -> isReady c = true /\ hr_error r = None).

(** What the listing says about the client under one key. *)
Definition lists (include_tools : bool) (o : Orchestrator)
    (info : McpInfo) (k : string) : Prop :=
  exists c,
    clients_get k (mcpClients o) = Some c /\
    info_name info = k /\
    info_status info = (if isReady c then McpReady else McpNotReady) /\
    info_capabilities info = capabilities (config c) /\
    info_container info = container_name (container (config c)) /\
    (is_Some (info_tools info) <-> include_tools && isReady c = true).

Definition by_score (a b : ScoredTool) : Prop := (score b <= score a)%nat.

(** Characters of a branch name after its prefix. *)
Definition branch_char (c : ascii) : bool :=
  Text.is_lower_alnum c || bool_decide (c = Text.dash).

Fixpoint all_chars (f : ascii -> bool) (s : string) : bool :=
  match s with
  | EmptyString => true
  | String c rest => f c && all_chars f rest
  end.

(** No two dashes side by side. *)
Fixpoint single_dashes (s : string) : bool :=
  match s with
  | String a (String b _ as rest) =>
      negb (bool_decide (a = Text.dash) && bool_decide (b = Text.dash)) &&
      single_dashes rest
  | _ => true
  end.

Definition starts_with_dash (s : string) : bool :=
  match s with
  | String a _ => bool_decide (a = Text.dash)
  | EmptyString => false
  end.

(** The property schemas of a tool, as [Object.entries] lists them. *)
Definition property_schemas (t : Tool) : list (string * Json.value) :=
  if Json.truthy (schema_properties t)
  then entries_of (default Json.Null (schema_properties t))
  else [].

(** No property of the tool has [null] for a schema. *)
Definition well_schemed (t : Tool) : Prop :=
  Forall (fun e : string * Json.value => snd e <> Json.Null)
         (property_schemas t).

Definition title_named (paramName : string) : bool :=
  Text.includes (Text.toLowerCase paramName) "title" ||
  Text.includes (Text.toLowerCase paramName) "name".

(** A default either side reads the same way: absent, or truthy. *)
Definition plain_default (schema : Json.value) : Prop :=
  Json.truthy (Json.prop "default" schema) =
  bool_decide (is_Some (Json.prop "default" schema)).

(** What a step of the plan owes to the tools the backends listed. *)
Definition planned (i : Implementation) (task : string)
    (availableTools : list (string * list Tool)) (st : ExecutionStep) : Prop :=
  exists tools t params,
    (step_mcp st, tools) ∈ availableTools /\
    t ∈ tools /\
    step_tool st = tool_name t /\
    (0 < tool_score (Text.toLowerCase task) t)%nat /\
    generateSmartParams i t task = Some params /\
    step_params st = Json.Obj params.

(** The entry a settlement writes. *)
Definition settled_entry (slots : list (string * ToolsSlot))
    (s : ToolsSettlement) : option (string * Json.value) :=
  match slots !! ts_index s with
  | Some (mcpName, _) => Some (mcpName, listed_tools (ts_outcome s))
  | None => None
  end.

(** ** Concrete configurations for worked runs *)

Module Scenario.

Definition alpha_config : MCPConfig :=
  {| name := "alpha"; capabilities := ["files"];
     container := {| container_name := "alpha-box"; command := None;
                     workdir := None |};
     healthCheck := None |}.

Definition beta_config : MCPConfig :=
  {| name := "beta"; capabilities := [];
     container := {| container_name := "beta-box"; command := None;
                     workdir := None |};
     healthCheck := Some {| interval := None; timeout := Some 50 |} |}.

Definition proc1 : ChildProcess := {| pid := 101 |}.
Definition proc2 : ChildProcess := {| pid := 102 |}.

(** Chunks are already text here. *)
Definition text_chunk (s : string) : string := s.

(** A reader of the few messages these runs receive: it accepts exactly
    the serialisations of [known]. *)
Definition parse_among (known : list Json.value) (text : string)
  : option Json.value :=
  List.find (fun v => bool_decide (Json.stringify v = text)) known.

Definition response (id : Z) : Json.value :=
  Json.Obj [("jsonrpc", Json.Str "2.0"); ("id", Json.Num id);
            ("result", Json.Obj [])].

Definition parse : string -> option Json.value :=
  parse_among [response 1; response 2].

Definition platform : Platform :=
  {| Buffer := string; Buffer_toString := text_chunk; JSON_parse := parse |}.

Definition line (v : Json.value) : string := Json.stringify v +:+ nl.

Definition alpha : MCPClient := new_client alpha_config proc1.

Definition ready (c : MCPClient) : MCPClient := set_isReady true c.

(** [alpha] with two calls in flight. *)
Definition two_pending : MCPClient :=
  fst (run (platform := platform) on_stdout_data (ready alpha)
         [EvSendMCPRequest "tools/call" (Json.Obj []);
          EvSendMCPRequest "ping" (Json.Obj [])]).

Definition empty_orchestrator : Orchestrator :=
  {| mcpClients := []; healthCheckInterval := true; reconnectAttempts := ∅ |}.

Definition orchestrator_with (cs : list MCPClient) : Orchestrator :=
  {| mcpClients := map (fun c => (name (config c), c)) cs;
     healthCheckInterval := true; reconnectAttempts := ∅ |}.

(** Two sends, an answer, its duplicate, both timers, a late answer. *)
Definition racing_events : list (@Event platform) :=
  [EvSendMCPRequest "tools/call" (Json.Obj []);
   EvSendMCPRequest "ping" (Json.Obj []);
   @EvData platform (line (response 1));
   @EvData platform (line (response 1));
   EvTimeout 2; EvTimeout 1;
   @EvData platform (line (response 2))].

(** Every call is answered with an empty result ten milliseconds in. *)
Definition answering : Env := fun _ _ => (Resolved (Some (Json.Obj [])), 10).

Definition three_steps : list ExecutionStep :=
  [{| step_mcp := "alpha"; step_tool := "read"; step_params := Json.Obj [] |};
   {| step_mcp := "ghost"; step_tool := "list"; step_params := Json.Obj [] |};
   {| step_mcp := "alpha"; step_tool := "write"; step_params := Json.Obj [] |}].

End Scenario.

(** Tools, listings and a task for the worked runs of the routing
    heuristics. *)
Module Sample.

Definition create_card : Tool :=
  {| tool_name := "create_card";
     tool_description := Some "Create a card on a list";
     tool_inputSchema :=
       Some (Json.Obj
         [("type", Json.Str "object");
          ("properties", Json.Obj
             [("title", Json.Obj [("type", Json.Str "string")]);
              ("archived", Json.Obj [("type", Json.Str "boolean")])])]) |}.

Definition get_board : Tool :=
  {| tool_name := "get_board"; tool_description := None;
     tool_inputSchema := None |}.

(** A boolean parameter that defaults to [false]. *)
Definition close_card : Tool :=
  {| tool_name := "close_card"; tool_description := None;
     tool_inputSchema :=
       Some (Json.Obj
         [("properties", Json.Obj
             [("force", Json.Obj [("type", Json.Str "boolean");
                                  ("default", Json.Bool false)])])]) |}.

Definition listing : list (string * list Tool) :=
  [("alpha", [get_board; create_card])].

Definition task : string := "create a card for the login bug".

Definition registry : Orchestrator :=
  Scenario.orchestrator_with [Scenario.ready Scenario.alpha].

(** What [docker inspect] printed, in two chunks. *)
Definition inspected : list string := [" tr"; "ue" +:+ nl].

Definition ping : Json.value := request 1 "ping" (Json.Obj []).

Definition beta : MCPClient := new_client Scenario.beta_config Scenario.proc2.

(** Two ready clients. *)
Definition pair_registry : Orchestrator :=
  Scenario.orchestrator_with [Scenario.ready Scenario.alpha; Scenario.ready beta].

Definition board_listing : Json.value :=
  Json.Obj [("tools", Json.Arr [Json.Obj [("name", Json.Str "get_board")]])].

(** The call to the second name is answered before the call to the
    first one times out. *)
Definition beta_first : list ToolsSettlement :=
  [{| ts_index := 1; ts_outcome := Resolved (Some board_listing) |};
   {| ts_index := 0; ts_outcome := Rejected "Timeout for tools/list in alpha" |}].

(** What a backend prints when it starts. *)
Definition banner : list string := ["MCP server starting" +:+ nl].

End Sample.

(** * Properties *)

Section Properties.

Context `{platform : Platform}.

(** ** Line splitting *)

Lemma split_nl_nonempty s : Frame.split_nl s <> [].
Proof.
  destruct s as [|c s]; simpl; [done|].
  case_decide; [done|]. destruct (Frame.split_nl s); done.
Qed.

Lemma append_nil_l (b : string) : "" +:+ b = b.
Proof. reflexivity. Qed.

Lemma append_cons (c : ascii) (a b : string) :
  String c a +:+ b = String c (a +:+ b).
Proof. reflexivity. Qed.

Lemma string_app_assoc (a b c : string) : (a +:+ b) +:+ c = a +:+ (b +:+ c).
Proof.
  induction a as [|x a IH]; [done|].
  rewrite !append_cons. by rewrite IH.
Qed.

Lemma string_app_nil_r (a : string) : a +:+ "" = a.
Proof.
  induction a as [|x a IH]; [done|]. rewrite append_cons. by rewrite IH.
Qed.

Lemma removelast_cons_head c l :
  removelast (Frame.cons_head c l) =
  match l with
  | [] | [_] => []
  | _ => Frame.cons_head c (removelast l)
  end.
Proof. destruct l as [|x [|y l]]; done. Qed.

(** Splitting a concatenation: the complete lines of the first part,
    then the split of its unfinished line followed by the second part. *)
Lemma split_nl_app a b :
  Frame.split_nl (a +:+ b) =
  Frame.popped (Frame.split_nl a) ++
  Frame.split_nl (Frame.pop_or_empty (Frame.split_nl a) +:+ b).
Proof.
  unfold Frame.popped, Frame.pop_or_empty.
  induction a as [|c a IH]; [done|].
  pose proof (split_nl_nonempty a) as Hne.
  rewrite append_cons. cbn [Frame.split_nl]. case_decide as Hc.
  - rewrite IH. destruct (Frame.split_nl a) as [|x l] eqn:E; [done|].
    done.
  - rewrite IH. destruct (Frame.split_nl a) as [|x [|y l]] eqn:E; [done| |].
    + cbn. rewrite append_cons. cbn. by case_decide.
    + cbn. done.
Qed.

Lemma split_nl_segments s :
  Forall (fun seg => ~ Frame.has_newline seg) (Frame.split_nl s).
Proof.
  unfold Frame.has_newline.
  induction s as [|c s IH]; cbn.
  - constructor; [|constructor]. cbn. tauto.
  - case_decide as Hc.
    + constructor; [cbn; tauto | done].
    + destruct (Frame.split_nl s) as [|x l]; cbn.
      * constructor; [|constructor]. cbn. intros [?|[]]. congruence.
      * inversion IH; subst. constructor; [|done].
        cbn. intros [?|?]; [congruence | done].
Qed.

Lemma split_nl_no_newline s :
  ~ Frame.has_newline s -> Frame.split_nl s = [s].
Proof.
  unfold Frame.has_newline.
  induction s as [|c s IH]; cbn; [done|].
  intros H. case_decide as Hc; [subst; tauto|].
  rewrite IH; [done | tauto].
Qed.

Lemma pop_or_empty_no_newline s :
  ~ Frame.has_newline (Frame.pop_or_empty (Frame.split_nl s)).
Proof.
  unfold Frame.pop_or_empty.
  pose proof (split_nl_segments s) as H.
  induction H as [|x l Hx Hl IH]; cbn.
  - unfold Frame.has_newline. cbn. tauto.
  - destruct l; [done | exact IH].
Qed.

Lemma List_last_app {A} (l1 l2 : list A) (d : A) :
  l2 <> [] -> List.last (l1 ++ l2) d = List.last l2 d.
Proof.
  intros Hne. induction l1 as [|x l1 IH]; [done|].
  cbn [app List.last]. destruct (l1 ++ l2) eqn:E; [|exact IH].
  apply app_eq_nil in E as [_ ?]. done.
Qed.

Lemma popped_split_app a b :
  Frame.popped (Frame.split_nl (a +:+ b)) =
  Frame.popped (Frame.split_nl a) ++
  Frame.popped (Frame.split_nl (Frame.pop_or_empty (Frame.split_nl a) +:+ b)).
Proof.
  rewrite split_nl_app at 1. unfold Frame.popped.
  apply removelast_app, split_nl_nonempty.
Qed.

Lemma pop_split_app a b :
  Frame.pop_or_empty (Frame.split_nl (a +:+ b)) =
  Frame.pop_or_empty
    (Frame.split_nl (Frame.pop_or_empty (Frame.split_nl a) +:+ b)).
Proof.
  rewrite split_nl_app at 1. unfold Frame.pop_or_empty at 1.
  apply List_last_app, split_nl_nonempty.
Qed.

(** ** Chunking of the inbound stream *)

Lemma set_messageBuffer_id c : set_messageBuffer (messageBuffer c) c = c.
Proof. by destruct c. Qed.

Lemma messageBuffer_set s c : messageBuffer (set_messageBuffer s c) = s.
Proof. done. Qed.

Lemma set_messageBuffer_twice s s' c :
  set_messageBuffer s (set_messageBuffer s' c) = set_messageBuffer s c.
Proof. done. Qed.

Section Loop.

(** A loop over the complete lines of one chunk. *)
Variable loop : MCPClient -> list string -> MCPClient * list Effect.

Hypothesis loop_nil : forall c, loop c [] = (c, []).
Hypothesis loop_app : forall c l1 l2,
  loop c (l1 ++ l2) =
  let '(c1, e1) := loop c l1 in
  let '(c2, e2) := loop c1 l2 in (c2, e1 ++ e2).
Hypothesis loop_buffer : forall s c l,
  loop (set_messageBuffer s c) l =
  let '(c', e) := loop c l in (set_messageBuffer s c', e).

Lemma loop_messageBuffer c l : messageBuffer (fst (loop c l)) = messageBuffer c.
Proof.
  pose proof (loop_buffer (messageBuffer c) c l) as H.
  rewrite set_messageBuffer_id in H.
  destruct (loop c l) as [c' e]. cbn. injection H as H. by rewrite H.
Qed.

(** Feeding chunks is one pass of the loop over the complete lines of
    the whole text, and leaves its unfinished line in the buffer. *)
Lemma feed_listen c chunks :
  ~ Frame.has_newline (messageBuffer c) ->
  feed (listen loop) c chunks =
  let lines := Frame.split_nl (messageBuffer c +:+ text_of chunks) in
  let '(c', e) := loop c (Frame.popped lines) in
  (set_messageBuffer (Frame.pop_or_empty lines) c', e).
Proof.
  revert c. induction chunks as [|d rest IH]; intros c Hb.
  - cbn. rewrite string_app_nil_r, (split_nl_no_newline _ Hb).
    cbn. rewrite loop_nil. by rewrite set_messageBuffer_id.
  - cbn [feed]. unfold listen at 1. cbv zeta.
    rewrite messageBuffer_set, set_messageBuffer_twice, loop_buffer.
    set (b1 := messageBuffer c +:+ Buffer_toString d).
    destruct (loop c (Frame.popped (Frame.split_nl b1))) as [c1 e1] eqn:E1.
    rewrite IH; rewrite messageBuffer_set; [|apply pop_or_empty_no_newline].
    cbv zeta. rewrite loop_buffer.
    destruct (loop c1 _) as [c2 e2] eqn:E2.
    rewrite set_messageBuffer_twice.
    change (text_of (d :: rest)) with (Buffer_toString d +:+ text_of rest).
    rewrite <- string_app_assoc. fold b1.
    rewrite (popped_split_app b1), (pop_split_app b1), loop_app, E1, E2. done.
Qed.

Lemma feed_listen_text c cs1 cs2 :
  ~ Frame.has_newline (messageBuffer c) ->
  text_of cs1 = text_of cs2 ->
  feed (listen loop) c cs1 = feed (listen loop) c cs2.
Proof. intros Hb Ht. rewrite !feed_listen by done. by rewrite Ht. Qed.

End Loop.

Lemma dispatch_buffer handle s c text :
  buffer_agnostic handle ->
  dispatch handle (set_messageBuffer s c) text =
  let '(c', e) := dispatch handle c text in (set_messageBuffer s c', e).
Proof.
  intros Ha. unfold dispatch. destruct (JSON_parse text) as [m|]; [|done].
  rewrite Ha. by destruct (handle c m) as [[c' e]|].
Qed.

Lemma processLines_app handle c l1 l2 :
  processLines handle c (l1 ++ l2) =
  let '(c1, e1) := processLines handle c l1 in
  let '(c2, e2) := processLines handle c1 l2 in (c2, e1 ++ e2).
Proof.
  revert c. induction l1 as [|x l1 IH]; intros c; cbn.
  - by destruct (processLines handle c l2).
  - case_decide; [apply IH|].
    destruct (dispatch handle c _) as [c1 e1]. rewrite IH.
    destruct (processLines handle c1 l1) as [c2 e2].
    destruct (processLines handle c2 l2) as [c3 e3].
    by rewrite app_assoc.
Qed.

Lemma processLines_buffer handle s c l :
  buffer_agnostic handle ->
  processLines handle (set_messageBuffer s c) l =
  let '(c', e) := processLines handle c l in (set_messageBuffer s c', e).
Proof.
  intros Ha. revert c. induction l as [|x l IH]; intros c; cbn; [done|].
  case_decide; [apply IH|].
  rewrite dispatch_buffer by done.
  destruct (dispatch handle c _) as [c1 e1]. rewrite IH.
  by destruct (processLines handle c1 l).
Qed.

Lemma handleLines_app handle c l1 l2 :
  handleLines handle c (l1 ++ l2) =
  let '(c1, e1) := handleLines handle c l1 in
  let '(c2, e2) := handleLines handle c1 l2 in (c2, e1 ++ e2).
Proof.
  revert c. induction l1 as [|x l1 IH]; intros c; cbn.
  - by destruct (handleLines handle c l2).
  - destruct (dispatch handle c _) as [c1 e1]. rewrite IH.
    destruct (handleLines handle c1 l1) as [c2 e2].
    destruct (handleLines handle c2 l2) as [c3 e3].
    by rewrite app_assoc.
Qed.

Lemma handleLines_buffer handle s c l :
  buffer_agnostic handle ->
  handleLines handle (set_messageBuffer s c) l =
  let '(c', e) := handleLines handle c l in (set_messageBuffer s c', e).
Proof.
  intros Ha. revert c. induction l as [|x l IH]; intros c; cbn; [done|].
  rewrite dispatch_buffer by done.
  destruct (dispatch handle c _) as [c1 e1]. rewrite IH.
  by destruct (handleLines handle c1 l).
Qed.

Lemma on_stdout_data_with_listen handle :
  on_stdout_data_with handle = listen (processLines handle).
Proof. done. Qed.

Lemma setupProcessHandlers_data_listen handle :
  setupProcessHandlers_data handle =
  listen (fun c lines => handleLines handle c (List.filter nonblank lines)).
Proof. done. Qed.


Lemma handleMCPResponse_agnostic : buffer_agnostic handleMCPResponse.
Proof.
  intros c m s. unfold handleMCPResponse.
  destruct m as [| | | | |fields]; try done.
  destruct (Json.prop "id" _) as [[| |id| | |]|]; try done.
  cbn [pendingRequests set_messageBuffer].
  destruct (negb _ && bool_decide _); [|done].
  by destruct (Json.truthy _).
Qed.

Lemma handleResponse_agnostic : buffer_agnostic handleResponse.
Proof.
  intros c m s. unfold handleResponse.
  destruct m as [| | | | |fields]; try done.
  destruct (Json.prop "id" _) as [[| |id| | |]|]; try done.
  cbn [pendingRequests set_messageBuffer].
  destruct (pendingRequests c !! id); [|done].
  by destruct (Json.truthy _).
Qed.

Lemma filter_handleLines_app handle c l1 l2 :
  handleLines handle c (List.filter nonblank (l1 ++ l2)) =
  let '(c1, e1) := handleLines handle c (List.filter nonblank l1) in
  let '(c2, e2) := handleLines handle c1 (List.filter nonblank l2) in
  (c2, e1 ++ e2).
Proof. rewrite List.filter_app. apply handleLines_app. Qed.

(** After any chunk the buffer of either listener is the unfinished
    line of what it held followed by the chunk; it holds no newline, as
    the buffer of a new client does not. *)
Lemma listener_of_buffer i c data :
  messageBuffer (fst (listener_of i c data)) =
  Frame.pop_or_empty
    (Frame.split_nl (messageBuffer c +:+ Buffer_toString data)).
Proof.
  destruct i; cbn [listener_of].
  - change on_stdout_data with (on_stdout_data_with handleMCPResponse).
    rewrite on_stdout_data_with_listen. unfold listen.
    rewrite loop_messageBuffer; [done|].
    intros; by apply processLines_buffer, handleMCPResponse_agnostic.
  - unfold modular_listener. rewrite setupProcessHandlers_data_listen.
    unfold listen. rewrite loop_messageBuffer; [done|].
    intros; by apply handleLines_buffer, handleResponse_agnostic.
Qed.

Lemma listener_of_no_newline i c data :
  ~ Frame.has_newline (messageBuffer (fst (listener_of i c data))).
Proof. rewrite listener_of_buffer. apply pop_or_empty_no_newline. Qed.

Lemma new_client_no_newline cfg p :
  ~ Frame.has_newline (messageBuffer (new_client cfg p)).
Proof. intros []. Qed.


(** ** Wire format of requests *)

Lemma last_char_app_single (a : string) (c : ascii) :
  last_char (a +:+ String c "") = Some c.
Proof.
  induction a as [|x a IH]; [done|].
  rewrite append_cons. cbn [last_char]. rewrite IH.
  destruct a; done.
Qed.

Lemma last_char_stringify_request id method params :
  last_char (Json.stringify (request id method params)) = Some "}"%char.
Proof.
  unfold request. cbn [Json.stringify].
  rewrite <- string_app_assoc. apply last_char_app_single.
Qed.

(** C4. [sendMCPRequest] writes the serialised request object followed
    by a newline whenever the process is attached.  [sendRequest], which
    the modular orchestrator uses for its health-check pings and its
    tools/list requests, writes the serialised object with nothing
    after it: its payload ends with the closing brace of the object,
    not with a newline. *)
Theorem sendRequest_writes_no_newline (c : MCPClient) (p : ChildProcess)
    (method : string) (params : Json.value) :
  let id := requestId c + 1 in
  let text := Json.stringify (request id method params) in
  let attached := set_process (Some p) c in
  snd (fst (sendMCPRequest attached method params)) =
    [SetTimeout id (timeoutMs c); StdinWrite (text +:+ nl)] /\
  last_char (text +:+ nl) = Some Frame.newline /\
  snd (fst (sendRequest attached method params)) =
    [SetTimeout id (timeoutMs c); StdinWrite text] /\
  last_char text = Some "}"%char /\
  last_char text <> Some Frame.newline.
Proof.
  cbv zeta. split; [done|]. split; [apply last_char_app_single|].
  split; [|split].
  - unfold sendRequest. cbn [process set_process requestId fst snd].
    by rewrite string_app_nil_r.
  - apply last_char_stringify_request.
  - rewrite last_char_stringify_request. intros [=].
Qed.

(** ** Request ids *)

Lemma ids_ok_quiet c c' e :
  requestId c' = requestId c -> issued_ids e = [] -> ids_ok c c' e.
Proof.
  intros Hr He. split; [lia|]. rewrite He, Hr, Z.sub_diag. done.
Qed.

Lemma ids_ok_trans c c1 c2 e1 e2 :
  ids_ok c c1 e1 -> ids_ok c1 c2 e2 -> ids_ok c c2 (e1 ++ e2).
Proof.
  intros [H1 E1] [H2 E2]. split; [lia|].
  unfold issued_ids in *. rewrite omap_app, E1, E2.
  replace (requestId c2 - requestId c)
    with ((requestId c1 - requestId c) + (requestId c2 - requestId c1)) by lia.
  rewrite seqZ_app by lia. do 2 f_equal. lia.
Qed.

Lemma handler_of_quiet i c m c' e :
  handler_of i c m = Some (c', e) ->
  requestId c' = requestId c /\ issued_ids e = [].
Proof.
  destruct i; cbn [handler_of].
  - unfold handleMCPResponse.
    destruct m as [| | | | |fields]; try (intros [= <- <-]; done).
    destruct (Json.prop "id" _) as [[| |id| | |]|];
      try (intros [= <- <-]; done).
    destruct (negb _ && bool_decide _); [|intros [= <- <-]; done].
    destruct (Json.truthy _); intros [= <- <-]; done.
  - unfold handleResponse.
    destruct m as [| | | | |fields]; try (intros [= <- <-]; done).
    destruct (Json.prop "id" _) as [[| |id| | |]|];
      try (intros [= <- <-]; done).
    destruct (pendingRequests c !! id); [|intros [= <- <-]; done].
    destruct (Json.truthy _); intros [= <- <-]; done.
Qed.

Lemma dispatch_ids i c text :
  ids_ok c (fst (dispatch (handler_of i) c text))
         (snd (dispatch (handler_of i) c text)).
Proof.
  unfold dispatch. destruct (JSON_parse text) as [m|]; [|by apply ids_ok_quiet].
  destruct (handler_of i c m) as [[c' e]|] eqn:E; [|by apply ids_ok_quiet].
  apply handler_of_quiet in E as [? ?]. by apply ids_ok_quiet.
Qed.

Lemma processLines_ids i c lines :
  ids_ok c (fst (processLines (handler_of i) c lines))
         (snd (processLines (handler_of i) c lines)).
Proof.
  revert c. induction lines as [|l lines IH]; intros c; cbn.
  - by apply ids_ok_quiet.
  - case_decide; [apply IH|].
    pose proof (dispatch_ids i c (Frame.trim l)) as H1.
    destruct (dispatch _ c _) as [c1 e1]. specialize (IH c1).
    destruct (processLines _ c1 lines) as [c2 e2].
    exact (ids_ok_trans _ _ _ _ _ H1 IH).
Qed.

Lemma handleLines_ids i c lines :
  ids_ok c (fst (handleLines (handler_of i) c lines))
         (snd (handleLines (handler_of i) c lines)).
Proof.
  revert c. induction lines as [|l lines IH]; intros c; cbn.
  - by apply ids_ok_quiet.
  - pose proof (dispatch_ids i c l) as H1.
    destruct (dispatch _ c _) as [c1 e1]. specialize (IH c1).
    destruct (handleLines _ c1 lines) as [c2 e2].
    exact (ids_ok_trans _ _ _ _ _ H1 IH).
Qed.

Lemma ids_ok_set_messageBuffer s c c' e :
  ids_ok (set_messageBuffer s c) c' e -> ids_ok c c' e.
Proof. done. Qed.

Lemma listener_of_ids i c data :
  ids_ok c (fst (listener_of i c data)) (snd (listener_of i c data)).
Proof.
  destruct i; cbn [listener_of].
  - unfold on_stdout_data, processMessages, processMessagesWith.
    apply ids_ok_set_messageBuffer with (s := messageBuffer c +:+ Buffer_toString data).
    eapply ids_ok_set_messageBuffer.
    apply (processLines_ids IndexOrchestrator).
  - unfold modular_listener, setupProcessHandlers_data.
    apply ids_ok_set_messageBuffer with (s := messageBuffer c +:+ Buffer_toString data).
    eapply ids_ok_set_messageBuffer.
    apply (handleLines_ids ModularOrchestrator).
Qed.

Lemma ids_ok_alloc c c' e :
  requestId c' = requestId c + 1 -> issued_ids e = [requestId c + 1] ->
  ids_ok c c' e.
Proof.
  intros Hr He. split; [lia|]. rewrite He, Hr.
  replace (requestId c + 1 - requestId c) with 1 by lia. done.
Qed.

Lemma step_ids i c ev :
  ids_ok c (fst (step (listener_of i) c ev)) (snd (step (listener_of i) c ev)).
Proof.
  destruct ev as [method params|method params|data|id|sender id err| |];
    cbn [step].
  - unfold sendMCPRequest. destruct (process c).
    + by apply ids_ok_alloc.
    + by apply ids_ok_quiet.
  - unfold sendRequest. apply ids_ok_alloc; [done|].
    cbn. by destruct (process c).
  - apply listener_of_ids.
  - unfold timer_fired. destruct (pendingRequests c !! id); by apply ids_ok_quiet.
  - destruct sender; by apply ids_ok_quiet.
  - by apply ids_ok_quiet.
  - by apply ids_ok_quiet.
Qed.

Lemma run_ids i c evs :
  ids_ok c (fst (run (listener_of i) c evs)) (snd (run (listener_of i) c evs)).
Proof.
  revert c. induction evs as [|ev evs IH]; intros c; cbn [run].
  - by apply ids_ok_quiet.
  - pose proof (step_ids i c ev) as H1.
    destruct (step _ c ev) as [c1 e1]. specialize (IH c1).
    destruct (run _ c1 evs) as [c2 e2].
    exact (ids_ok_trans _ _ _ _ _ H1 IH).
Qed.


(** ** Resolution of pending calls *)

Lemma settles_ok_same c c' e :
  pendingRequests c' = pendingRequests c -> requestId c' = requestId c ->
  settled_ids e = [] -> settles_ok c c' e.
Proof.
  intros Hp Hr He S (Hb & Hs & Hn). rewrite He, app_nil_r.
  unfold settled_inv, pending_below. rewrite Hp, Hr. done.
Qed.

Lemma settles_ok_one c c' e id :
  is_Some (pendingRequests c !! id) ->
  pendingRequests c' = delete id (pendingRequests c) ->
  requestId c' = requestId c ->
  settled_ids e = [id] -> settles_ok c c' e.
Proof.
  intros [pr Hid] Hp Hr He S (Hb & Hs & Hn). rewrite He.
  unfold settled_inv, pending_below. rewrite Hp, Hr.
  split; [|split].
  - intros id' pr' [_ H]%lookup_delete_Some. eauto.
  - intros id' [Hin| ->%list_elem_of_singleton]%elem_of_app.
    + destruct (Hs id' Hin) as [Hnone Hle]. split; [|done].
      apply lookup_delete_None. by right.
    + split; [apply lookup_delete_eq | eauto].
  - apply NoDup_app. split; [done|]. split; [|apply NoDup_singleton].
    intros x Hx ->%list_elem_of_singleton.
    destruct (Hs id Hx) as [Hnone _]. congruence.
Qed.

Lemma settles_ok_alloc c c' e pr :
  requestId c' = requestId c + 1 ->
  pendingRequests c' = <[requestId c + 1 := pr]> (pendingRequests c) ->
  settled_ids e = [] -> settles_ok c c' e.
Proof.
  intros Hr Hp He S (Hb & Hs & Hn). rewrite He, app_nil_r.
  unfold settled_inv, pending_below. rewrite Hp, Hr.
  split; [|split; [|done]].
  - intros id' pr' [[<- _]|[_ H]]%lookup_insert_Some; [lia|].
    apply Hb in H. lia.
  - intros id' Hin. destruct (Hs id' Hin) as [Hnone Hle].
    split; [|lia]. rewrite lookup_insert_ne by lia. done.
Qed.

Lemma settles_ok_trans c c1 c2 e1 e2 :
  settles_ok c c1 e1 -> settles_ok c1 c2 e2 -> settles_ok c c2 (e1 ++ e2).
Proof.
  intros H1 H2 S HS. unfold settled_ids. rewrite omap_app, app_assoc.
  apply H2, H1, HS.
Qed.

(** What either response handler does with a message: nothing, or the
    removal and single settlement of the pending call whose id the
    message carries. *)
Lemma handler_of_spec i c m c' e :
  handler_of i c m = Some (c', e) ->
  (c' = c /\ e = []) \/
  exists id out,
    Json.prop "id" m = Some (Json.Num id) /\
    is_Some (pendingRequests c !! id) /\
    c' = set_pendingRequests (delete id (pendingRequests c)) c /\
    e = [ClearTimeout id; out] /\
    ((exists r, out = Resolve id r) \/ (exists msg, out = Reject id msg)).
Proof.
  destruct i; cbn [handler_of].
  - unfold handleMCPResponse.
    destruct m as [| | | | |fields]; try (intros [= <- <-]; by left).
    destruct (Json.prop "id" _) as [[| |id| | |]|] eqn:Eid;
      try (intros [= <- <-]; by left).
    destruct (negb _ && bool_decide _) eqn:Eb; [|intros [= <- <-]; by left].
    apply andb_true_iff in Eb as [_ Hp%bool_decide_eq_true].
    destruct (Json.truthy _); intros [= <- <-]; right;
      eexists id, _; repeat split; eauto.
  - unfold handleResponse.
    destruct m as [| | | | |fields]; try (intros [= <- <-]; by left).
    destruct (Json.prop "id" _) as [[| |id| | |]|] eqn:Eid;
      try (intros [= <- <-]; by left).
    destruct (pendingRequests c !! id) eqn:Ep; [|intros [= <- <-]; by left].
    destruct (Json.truthy _); intros [= <- <-]; right;
      eexists id, _; repeat split; eauto.
Qed.

(** A message whose id has no pending call is discarded. *)
Lemma handler_of_unmatched i c m id :
  Json.prop "id" m = Some (Json.Num id) ->
  pendingRequests c !! id = None ->
  handler_of i c m = Some (c, []).
Proof.
  intros Hid Hp. destruct i; cbn [handler_of].
  - unfold handleMCPResponse. destruct m; try done. rewrite Hid, Hp.
    rewrite bool_decide_eq_false_2 by (intros [? [=]]).
    by rewrite andb_false_r.
  - unfold handleResponse. destruct m; try done. by rewrite Hid, Hp.
Qed.

Lemma handler_of_settles i c m c' e :
  handler_of i c m = Some (c', e) -> settles_ok c c' e.
Proof.
  intros [[-> ->]|(id & out & _ & Hp & -> & -> & Hout)]%handler_of_spec.
  - by apply settles_ok_same.
  - apply (settles_ok_one _ _ _ id); try done.
    destruct Hout as [[r ->]|[msg ->]]; done.
Qed.

Lemma dispatch_settles i c text :
  settles_ok c (fst (dispatch (handler_of i) c text))
             (snd (dispatch (handler_of i) c text)).
Proof.
  unfold dispatch.
  destruct (JSON_parse text) as [m|]; [|by apply settles_ok_same].
  destruct (handler_of i c m) as [[c' e]|] eqn:E; [|by apply settles_ok_same].
  by apply handler_of_settles in E.
Qed.

Lemma processLines_settles i c lines :
  settles_ok c (fst (processLines (handler_of i) c lines))
             (snd (processLines (handler_of i) c lines)).
Proof.
  revert c. induction lines as [|l lines IH]; intros c; cbn.
  - by apply settles_ok_same.
  - case_decide; [apply IH|].
    pose proof (dispatch_settles i c (Frame.trim l)) as H1.
    destruct (dispatch _ c _) as [c1 e1]. specialize (IH c1).
    destruct (processLines _ c1 lines) as [c2 e2].
    exact (settles_ok_trans _ _ _ _ _ H1 IH).
Qed.

Lemma handleLines_settles i c lines :
  settles_ok c (fst (handleLines (handler_of i) c lines))
             (snd (handleLines (handler_of i) c lines)).
Proof.
  revert c. induction lines as [|l lines IH]; intros c; cbn.
  - by apply settles_ok_same.
  - pose proof (dispatch_settles i c l) as H1.
    destruct (dispatch _ c _) as [c1 e1]. specialize (IH c1).
    destruct (handleLines _ c1 lines) as [c2 e2].
    exact (settles_ok_trans _ _ _ _ _ H1 IH).
Qed.

Lemma settles_ok_set_messageBuffer s c c' e :
  settles_ok (set_messageBuffer s c) c' e -> settles_ok c c' e.
Proof. done. Qed.

Lemma listener_of_settles i c data :
  settles_ok c (fst (listener_of i c data)) (snd (listener_of i c data)).
Proof.
  destruct i; cbn [listener_of].
  - unfold on_stdout_data, processMessages, processMessagesWith.
    apply settles_ok_set_messageBuffer
      with (s := messageBuffer c +:+ Buffer_toString data).
    eapply settles_ok_set_messageBuffer.
    apply (processLines_settles IndexOrchestrator).
  - unfold modular_listener, setupProcessHandlers_data.
    apply settles_ok_set_messageBuffer
      with (s := messageBuffer c +:+ Buffer_toString data).
    eapply settles_ok_set_messageBuffer.
    apply (handleLines_settles ModularOrchestrator).
Qed.

Lemma step_settles i c ev :
  is_write_error ev = false ->
  settles_ok c (fst (step (listener_of i) c ev))
             (snd (step (listener_of i) c ev)).
Proof.
  destruct ev as [method params|method params|data|id|sender id err| |];
    cbn [step is_write_error]; intros Hw; try done.
  - unfold sendMCPRequest. destruct (process c).
    + by eapply settles_ok_alloc.
    + by apply settles_ok_same.
  - unfold sendRequest. eapply settles_ok_alloc; [done|done|].
    cbn. by destruct (process c).
  - apply listener_of_settles.
  - unfold timer_fired. destruct (pendingRequests c !! id) eqn:E.
    + by apply (settles_ok_one _ _ _ id).
    + by apply settles_ok_same.
  - by apply settles_ok_same.
  - by apply settles_ok_same.
Qed.

Lemma run_settles i c evs :
  forallb (fun ev => negb (is_write_error ev)) evs = true ->
  settles_ok c (fst (run (listener_of i) c evs))
             (snd (run (listener_of i) c evs)).
Proof.
  revert c. induction evs as [|ev evs IH]; intros c; cbn [run forallb].
  - intros _. by apply settles_ok_same.
  - intros [Hev Hrest]%andb_true_iff. apply negb_true_iff in Hev.
    pose proof (step_settles i c ev Hev) as H1.
    destruct (step _ c ev) as [c1 e1]. specialize (IH c1 Hrest).
    destruct (run _ c1 evs) as [c2 e2].
    exact (settles_ok_trans _ _ _ _ _ H1 IH).
Qed.

(** The keys of a new client are below its counter, and stay so. *)
Lemma new_client_pending_below cfg p : pending_below (new_client cfg p).
Proof. intros id pr H. cbn in H. by rewrite lookup_empty in H. Qed.

Lemma run_pending_below i c evs :
  forallb (fun ev => negb (is_write_error ev)) evs = true ->
  pending_below c ->
  pending_below (fst (run (listener_of i) c evs)).
Proof.
  intros Hw Hb.
  destruct (run_settles i c evs Hw []) as [H _]; [|exact H].
  split; [done|]. split; [|constructor].
  intros id Hin. by apply not_elem_of_nil in Hin.
Qed.


(** ** Process exit and shutdown *)

(** C2 (as the code has it).  Neither the exit of the backend process
    nor [stop()] fails a pending call.  The [exit] listener clears
    [isReady] and [process] and asks for a reconnection; [stop()] clears
    the health-check interval and kills the processes.  Both leave the
    pending map as it was and call no [resolve] or [reject].  A call
    that is pending at that moment stays so until its own timer fires,
    which removes it and rejects it with the timeout message of its
    send function. *)
Theorem exit_and_stop_leave_pending_calls (c : MCPClient) (o : Orchestrator) :
  pendingRequests (fst (on_exit c)) = pendingRequests c /\
  snd (on_exit c) = [ScheduleReconnect] /\
  settled_ids (snd (on_exit c)) = [] /\
  isReady (fst (on_exit c)) = false /\
  process (fst (on_exit c)) = None /\
  fst (stop o) = o /\
  (forall id pr, pendingRequests c !! id = Some pr ->
     timer_fired (fst (on_exit c)) id =
       (set_pendingRequests (delete id (pendingRequests c)) (fst (on_exit c)),
        [Reject id (timeout_message c pr)])).
Proof.
  repeat split.
  intros id pr Hid. unfold timer_fired. cbn [on_exit fst pendingRequests
    set_process set_isReady]. by rewrite Hid.
Qed.

(** ** Handshake *)

(** C3 (what the code does).  After the result of [initialize] arrived
    on a newly built client, [initialized] is sent through
    [sendMCPRequest] like any request: it takes request id 2, is written
    with that id, is registered as pending with a timer, and the
    handshake is suspended on its promise.  The client is not ready at
    that point; it becomes ready only when that promise resolves, and
    when no reply comes the timer rejects the promise and the handshake
    fails.  The handshake of the modular orchestrator does the same for
    a truthy [initialize] result. *)
Theorem initialized_is_an_awaited_request (cfg : MCPConfig) (p : ChildProcess)
    (r : option Json.value) (fields : list (string * Json.value)) :
  let c1 := fst (fst (initializeMCPClient_begin (new_client cfg p))) in
  let h1 := snd (initializeMCPClient_begin (new_client cfg p)) in
  let entry := {| pr_method := "initialized"; pr_sender := BySendMCPRequest |} in
  let c2 := set_pendingRequests (<[2 := entry]> (pendingRequests c1))
              (set_requestId 2 c1) in
  let written :=
    [SetTimeout 2 (timeoutMs c1);
     StdinWrite (Json.stringify (request 2 "initialized" (Json.Obj [])) +:+ nl)] in
  h1 = AwaitInitialize (Awaiting 1) /\
  initializeMCPClient_resume c1 h1 (Resolved r) =
    (c2, written, AwaitInitialized (Awaiting 2)) /\
  initialize_resume c1 h1 (Resolved (Some (Json.Obj fields))) =
    (c2, written, AwaitInitialized (Awaiting 2)) /\
  pendingRequests c2 !! 2 = Some entry /\
  isReady c2 = false /\
  (forall r',
     initializeMCPClient_resume c2 (AwaitInitialized (Awaiting 2)) (Resolved r')
     = (set_isReady true c2, [], HandshakeOk)) /\
  timer_fired c2 2 =
    (set_pendingRequests (delete 2 (pendingRequests c2)) c2,
     [Reject 2 ("Timeout for initialized in " +:+ name cfg)]) /\
  (forall m,
     initializeMCPClient_resume c2 (AwaitInitialized (Awaiting 2)) (Rejected m)
     = (c2, [], HandshakeFailed m)).
Proof.
  cbv zeta. repeat split.
Qed.

(** ** Fan-out: steps whose connection is not available *)

(** C1 (as the code has it).  A step that names a connection which is
    not registered or not ready ends at once with status error and the
    message "MCP not available": the orchestrator is left as it was, no
    request id is taken, nothing is registered as pending and nothing is
    written to any process. *)
Theorem executeTask_unavailable (o : Orchestrator) (now : Z)
    (mcpName toolName : string) (params : Json.value) :
  available o mcpName = false ->
  exists r,
    executeTask_begin o now mcpName toolName params = (o, [], inl r) /\
    r = error_result mcpName toolName "MCP not available" 0 /\
    status r = StatusError /\
    error r = Some "MCP not available".
Proof.
  intros Ha. eexists. split; [|done].
  unfold executeTask_begin, available in *. rewrite Z.sub_diag.
  destruct (clients_get mcpName (mcpClients o)) as [client|]; [|done].
  by rewrite Ha.
Qed.

(** ** Reconnection backoff *)

Lemma scheduleReconnect_detached o c :
  process c = None ->
  scheduleReconnect o c =
  if decide (attempts_of o c < 5)%nat
  then Some {| rt_delay := reconnect_delay (attempts_of o c);
               rt_attempts := attempts_of o c |}
  else None.
Proof.
  intros Hp. unfold scheduleReconnect, maxReconnectAttempts. rewrite Hp.
  repeat case_decide; try done; lia.
Qed.

Lemma attempts_of_failed o c t :
  attempts_of (fst (reconnect_fired o c t None)) c = (rt_attempts t + 1)%nat.
Proof.
  unfold attempts_of. cbn. by rewrite lookup_insert_eq.
Qed.

Lemma reconnect_cycle_none o c outcomes :
  reconnect_cycle o c None outcomes = (o, []).
Proof. by destruct outcomes. Qed.

(** A run of failed attempts starting with [n] failures behind: the
    cycle arms the timers of attempts [n] to 4 and then stops. *)
Lemma reconnect_cycle_failures (d : nat) :
  forall (o : Orchestrator) (c : MCPClient) (k : nat),
    process c = None ->
    (attempts_of o c + d = 5)%nat ->
    let r := reconnect_cycle o c (scheduleReconnect o c)
               (repeat None (d + k)) in
    snd r = map reconnect_delay (seq (attempts_of o c) d) /\
    attempts_of (fst r) c = 5%nat /\
    mcpClients (fst r) = mcpClients o.
Proof.
  induction d as [|d IH]; intros o c k Hp Hn; cbv zeta.
  - rewrite scheduleReconnect_detached by done.
    case_decide; [lia|]. rewrite reconnect_cycle_none. cbn.
    split; [done|]. split; [lia|done].
  - rewrite scheduleReconnect_detached by done.
    case_decide; [|lia]. cbn [repeat Nat.add reconnect_cycle].
    pose proof (attempts_of_failed o c
      {| rt_delay := reconnect_delay (attempts_of o c);
         rt_attempts := attempts_of o c |}) as Ha.
    cbn [rt_attempts] in Ha.
    destruct (reconnect_fired o c _ None) as [o1 t1] eqn:E.
    assert (t1 = scheduleReconnect o1 c /\ mcpClients o1 = mcpClients o)
      as [-> Hm].
    { unfold reconnect_fired in E. by injection E as <- <-. }
    cbn [fst] in Ha.
    specialize (IH o1 c k Hp ltac:(lia)). cbv zeta in IH.
    destruct (reconnect_cycle o1 c _ _) as [o2 delays].
    cbn [fst snd rt_delay] in *. destruct IH as (-> & ? & ->).
    rewrite Ha. split; [|done]. cbn [seq map]. do 3 f_equal. lia.
Qed.


(** ** On-demand health check *)

(** C10 (as the code has it).  A health check asked for a non-empty
    name that no registered connection has returns an empty results
    array: no unhealthy entry is made for the name, the orchestrator is
    left as it was and no probe is sent to any connection. *)
Theorem checkHealth_unknown_name (env : Env) (o : Orchestrator) (now : Z)
    (mcp_name : string) :
  mcp_name <> "" ->
  clients_get mcp_name (mcpClients o) = None ->
  checkHealth env o now (Some mcp_name) = (o, [], []).
Proof.
  intros Hne Hget. unfold checkHealth, mcpsToCheck.
  rewrite bool_decide_eq_false_2 by done. by rewrite Hget.
Qed.

(** ** Fan-out: one result per step, in step order *)

Lemma executeTask_begin_aligned o now s :
  slot_aligned
    (snd (executeTask_begin o now (step_mcp s) (step_tool s) (step_params s))) s.
Proof.
  unfold executeTask_begin.
  destruct (clients_get _ _) as [client|]; [|done].
  destruct (isReady client); [|done].
  unfold sendMCPRequest. by destruct (process client).
Qed.

Lemma executeTask_end_aligned sus out t s :
  slot_aligned (inr sus) s -> aligned (executeTask_end sus out t) s.
Proof.
  intros [Hm Ht]. destruct out; unfold aligned; cbn; rewrite Hm, Ht; done.
Qed.

Lemma begin_all_aligned o now plan :
  Forall2 slot_aligned (snd (begin_all o now plan)) plan.
Proof.
  revert o. induction plan as [|s plan IH]; intros o; cbn; [constructor|].
  pose proof (executeTask_begin_aligned o now s) as H1.
  destruct (executeTask_begin o now _ _ _) as [[o1 e1] slot].
  specialize (IH o1). destruct (begin_all o1 now plan) as [[o2 e2] slots].
  by constructor.
Qed.

Lemma promise_all_aligned values rs (plan : list ExecutionStep) :
  Forall2 value_aligned values plan ->
  promise_all values = Some rs ->
  Forall2 aligned rs plan.
Proof.
  intros Hv Hrs%mapM_Some. revert rs Hrs.
  induction Hv as [|v s values' plan' Hvs _ IH]; intros rs Hrs.
  - inversion Hrs. constructor.
  - inversion Hrs as [|? r ? rs' Hr Hrest]; subst. cbn in Hr. subst v.
    constructor; [done | by apply IH].
Qed.

Section Settling.

Variable slots : list (ExecutionResult + Suspended).
Variable plan : list ExecutionStep.
Hypothesis slots_plan : Forall2 slot_aligned slots plan.

Lemma initial_values_aligned :
  Forall2 value_aligned (initial_values slots) plan.
Proof.
  unfold initial_values. apply Forall2_fmap_l.
  eapply Forall2_impl; [exact slots_plan|].
  intros [r|sus] s H; done.
Qed.

Lemma settle_aligned values st :
  Forall2 value_aligned values plan ->
  Forall2 value_aligned (settle slots values st) plan.
Proof.
  intros Hv. unfold settle.
  destruct (slots !! st_index st) as [[r|sus]|] eqn:Es; try done.
  destruct (values !! st_index st) as [[r|]|] eqn:Ev; try done.
  destruct (Forall2_lookup_l _ _ _ _ _ slots_plan Es) as (s & Hs & Ha).
  rewrite <- (list_insert_id plan (st_index st) s Hs).
  apply Forall2_insert; [done|]. by apply executeTask_end_aligned.
Qed.

Lemma foldl_settle_aligned schedule values :
  Forall2 value_aligned values plan ->
  Forall2 value_aligned (foldl (settle slots) values schedule) plan.
Proof.
  revert values. induction schedule as [|st schedule IH]; intros values Hv;
    cbn; [done|].
  by apply IH, settle_aligned.
Qed.

Lemma initial_values_inv : values_inv slots (initial_values slots).
Proof.
  unfold values_inv, initial_values, filled. split; [apply length_map|].
  intros k r Hk. exists r. by rewrite list_lookup_fmap, Hk.
Qed.

Lemma settle_length values st :
  List.length (settle slots values st) = List.length values.
Proof.
  unfold settle. destruct (slots !! _) as [[?|?]|]; try done.
  destruct (values !! _) as [[?|]|]; try done. apply length_insert.
Qed.

Lemma settle_filled_mono values st k :
  filled k values -> filled k (settle slots values st).
Proof.
  intros [r Hr]. exists r. unfold settle.
  destruct (slots !! _) as [[?|?]|]; try done.
  destruct (values !! st_index st) as [[?|]|] eqn:E; try done.
  rewrite list_lookup_insert_ne; [done|]. congruence.
Qed.

Lemma settle_inv values st :
  values_inv slots values -> values_inv slots (settle slots values st).
Proof.
  intros [Hl Hf]. split; [by rewrite settle_length|].
  intros k r Hk. by apply settle_filled_mono, (Hf k r).
Qed.

Lemma settle_fills values st :
  values_inv slots values -> (st_index st < List.length slots)%nat ->
  filled (st_index st) (settle slots values st).
Proof.
  intros [Hl Hf] Hlt. unfold settle.
  destruct (lookup_lt_is_Some_2 slots (st_index st) Hlt) as [slot Hs].
  rewrite Hs. destruct slot as [r|sus].
  - by apply (Hf _ r).
  - destruct (lookup_lt_is_Some_2 values (st_index st)) as [v Hv]; [lia|].
    rewrite Hv. destruct v as [r|].
    + by exists r.
    + eexists. apply list_lookup_insert_eq. lia.
Qed.

Lemma foldl_settle_fills schedule values k :
  values_inv slots values -> (k < List.length slots)%nat ->
  filled k values \/ k ∈ map st_index schedule ->
  filled k (foldl (settle slots) values schedule).
Proof.
  revert values. induction schedule as [|st schedule IH];
    intros values Hinv Hk Hor; cbn.
  - destruct Hor as [?|Hin]; [done|]. by apply not_elem_of_nil in Hin.
  - apply IH; [by apply settle_inv | done |].
    destruct Hor as [Hf|Hin]; [left; by apply settle_filled_mono|].
    cbn in Hin. apply elem_of_cons in Hin as [->|Hin]; [|by right].
    left. by apply settle_fills.
Qed.

Lemma foldl_settle_length schedule values :
  List.length (foldl (settle slots) values schedule) = List.length values.
Proof.
  revert values. induction schedule as [|st schedule IH]; intros values;
    cbn; [done|].
  by rewrite IH, settle_length.
Qed.

Lemma promise_all_is_Some values :
  (forall k, (k < List.length values)%nat -> filled k values) ->
  is_Some (promise_all values).
Proof.
  intros Hf. unfold promise_all. apply mapM_is_Some.
  apply Forall_lookup. intros k v Hv.
  destruct (Hf k) as [r Hr]; [by eapply lookup_lt_Some|].
  rewrite Hv in Hr. injection Hr as ->. by eexists.
Qed.

Lemma settle_comm values s1 s2 :
  st_index s1 <> st_index s2 ->
  settle slots (settle slots values s1) s2 =
  settle slots (settle slots values s2) s1.
Proof.
  intros Hne. unfold settle.
  destruct (slots !! st_index s1) as [[r1|sus1]|] eqn:E1;
    destruct (slots !! st_index s2) as [[r2|sus2]|] eqn:E2;
    destruct (values !! st_index s1) as [[v1|]|] eqn:V1;
    destruct (values !! st_index s2) as [[v2|]|] eqn:V2;
    rewrite ?E1, ?E2, ?V1, ?V2, ?list_lookup_insert_ne, ?E1, ?E2, ?V1, ?V2
      by done;
    try done.
  by apply list_insert_insert_ne.
Qed.

Lemma foldl_settle_permutation schedule1 schedule2 :
  schedule1 ≡ₚ schedule2 ->
  NoDup (map st_index schedule1) ->
  forall values,
    foldl (settle slots) values schedule1 =
    foldl (settle slots) values schedule2.
Proof.
  induction 1 as [|st l1 l2 Hp IH|s1 s2 l|l1 l2 l3 H12 IH12 H23 IH23];
    intros Hnd values; cbn.
  - done.
  - apply IH. by inversion Hnd.
  - f_equal. apply settle_comm.
    cbn in Hnd. apply NoDup_cons in Hnd as [Hnot _].
    intros Heq. apply Hnot. rewrite Heq. apply elem_of_cons. by left.
  - rewrite IH12 by done. apply IH23.
    eapply NoDup_Permutation_proper; [|exact Hnd].
    symmetry. by apply fmap_Permutation.
Qed.

End Settling.

Lemma execute_sequential_aligned env o now index plan :
  Forall2 aligned (snd (execute_sequential env o now index plan)) plan.
Proof.
  revert o now index.
  induction plan as [|s plan IH]; intros o now index; cbn; [constructor|].
  pose proof (executeTask_begin_aligned o now s) as H1.
  destruct (executeTask_begin o now _ _ _) as [[o1 e1] slot]. cbn in H1.
  destruct slot as [r|sus].
  - specialize (IH o1 now (S index)).
    destruct (execute_sequential env o1 now (S index) plan) as [[o3 tr] rs].
    by constructor.
  - destruct (env (sus_mcp sus) (sus_call sus)) as [outcome t].
    specialize (IH (forget_call (sus_mcp sus) (sus_call sus) o1) t (S index)).
    destruct (execute_sequential env _ t (S index) plan) as [[o3 tr] rs].
    constructor; [|done]. by apply executeTask_end_aligned.
Qed.

(** Anything issued for a step comes after the result of every earlier
    step was recorded. *)
Lemma execute_sequential_order env o now index plan :
  let trace := snd (fst (execute_sequential env o now index plan)) in
  forall (a j : nat) (mcpName : string) (e : Effect),
    trace !! a = Some (Issued j mcpName e) ->
    (index <= j)%nat /\
    forall k, (index <= k < j)%nat ->
      exists b r, (b < a)%nat /\ trace !! b = Some (Recorded k r).
Proof.
  revert o now index.
  induction plan as [|s plan IH]; intros o now index; cbn.
  - intros a j mcpName e Ha. by rewrite lookup_nil in Ha.
  - destruct (executeTask_begin o now _ _ _) as [[o1 e1] slot].
    set (next := match slot with
                 | inl r => (o1, now, r)
                 | inr sus =>
                     let '(outcome, t) := env (sus_mcp sus) (sus_call sus) in
                     (forget_call (sus_mcp sus) (sus_call sus) o1, t,
                      executeTask_end sus outcome t)
                 end).
    destruct next as [[o2 now2] r].
    specialize (IH o2 now2 (S index)). cbn in IH.
    destruct (execute_sequential env o2 now2 (S index) plan) as [[o3 tr] rs].
    cbn [fst snd] in *.
    intros a j mcpName e Ha.
    apply lookup_app_Some in Ha as [Ha|[Hge Ha]].
    + rewrite list_lookup_fmap in Ha.
      destruct (e1 !! a); [|done]. injection Ha as <- _ _.
      split; [lia|]. intros k Hk. lia.
    + rewrite length_map in Hge, Ha.
      destruct (a - List.length e1)%nat as [|a'] eqn:Ea; [done|].
      cbn in Ha. destruct (IH a' j mcpName e Ha) as [Hj Hrec].
      split; [lia|]. intros k Hk.
      destruct (decide (k = index)) as [->|Hne].
      * exists (List.length e1), r. split; [lia|].
        rewrite lookup_app_r by (rewrite length_map; lia).
        rewrite length_map, Nat.sub_diag. done.
      * destruct (Hrec k ltac:(lia)) as (b & r' & Hb & Hr').
        exists (List.length e1 + S b)%nat, r'. split; [lia|].
        rewrite lookup_app_r by (rewrite length_map; lia).
        rewrite length_map.
        replace (List.length e1 + S b - List.length e1)%nat with (S b) by lia.
        done.
Qed.


End Properties.

(** * Further properties of the code *)

(** ** Newlines in serialised JSON *)

Lemma has_newline_app a b :
  Frame.has_newline (a +:+ b) <-> Frame.has_newline a \/ Frame.has_newline b.
Proof.
  unfold Frame.has_newline. induction a as [|c a IH].
  - cbn. tauto.
  - rewrite append_cons. cbn. rewrite IH. tauto.
Qed.

Lemma has_newline_cons c s :
  Frame.has_newline (String c s) <-> c = Frame.newline \/ Frame.has_newline s.
Proof. unfold Frame.has_newline. cbn. split; intros [?|?]; auto. Qed.

Lemma has_newline_nil : ~ Frame.has_newline "".
Proof. intros []. Qed.

Lemma escape_char_no_newline c : ~ Frame.has_newline (Json.escape_char c).
Proof.
  destruct c as [[] [] [] [] [] [] [] []]; vm_compute;
    intros H; repeat (destruct H as [H|H]; [discriminate H|]); exact H.
Qed.

Lemma escape_no_newline s : ~ Frame.has_newline (Json.escape s).
Proof.
  induction s as [|c s IH]; cbn [Json.escape].
  - apply has_newline_nil.
  - rewrite has_newline_app. intros [H|H]; [|done].
    by apply escape_char_no_newline in H.
Qed.

Lemma quote_no_newline s : ~ Frame.has_newline (Json.quote s).
Proof.
  unfold Json.quote. rewrite append_cons, has_newline_cons, has_newline_app.
  intros [H|[H|H]].
  - discriminate H.
  - by apply escape_no_newline in H.
  - apply has_newline_cons in H as [H|H]; [discriminate H | by destruct H].
Qed.

Lemma pretty_N_char_no_newline x : pretty_N_char x <> Frame.newline.
Proof. unfold pretty_N_char. by repeat case_match. Qed.

Lemma pretty_N_go_no_newline x s :
  ~ Frame.has_newline s -> ~ Frame.has_newline (pretty_N_go x s).
Proof.
  revert s. induction (N.lt_wf_0 x) as [x _ IH]; intros s Hs.
  assert (x = 0 \/ 0 < x)%N as [->|Hx] by lia.
  - by rewrite pretty_N_go_0.
  - rewrite pretty_N_go_step by done. apply IH.
    { by apply N.div_lt. }
    rewrite has_newline_cons. intros [Hc|Hc]; [|done].
    by apply pretty_N_char_no_newline in Hc.
Qed.

Lemma pretty_N_no_newline (x : N) : ~ Frame.has_newline (pretty x).
Proof.
  unfold pretty, pretty_N. case_decide as Hd.
  - intros [H|[]]. discriminate H.
  - apply pretty_N_go_no_newline, has_newline_nil.
Qed.

Lemma pretty_Z_no_newline (n : Z) : ~ Frame.has_newline (pretty n).
Proof.
  destruct n as [|p|p]; unfold pretty, pretty_Z.
  - intros [H|[]]. discriminate H.
  - apply (pretty_N_no_newline (Npos p)).
  - rewrite has_newline_app. intros [[H|[]]|H]; [discriminate H|].
    by apply (pretty_N_no_newline (Npos p)) in H.
Qed.

Lemma join_no_newline sep parts :
  ~ Frame.has_newline sep ->
  Forall (fun p => ~ Frame.has_newline p) parts ->
  ~ Frame.has_newline (Json.join sep parts).
Proof.
  intros Hsep. induction 1 as [|p parts Hp Hparts IH].
  - apply has_newline_nil.
  - destruct parts as [|q parts]; [done|].
    change (Json.join sep (p :: q :: parts))
      with (p +:+ sep +:+ Json.join sep (q :: parts)).
    rewrite !has_newline_app. tauto.
Qed.

Lemma literal_no_newline_comma : ~ Frame.has_newline ",".
Proof. intros [H|[]]. discriminate H. Qed.

Lemma stringify_no_newline : forall v, ~ Frame.has_newline (Json.stringify v).
Proof.
  fix IH 1. intros [|[]|n|s|items|fields]; cbn [Json.stringify].
  - vm_compute. intros H; repeat (destruct H as [H|H]; [discriminate H|]); exact H.
  - vm_compute. intros H; repeat (destruct H as [H|H]; [discriminate H|]); exact H.
  - vm_compute. intros H; repeat (destruct H as [H|H]; [discriminate H|]); exact H.
  - apply pretty_Z_no_newline.
  - apply quote_no_newline.
  - rewrite !has_newline_app.
    assert (Forall (fun p => ~ Frame.has_newline p) (map Json.stringify items)).
    { induction items as [|x items IHi]; cbn; constructor; [apply IH | exact IHi]. }
    intros [[H0|[]]|[H0|[H0|[]]]]; try discriminate H0.
    revert H0. by apply join_no_newline; [apply literal_no_newline_comma|].
  - rewrite !has_newline_app.
    assert (Forall (fun p => ~ Frame.has_newline p)
              (map (fun kv : string * Json.value =>
                      Json.quote (fst kv) +:+ ":" +:+ Json.stringify (snd kv))
                   fields)).
    { induction fields as [|[k x] fields IHf]; cbn; constructor; [|exact IHf].
      rewrite !has_newline_app. intros [H0|[[H0|[]]|H0]].
      - by apply quote_no_newline in H0.
      - discriminate H0.
      - by apply IH in H0. }
    intros [[H0|[]]|[H0|[H0|[]]]]; try discriminate H0.
    revert H0. by apply join_no_newline; [apply literal_no_newline_comma|].
Qed.

(** ** Requests on the wire are single frames *)

Lemma split_nl_terminated s :
  ~ Frame.has_newline s -> Frame.split_nl (s +:+ nl) = [s; ""].
Proof.
  unfold nl. induction s as [|c s IH]; intros Hs.
  - reflexivity.
  - rewrite append_cons. cbn [Frame.split_nl].
    rewrite has_newline_cons in Hs.
    case_decide as Hc; [tauto|]. rewrite IH by tauto. done.
Qed.

Lemma trim_end_app_single a c :
  Frame.is_space c = false ->
  Frame.trim_end (a +:+ String c "") = a +:+ String c "".
Proof.
  intros Hc. induction a as [|x a IH].
  - rewrite append_nil_l. cbn [Frame.trim_end]. by rewrite Hc.
  - rewrite append_cons. cbn [Frame.trim_end]. rewrite IH.
    destruct a; done.
Qed.

Lemma trim_braced a :
  Frame.trim ("{" +:+ a +:+ "}") = "{" +:+ a +:+ "}".
Proof.
  unfold Frame.trim. rewrite append_cons, append_nil_l.
  cbn [Frame.trim_start]. change (Frame.is_space "{") with false. cbv iota.
  change (String "{" (a +:+ "}")) with ((String "{" a) +:+ String "}" "").
  by apply trim_end_app_single.
Qed.

(** The text of a serialised request object is its own trimmed text. *)
Lemma trim_stringify_request id method params :
  Frame.trim (Json.stringify (request id method params)) =
  Json.stringify (request id method params).
Proof. unfold request. cbn [Json.stringify]. apply trim_braced. Qed.

Section OneFrame.

Context `{platform : Platform}.

(** X1. what [sendMCPRequest] writes is one frame.  The serialised request
    holds no newline, so the written payload splits into that text and
    an empty remainder; a listener, of either kind, with an empty buffer
    that receives the payload as one chunk does exactly what handing the
    serialised request to the parser once does. *)
Theorem written_request_is_one_frame (c : MCPClient) (id : Z)
    (method : string) (params : Json.value) (handle : Handler)
    (data : Buffer) :
  let text := Json.stringify (request id method params) in
  messageBuffer c = "" ->
  Buffer_toString data = text +:+ nl ->
  ~ Frame.has_newline text /\
  Frame.split_nl (text +:+ nl) = [text; ""] /\
  on_stdout_data_with handle c data = dispatch handle c text /\
  setupProcessHandlers_data handle c data = dispatch handle c text.
Proof.
  cbv zeta. intros Hb Hd.
  pose proof (stringify_no_newline (request id method params)) as Hn.
  pose proof (split_nl_terminated _ Hn) as Hs.
  split; [done|]. split; [done|].
  assert (Hc : set_messageBuffer "" c = c) by (by rewrite <- Hb, set_messageBuffer_id).
  split.
  - unfold on_stdout_data_with, processMessagesWith.
    cbn [messageBuffer set_messageBuffer]. rewrite Hb, Hd, append_nil_l, Hs.
    cbn [Frame.popped Frame.pop_or_empty removelast List.last processLines].
    rewrite trim_stringify_request.
    case_decide as He.
    { exfalso. unfold request in He. cbn [Json.stringify] in He.
      rewrite append_cons in He. discriminate He. }
    change (set_messageBuffer "" (set_messageBuffer _ c))
      with (set_messageBuffer "" c).
    rewrite Hc. destruct (dispatch handle c _) as [c1 e1].
    by rewrite app_nil_r.
  - unfold setupProcessHandlers_data.
    cbn [messageBuffer set_messageBuffer]. rewrite Hb, Hd, append_nil_l, Hs.
    cbn [Frame.popped Frame.pop_or_empty removelast List.last List.filter].
    unfold nonblank. rewrite trim_stringify_request.
    rewrite bool_decide_eq_false_2.
    2:{ unfold request. cbn [Json.stringify]. rewrite append_cons.
        discriminate. }
    cbn [negb handleLines].
    change (set_messageBuffer "" (set_messageBuffer _ c))
      with (set_messageBuffer "" c).
    rewrite Hc. destruct (dispatch handle c _) as [c1 e1].
    by rewrite app_nil_r.
Qed.

End OneFrame.

(** ** Trimming *)

Lemma trim_start_all_space s : Text.all_space s = true -> Frame.trim_start s = "".
Proof.
  induction s as [|c s IH]; [done|]. cbn [Text.all_space Frame.trim_start].
  intros [Hc Hs]%andb_true_iff. rewrite Hc. by apply IH.
Qed.

Lemma trim_start_app a b :
  Frame.trim_start (a +:+ b) =
  if Text.all_space a then Frame.trim_start b else Frame.trim_start a +:+ b.
Proof.
  induction a as [|c a IH]; [done|].
  rewrite append_cons. cbn [Frame.trim_start Text.all_space].
  destruct (Frame.is_space c); [exact IH | done].
Qed.

Lemma trim_end_all_space s : Text.all_space s = true -> Frame.trim_end s = "".
Proof.
  induction s as [|c s IH]; [done|]. cbn [Text.all_space Frame.trim_end].
  intros [Hc Hs]%andb_true_iff. rewrite IH by done. by rewrite Hc.
Qed.

Lemma trim_end_app_spaces a ws :
  Text.all_space ws = true -> Frame.trim_end (a +:+ ws) = Frame.trim_end a.
Proof.
  intros Hws. induction a as [|c a IH].
  - rewrite append_nil_l. by apply trim_end_all_space.
  - rewrite append_cons. cbn [Frame.trim_end]. by rewrite IH.
Qed.

(** A text padded with white space on both sides trims to what the text
    alone trims to. *)
Lemma trim_ignores_padding (ws1 s ws2 : string) :
  Text.all_space ws1 = true -> Text.all_space ws2 = true ->
  Frame.trim (ws1 +:+ s +:+ ws2) = Frame.trim s.
Proof.
  intros H1 H2. unfold Frame.trim.
  rewrite trim_start_app, H1, trim_start_app.
  destruct (Text.all_space s) eqn:Hs.
  - rewrite (trim_start_all_space ws2 H2), (trim_start_all_space s Hs). done.
  - by apply trim_end_app_spaces.
Qed.

Lemma trim_start_padding s :
  exists ws, Text.all_space ws = true /\ s = ws +:+ Frame.trim_start s.
Proof.
  induction s as [|c s (ws & Hws & IH)]; [by exists ""|].
  cbn [Frame.trim_start]. destruct (Frame.is_space c) eqn:Hc.
  - exists (String c ws). split; [cbn; by rewrite Hc|].
    by rewrite append_cons, <- IH.
  - by exists "".
Qed.

Lemma trim_end_padding s :
  exists ws, Text.all_space ws = true /\ s = Frame.trim_end s +:+ ws.
Proof.
  induction s as [|c s (ws & Hws & IH)]; [by exists ""|].
  cbn [Frame.trim_end]. destruct (Frame.trim_end s) as [|d t] eqn:Ht.
  - rewrite append_nil_l in IH. subst ws.
    destruct (Frame.is_space c) eqn:Hc.
    + exists (String c s). split; [cbn; by rewrite Hc|done].
    + exists s. split; [done|]. by rewrite append_cons, append_nil_l.
  - exists ws. split; [done|]. by rewrite append_cons, <- IH.
Qed.

(** A text is its trimmed part between two runs of white space. *)
Lemma trim_padding s :
  exists ws1 ws2,
    Text.all_space ws1 = true /\ Text.all_space ws2 = true /\
    s = ws1 +:+ Frame.trim s +:+ ws2.
Proof.
  destruct (trim_start_padding s) as (ws1 & H1 & Hs).
  destruct (trim_end_padding (Frame.trim_start s)) as (ws2 & H2 & Ht).
  exists ws1, ws2. split; [done|]. split; [done|].
  unfold Frame.trim. by rewrite <- Ht.
Qed.

Section ContainerChecks.

Context `{platform : Platform}.

(** X2. [ensureContainerRunning], in [src/index.ts] and in the docker
    module alike, resolves exactly when the inspection exited with code
    0 and printed "true" between two possibly empty runs of white
    space, however the output was cut into chunks.  Any other exit
    code, a missing one included, and any other output reject. *)
Theorem ensureContainerRunning_accepts (which : ContainerCheck)
    (containerName : string) (chunks : list Buffer) (code : option Z) :
  ensureContainerRunning which containerName chunks code = None <->
  code = Some 0 /\
  exists ws1 ws2,
    Text.all_space ws1 = true /\ Text.all_space ws2 = true /\
    text_of chunks = ws1 +:+ "true" +:+ ws2.
Proof.
  unfold ensureContainerRunning. split.
  - case_bool_decide as Hc; [|by destruct which].
    case_bool_decide as Ht; [|by destruct which].
    intros _. split; [done|].
    destruct (trim_padding (text_of chunks)) as (ws1 & ws2 & H1 & H2 & Hs).
    exists ws1, ws2. by rewrite Ht in Hs.
  - intros (-> & ws1 & ws2 & H1 & H2 & ->).
    rewrite (trim_ignores_padding ws1 "true" ws2 H1 H2).
    by rewrite bool_decide_eq_true_2.
Qed.

End ContainerChecks.

(** ** Arguments given to docker *)

(** X3. [connectToDockerMCP] and [connectToMCP] give [docker] the same
    arguments for every configuration: [exec -i], then [-w] and the
    working directory exactly when one is configured and non-empty, then
    the container name, then the command, [node index.js] when none is
    configured. *)
Theorem docker_args_agree (cfg : MCPConfig) :
  connectToDockerMCP_args cfg = connectToMCP_args cfg /\
  (exists flags,
     connectToMCP_args cfg =
       ["exec"; "-i"] ++ flags ++ container_name (container cfg)
         :: container_command cfg /\
     match workdir (container cfg) with
     | None => flags = []
     | Some w => if bool_decide (w = "") then flags = [] else flags = ["-w"; w]
     end) /\
  container_command cfg =
    match command (container cfg) with
    | None => ["node"; "index.js"]
    | Some cmd => cmd
    end.
Proof.
  unfold connectToDockerMCP_args, connectToMCP_args, container_workdir,
    container_command.
  destruct cfg as [n caps [cn cmd wd] hc].
  cbn [container workdir command container_name].
  split; [|split].
  - destruct wd as [w|]; [case_bool_decide|]; done.
  - destruct wd as [w|]; [case_bool_decide|]; eexists; split; done.
  - by destruct cmd.
Qed.

(** ** A call from send to settlement *)

Section CallRoundTrip.

Context `{platform : Platform}.


(** X5. the two response handlers differ at most in the text of one
    rejection.  On a client with no pending entry under key 0 they throw
    on the same messages and leave the same client, and their effects
    are the same whenever the message carries no error or an error
    whose [message] is truthy; an error with a falsy [message] is the
    one case left, where [handleMCPResponse] falls back to "MCP
    Error". *)
Theorem response_handlers_agree (c : MCPClient) (m : Json.value) :
  pendingRequests c !! 0 = None ->
  fst <$> handleMCPResponse c m = fst <$> handleResponse c m /\
  (Json.truthy (Json.prop "error" m) = false \/
   Json.truthy (Json.prop "error" m ≫= Json.prop "message") = true ->
   handleMCPResponse c m = handleResponse c m).
Proof.
  intros H0. unfold handleMCPResponse, handleResponse.
  destruct m as [| | | | |fields]; try done.
  destruct (Json.prop "id" _) as [[| |id| | |]|]; try done.
  destruct (decide (id = 0)) as [->|Hne].
  - rewrite H0. cbn. done.
  - replace (negb (id =? 0)) with true
      by (symmetry; apply negb_true_iff, Z.eqb_neq; lia).
    cbn [andb]. destruct (pendingRequests c !! id) eqn:Ep.
    + rewrite bool_decide_eq_true_2 by (by eexists).
      destruct (Json.truthy (Json.prop "error" _)) eqn:Et.
      * split; [done|]. intros [?|Hm]; [done|]. by rewrite Hm.
      * done.
    + rewrite bool_decide_eq_false_2 by (intros [? [=]]). done.
Qed.

(** X6. lines that are empty or hold only white space never reach the
    parser: removing such a line from what a listener loops over changes
    neither the resulting client nor the effects, under either
    listener. *)
Theorem blank_lines_are_skipped (handle : Handler) (c : MCPClient)
    (before after : list string) (blank : string) :
  Frame.trim blank = "" ->
  processLines handle c (before ++ blank :: after) =
    processLines handle c (before ++ after) /\
  handleLines handle c (List.filter nonblank (before ++ blank :: after)) =
    handleLines handle c (List.filter nonblank (before ++ after)).
Proof.
  intros Hb. split.
  - rewrite !processLines_app. destruct (processLines handle c before) as [c1 e1].
    cbn [processLines]. by rewrite Hb, decide_True.
  - rewrite !List.filter_app. cbn [List.filter]. unfold nonblank at 2.
    by rewrite Hb, bool_decide_eq_true_2.
Qed.

End CallRoundTrip.

(** ** The registry of clients *)

Lemma clients_get_set_eq k v m : clients_get k (clients_set k v m) = Some v.
Proof.
  induction m as [|[k' v'] m IH]; cbn.
  - by rewrite decide_True.
  - case_decide as Hk; cbn.
    + by rewrite decide_True.
    + by rewrite decide_False.
Qed.

Lemma clients_get_set_ne k k' v m :
  k <> k' -> clients_get k' (clients_set k v m) = clients_get k' m.
Proof.
  intros Hne. induction m as [|[k0 v0] m IH]; cbn.
  - by rewrite decide_False.
  - case_decide as Hk; cbn.
    + subst k0. by rewrite !decide_False.
    + case_decide; [done | exact IH].
Qed.

Lemma clients_keys_set k v m :
  is_Some (clients_get k m) -> clients_keys (clients_set k v m) = clients_keys m.
Proof.
  induction m as [|[k' v'] m IH]; cbn.
  - by intros [? ?].
  - case_decide as Hk; cbn.
    + by subst.
    + intros H. by rewrite IH.
Qed.

Lemma clients_get_keys k m :
  is_Some (clients_get k m) <-> k ∈ clients_keys m.
Proof.
  induction m as [|[k' v'] m IH]; cbn.
  - split; [by intros [? ?] | by intros ?%not_elem_of_nil].
  - rewrite elem_of_cons. case_decide as Hk.
    + split; [by left | by eexists].
    + rewrite IH. split; [by right | by intros [?|?]].
Qed.

Lemma clients_keys_length m : List.length (clients_keys m) = List.length m.
Proof. induction m as [|[k v] m IH]; cbn; [done | by rewrite IH]. Qed.

Lemma forget_call_keys k id o :
  clients_keys (mcpClients (forget_call k id o)) = clients_keys (mcpClients o).
Proof.
  unfold forget_call. destruct (clients_get k (mcpClients o)) eqn:E; [|done].
  cbn. apply clients_keys_set. by eexists.
Qed.

Lemma forget_call_get_ne k k' id o :
  k <> k' ->
  clients_get k' (mcpClients (forget_call k id o)) =
  clients_get k' (mcpClients o).
Proof.
  intros Hne. unfold forget_call.
  destruct (clients_get k (mcpClients o)) eqn:E; [|done].
  cbn. by apply clients_get_set_ne.
Qed.

(** ** Events that do and do not lead to a reconnection *)

(** X7. a process [error] event marks the client not ready but arms no
    reconnection while the process handle is attached, because
    [scheduleReconnect] returns at once for an attached process.  The
    [exit] event detaches the process, so it arms the timer of the
    current backoff step as long as fewer than five attempts failed;
    [stop()] changes nothing of this, so the exit of a process it killed
    is followed by a reconnection like any other exit. *)
Theorem only_exit_schedules_reconnect (o : Orchestrator) (c : MCPClient)
    (p : ChildProcess) :
  let attached := set_process (Some p) c in
  isReady (fst (on_error attached)) = false /\
  scheduleReconnect o (fst (on_error attached)) = None /\
  scheduleReconnect o (fst (on_exit attached)) =
    (if decide (attempts_of o c < 5)%nat
     then Some {| rt_delay := reconnect_delay (attempts_of o c);
                  rt_attempts := attempts_of o c |}
     else None) /\
  scheduleReconnect (fst (stop o)) (fst (on_exit attached)) =
    scheduleReconnect o (fst (on_exit attached)).
Proof.
  cbv zeta. split; [done|]. split; [done|]. split; [|done].
  by rewrite scheduleReconnect_detached.
Qed.

(** ** Periodic health probes *)

(** X8. a health probe pings only a client that is ready.  For a client
    that is not ready nothing is sent and no request id is taken; the
    client stays not ready, and a reconnection timer is armed exactly
    when its process is gone and fewer than five attempts failed, on
    every such tick.  A ping that is rejected while the process is still
    attached marks the client not ready and arms nothing.  A ping that
    is answered records the time and changes nothing else. *)
Theorem health_probe_behaviour (o : Orchestrator) (c : MCPClient)
    (p : ChildProcess) (out : Outcome) (now : Z) (r : option Json.value)
    (m : string) :
  let idle := set_isReady false c in
  let ready := set_isReady true (set_process (Some p) c) in
  healthProbe o idle out now = (idle, [], scheduleReconnect o idle) /\
  (process c = None ->
   snd (healthProbe o idle out now) =
     if decide (attempts_of o c < 5)%nat
     then Some {| rt_delay := reconnect_delay (attempts_of o c);
                  rt_attempts := attempts_of o c |}
     else None) /\
  (is_Some (process c) -> snd (healthProbe o idle out now) = None) /\
  (pendingRequests c !! (requestId c + 1) = None ->
   healthProbe o ready (Rejected m) now =
     (set_requestId (requestId c + 1) (set_isReady false (set_process (Some p) c)),
      [SetTimeout (requestId c + 1) (timeoutMs c);
       StdinWrite (Json.stringify (request (requestId c + 1) "ping" (Json.Obj []))
                   +:+ nl)],
      None) /\
   healthProbe o ready (Resolved r) now =
     (set_lastHealthCheck (Some now) (set_requestId (requestId c + 1) ready),
      [SetTimeout (requestId c + 1) (timeoutMs c);
       StdinWrite (Json.stringify (request (requestId c + 1) "ping" (Json.Obj []))
                   +:+ nl)],
      None)).
Proof.
  cbv zeta. split; [|split; [|split]].
  - unfold healthProbe, healthProbe_begin, healthProbe_failed. cbn [isReady set_isReady].
    by destruct c.
  - intros Hp. unfold healthProbe, healthProbe_begin, healthProbe_failed.
    cbn [isReady set_isReady snd].
    rewrite scheduleReconnect_detached by done. done.
  - intros [q Hq]. unfold healthProbe, healthProbe_begin, healthProbe_failed.
    cbn [isReady set_isReady snd]. unfold scheduleReconnect.
    cbn [process set_isReady]. by rewrite Hq.
  - intros Hnone.
    unfold healthProbe, healthProbe_begin, healthProbe_end, healthProbe_failed,
      sendMCPRequest.
    cbn [isReady set_isReady process set_process requestId pendingRequests
         set_pendingRequests set_requestId].
    rewrite delete_insert_id by done.
    split; [|by destruct c]. unfold scheduleReconnect. cbn. by destruct c.
Qed.

(** ** Loops over the registry *)

Lemma same_but_refl k o : same_but k o o.
Proof. by split. Qed.

Lemma same_but_set k o c' :
  is_Some (clients_get k (mcpClients o)) ->
  same_but k o (set_mcpClients (clients_set k c' (mcpClients o)) o).
Proof.
  intros Hk. split; cbn.
  - by apply clients_keys_set.
  - intros k' Hne. by apply clients_get_set_ne.
Qed.

Lemma same_but_forget k id o o1 :
  same_but k o o1 -> same_but k o (forget_call k id o1).
Proof.
  intros [Hk Hg]. split.
  - by rewrite forget_call_keys.
  - intros k' Hne. rewrite forget_call_get_ne by done. by apply Hg.
Qed.

Lemma same_but_present k k' o o1 :
  same_but k o o1 ->
  is_Some (clients_get k' (mcpClients o)) ->
  is_Some (clients_get k' (mcpClients o1)).
Proof. intros [Hk _]. rewrite !clients_get_keys. by rewrite Hk. Qed.

Lemma check_each_cons env o now k ks :
  check_each env o now (k :: ks) =
  match clients_get k (mcpClients o) with
  | None => check_each env o now ks
  | Some client =>
      let '(o1, e1, now1, r) := check_one env o now k client in
      let '(o2, e2, results) := check_each env o1 now1 ks in
      (o2, map (pair k) e1 ++ e2, r :: results)
  end.
Proof. reflexivity. Qed.

Lemma check_one_spec env o now k client :
  clients_get k (mcpClients o) = Some client ->
  let r := check_one env o now k client in
  same_but k o (fst (fst (fst r))) /\
  reports o (snd r) k /\
  (snd (fst (fst r)) <> [] -> isReady client = true).
Proof.
  intros Hc. unfold check_one.
  destruct (isReady client) eqn:Hready.
  - cbv zeta. destruct (sendMCPRequest client "ping" (Json.Obj []))
      as [[client' e] h] eqn:Es.
    assert (Hset : same_but k o
      (set_mcpClients (clients_set k client' (mcpClients o)) o))
      by (apply same_but_set; by eexists).
    destruct h as [id|msg].
    + destruct (env k id) as [[res|msg] t]; cbn [fst snd];
        (split; [by apply same_but_forget|]); (split; [|done]);
        exists client; cbn; rewrite ?Hready; repeat split; try done.
    + cbn. split; [done|]. split; [|done].
      exists client. cbn. rewrite Hready. repeat split; try done.
  - cbn. split; [apply same_but_refl|]. split; [|done].
    exists client. cbn. rewrite Hready. repeat split; done.
Qed.

Lemma reports_same_but k k' o o1 r :
  same_but k o o1 -> k' <> k -> reports o1 r k' -> reports o r k'.
Proof.
  intros [_ Hg] Hne (c & Hc & H). exists c. split; [|done].
  by rewrite <- Hg.
Qed.

Lemma available_same_but k k' o o1 :
  same_but k o o1 -> k' <> k -> available o1 k' = available o k'.
Proof. intros [_ Hg] Hne. unfold available. by rewrite Hg. Qed.

Lemma check_each_spec env :
  forall (ks : list string) (o : Orchestrator) (now : Z),
    NoDup ks ->
    (forall k, k ∈ ks -> is_Some (clients_get k (mcpClients o))) ->
    let r := check_each env o now ks in
    clients_keys (mcpClients (fst (fst r))) = clients_keys (mcpClients o) /\
    (forall k', k' ∉ ks ->
       clients_get k' (mcpClients (fst (fst r))) =
       clients_get k' (mcpClients o)) /\
    Forall2 (reports o) (snd r) ks /\
    Forall (fun ke : string * Effect =>
              fst ke ∈ ks /\ available o (fst ke) = true) (snd (fst r)).
Proof.
  induction ks as [|k ks IH]; intros o now Hnd Hall; cbv zeta.
  - cbn. repeat split; constructor.
  - apply NoDup_cons in Hnd as [Hk Hnd].
    destruct (Hall k ltac:(apply elem_of_cons; by left)) as [client Hc].
    rewrite check_each_cons, Hc.
    pose proof (check_one_spec env o now k client Hc) as H1. cbv zeta in H1.
    destruct (check_one env o now k client) as [[[o1 e1] now1] r1].
    cbn [fst snd] in H1. destruct H1 as (Hsb & Hr1 & He1).
    specialize (IH o1 now1 Hnd). cbv zeta in IH.
    destruct IH as (IHk & IHg & IHr & IHe).
    { intros k' Hk'. eapply same_but_present; [done|].
      apply Hall, elem_of_cons. by right. }
    destruct (check_each env o1 now1 ks) as [[o2 e2] rs]. cbn [fst snd] in *.
    split; [|split; [|split]].
    + rewrite IHk. apply Hsb.
    + intros k' Hk'. apply not_elem_of_cons in Hk' as [Hne Hk'].
      rewrite IHg by done. by apply Hsb.
    + constructor; [done|].
      apply Forall2_same_length_lookup. split; [by eapply Forall2_length|].
      intros j r k' Hr Hk'.
      apply (reports_same_but k k' o o1); [done| |].
      * intros ->. apply Hk. by eapply list_elem_of_lookup_2.
      * by eapply Forall2_lookup_lr.
    + apply Forall_app. split.
      * apply Forall_forall. intros [k0 e0] Hin.
        apply list_elem_of_fmap in Hin as (e' & [= -> ->] & Hin'). cbn.
        split; [apply elem_of_cons; by left|].
        unfold available. rewrite Hc. apply He1. by intros ->; inversion Hin'.
      * eapply Forall_impl; [exact IHe|]. intros [k0 e0] [Hin Hav]. cbn in *.
        split; [apply elem_of_cons; by right|].
        rewrite <- (available_same_but k k0 o o1); [done|done|].
        intros ->. done.
Qed.

Lemma clients_get_lookup (m : list (string * MCPClient)) (j : nat) (k : string) (c : MCPClient) :
  NoDup (clients_keys m) -> m !! j = Some (k, c) -> clients_get k m = Some c.
Proof.
  revert j. induction m as [|[k' c'] m IH]; intros j Hnd Hj; [done|].
  cbn in Hnd. apply NoDup_cons in Hnd as [Hk Hnd]. cbn.
  destruct j as [|j]; cbn in Hj.
  - injection Hj as -> ->. by rewrite decide_True.
  - case_decide as Hkk.
    + subst k'. exfalso. apply Hk.
      apply clients_get_keys. rewrite (IH j Hnd Hj). by eexists.
    + by apply (IH j).
Qed.

Lemma clients_keys_lookup (m : list (string * MCPClient)) (j : nat) (k : string) :
  clients_keys m !! j = Some k -> exists c, m !! j = Some (k, c).
Proof.
  revert j. induction m as [|[k' c'] m IH]; intros j Hj; [done|].
  destruct j as [|j]; cbn in *.
  - injection Hj as ->. by eexists.
  - by apply IH.
Qed.

(** X9. a health check of all connections reports every registered
    client, once and in registration order, under the client's own name
    and container.  A client that is not ready is reported unhealthy
    with "Client not ready" and nothing is sent to it; whatever is sent
    goes to clients that were ready, and no client is added to or
    removed from the registry. *)
Theorem checkHealth_all_reports_every_client (env : Env) (o : Orchestrator)
    (now : Z) :
  NoDup (clients_keys (mcpClients o)) ->
  let r := checkHealth env o now None in
  List.length (snd r) = List.length (mcpClients o) /\
  Forall2
    (fun (h : HealthResult) (kc : string * MCPClient) =>
       hr_name h = name (config (snd kc)) /\
       hr_container h = container_name (container (config (snd kc))) /\
       (isReady (snd kc) = false ->
        hr_status h = Unhealthy /\ hr_error h = Some "Client not ready") /\
       (hr_status h = Healthy -> isReady (snd kc) = true))
    (snd r) (mcpClients o) /\
  Forall (fun ke : string * Effect => available o (fst ke) = true)
         (snd (fst r)) /\
  clients_keys (mcpClients (fst (fst r))) = clients_keys (mcpClients o).
Proof.
  intros Hnd. cbv zeta. unfold checkHealth, mcpsToCheck.
  pose proof (check_each_spec env (clients_keys (mcpClients o)) o now Hnd) as H.
  cbv zeta in H. destruct H as (Hk & _ & Hr & He).
  { intros k Hk. by apply clients_get_keys. }
  destruct (check_each env o now _) as [[o' e] rs]. cbn [fst snd] in *.
  assert (Hlen : List.length rs = List.length (mcpClients o)).
  { rewrite <- clients_keys_length. by eapply Forall2_length. }
  split; [done|]. split; [|split; [|done]].
  - apply Forall2_same_length_lookup. split; [done|].
    intros j h [k c] Hh Hkc.
    assert (clients_keys (mcpClients o) !! j = Some k) as Hkj.
    { destruct (lookup_lt_is_Some_2 (clients_keys (mcpClients o)) j) as [k' Hk'].
      { rewrite clients_keys_length. by eapply lookup_lt_Some. }
      destruct (clients_keys_lookup _ _ _ Hk') as [c' Hc'].
      unfold Clients in *. rewrite Hkc in Hc'. by injection Hc' as -> _. }
    destruct (Forall2_lookup_lr _ _ _ _ _ _ Hr Hh Hkj)
      as (c0 & Hc0 & Hn & Hcn & Hnr & Hh').
    rewrite (clients_get_lookup _ _ _ _ Hnd Hkc) in Hc0. injection Hc0 as <-.
    cbn. repeat split; try done; by apply Hnr || apply Hh'.
  - eapply Forall_impl; [exact He|]. by intros ke [_ ?].
Qed.

(** ** Listing the connections *)

Section Listings.

Variable toISOString : Z -> string.

Lemma listMCPs_one_spec env include_tools o k client :
  clients_get k (mcpClients o) = Some client ->
  let r := listMCPs_one toISOString env include_tools o k client in
  same_but k o (fst (fst r)) /\
  lists include_tools o (snd r) k /\
  (snd (fst r) <> [] -> isReady client = true) /\
  (include_tools = false -> fst r = (o, [])).
Proof.
  intros Hc. unfold listMCPs_one.
  destruct (include_tools && isReady client) eqn:Hb.
  - apply andb_true_iff in Hb as [-> Hready]. cbv zeta.
    destruct (sendMCPRequest client "tools/list" (Json.Obj []))
      as [[client' e] h] eqn:Es.
    assert (Hset : same_but k o
      (set_mcpClients (clients_set k client' (mcpClients o)) o))
      by (apply same_but_set; by eexists).
    destruct h as [id|msg].
    + destruct (env k id) as [[res|msg] t]; cbn;
        (split; [by apply same_but_forget|]); (split; [|done]);
        exists client; cbn; rewrite Hready; repeat split; try done;
        try by eexists.
    + cbn. split; [done|]. split; [|done].
      exists client. cbn. rewrite Hready. repeat split; try done; try by eexists.
  - cbn. split; [apply same_but_refl|]. split; [|done].
    exists client. cbn. rewrite Hb. repeat split; try done;
    try by intros [? ?].
Qed.

Lemma lists_same_but include_tools k k' o o1 info :
  same_but k o o1 -> k' <> k ->
  lists include_tools o1 info k' -> lists include_tools o info k'.
Proof.
  intros [_ Hg] Hne (c & Hc & H). exists c. split; [|done].
  by rewrite <- Hg.
Qed.

Lemma listMCPs_each_spec env include_tools :
  forall (ks : list string) (o : Orchestrator),
    NoDup ks ->
    (forall k, k ∈ ks -> is_Some (clients_get k (mcpClients o))) ->
    let r := listMCPs_each toISOString env include_tools o ks in
    clients_keys (mcpClients (fst (fst r))) = clients_keys (mcpClients o) /\
    (forall k', k' ∉ ks ->
       clients_get k' (mcpClients (fst (fst r))) =
       clients_get k' (mcpClients o)) /\
    Forall2 (lists include_tools o) (snd r) ks /\
    Forall (fun ke : string * Effect =>
              fst ke ∈ ks /\ available o (fst ke) = true) (snd (fst r)) /\
    (include_tools = false -> fst r = (o, [])).
Proof.
  induction ks as [|k ks IH]; intros o Hnd Hall; cbv zeta.
  - cbn. repeat split; constructor.
  - apply NoDup_cons in Hnd as [Hk Hnd].
    destruct (Hall k ltac:(apply elem_of_cons; by left)) as [client Hc].
    cbn [listMCPs_each]. rewrite Hc.
    pose proof (listMCPs_one_spec env include_tools o k client Hc) as H1.
    cbv zeta in H1.
    destruct (listMCPs_one toISOString env include_tools o k client)
      as [[o1 e1] info1].
    cbn [fst snd] in H1. destruct H1 as (Hsb & Hr1 & He1 & Hf1).
    specialize (IH o1 Hnd). cbv zeta in IH.
    destruct IH as (IHk & IHg & IHr & IHe & IHf).
    { intros k' Hk'. eapply same_but_present; [done|].
      apply Hall, elem_of_cons. by right. }
    destruct (listMCPs_each toISOString env include_tools o1 ks)
      as [[o2 e2] rs]. cbn [fst snd] in *.
    split; [|split; [|split; [|split]]].
    + rewrite IHk. apply Hsb.
    + intros k' Hk'. apply not_elem_of_cons in Hk' as [Hne Hk'].
      rewrite IHg by done. by apply Hsb.
    + constructor; [done|].
      apply Forall2_same_length_lookup. split; [by eapply Forall2_length|].
      intros j r k' Hr Hk'.
      apply (lists_same_but include_tools k k' o o1); [done| |].
      * intros ->. apply Hk. by eapply list_elem_of_lookup_2.
      * by eapply Forall2_lookup_lr.
    + apply Forall_app. split.
      * apply Forall_forall. intros [k0 e0] Hin.
        apply list_elem_of_fmap in Hin as (e' & [= -> ->] & Hin'). cbn.
        split; [apply elem_of_cons; by left|].
        unfold available. rewrite Hc. apply He1. by intros ->; inversion Hin'.
      * eapply Forall_impl; [exact IHe|]. intros [k0 e0] [Hin Hav]. cbn in *.
        split; [apply elem_of_cons; by right|].
        rewrite <- (available_same_but k k0 o o1); [done|done|].
        intros ->. done.
    + intros Hf. specialize (Hf1 Hf). specialize (IHf Hf).
      injection Hf1 as -> ->. injection IHf as -> ->. done.
Qed.

Lemma filter_length_Forall2 {A B} (f : A -> bool) (g : B -> bool) l1 l2 :
  Forall2 (fun a b => f a = g b) l1 l2 ->
  List.length (List.filter f l1) = List.length (List.filter g l2).
Proof.
  induction 1 as [|a b l1 l2 Hab _ IH]; cbn; [done|].
  rewrite Hab. destruct (g b); cbn; by rewrite IH.
Qed.

(** X10. [listMCPs] of [src/index.ts] lists every registered client once,
    in registration order, under its key, with the status its readiness
    gives, its capabilities and its container; the totals are the number
    of clients and the number of ready ones.  A [tools] field is present
    exactly for ready clients of a listing that asked for tools, even
    when fetching them failed.  Requests go to ready clients only, and a
    listing that did not ask for tools sends nothing and leaves the
    orchestrator as it was. *)
Theorem listMCPs_lists_every_client (env : Env) (o : Orchestrator)
    (include_tools : bool) :
  NoDup (clients_keys (mcpClients o)) ->
  let r := listMCPs toISOString env o include_tools in
  total_mcps (snd r) = List.length (mcpClients o) /\
  ready_mcps (snd r) =
    List.length (List.filter (fun kc : string * MCPClient => isReady (snd kc))
                             (mcpClients o)) /\
  Forall2
    (fun (info : McpInfo) (kc : string * MCPClient) =>
       info_name info = fst kc /\
       info_status info = (if isReady (snd kc) then McpReady else McpNotReady) /\
       info_capabilities info = capabilities (config (snd kc)) /\
       info_container info = container_name (container (config (snd kc))) /\
       (is_Some (info_tools info) <-> include_tools && isReady (snd kc) = true))
    (mcps (snd r)) (mcpClients o) /\
  Forall (fun ke : string * Effect => available o (fst ke) = true)
         (snd (fst r)) /\
  (include_tools = false -> fst r = (o, [])).
Proof.
  intros Hnd. cbv zeta. unfold listMCPs.
  pose proof (listMCPs_each_spec env include_tools
                (clients_keys (mcpClients o)) o Hnd) as H.
  cbv zeta in H. destruct H as (Hk & _ & Hr & He & Hf).
  { intros k Hk. by apply clients_get_keys. }
  destruct (listMCPs_each toISOString env include_tools o _) as [[o' e] infos].
  cbn [fst snd total_mcps ready_mcps mcps] in *.
  assert (Hlen : List.length infos = List.length (mcpClients o)).
  { rewrite <- clients_keys_length. by eapply Forall2_length. }
  assert (Hall : Forall2
    (fun (info : McpInfo) (kc : string * MCPClient) =>
       info_name info = fst kc /\
       info_status info = (if isReady (snd kc) then McpReady else McpNotReady) /\
       info_capabilities info = capabilities (config (snd kc)) /\
       info_container info = container_name (container (config (snd kc))) /\
       (is_Some (info_tools info) <-> include_tools && isReady (snd kc) = true))
    infos (mcpClients o)).
  { apply Forall2_same_length_lookup. split; [done|].
    intros j info [k c] Hh Hkc.
    assert (clients_keys (mcpClients o) !! j = Some k) as Hkj.
    { destruct (lookup_lt_is_Some_2 (clients_keys (mcpClients o)) j) as [k' Hk'].
      { rewrite clients_keys_length. by eapply lookup_lt_Some. }
      destruct (clients_keys_lookup _ _ _ Hk') as [c' Hc'].
      unfold Clients in *. rewrite Hkc in Hc'. by injection Hc' as -> _. }
    destruct (Forall2_lookup_lr _ _ _ _ _ _ Hr Hh Hkj) as (c0 & Hc0 & H).
    rewrite (clients_get_lookup _ _ _ _ Hnd Hkc) in Hc0. injection Hc0 as <-.
    exact H. }
  split; [done|]. split; [|split; [done|split; [|done]]].
  - apply filter_length_Forall2.
    eapply Forall2_impl; [exact Hall|].
    intros info [k c] (_ & Hs & _). unfold is_ready_info. cbn in *.
    rewrite Hs. by destruct (isReady c).
  - eapply Forall_impl; [exact He|]. by intros ke [_ ?].
Qed.

End Listings.

Lemma modular_listMCPs_each_rejected env :
  (forall k id, exists m removed, env k id = (Rejected m, removed)) ->
  forall (ks : list string) (o : Orchestrator),
    (exists k c, k ∈ ks /\ clients_get k (mcpClients o) = Some c /\
                 isReady c = true) ->
    exists m, snd (modular_listMCPs_each env true o ks) = inl m.
Proof.
  intros Henv. induction ks as [|k ks IH]; intros o (k0 & c0 & Hin & Hc0 & Hr0).
  - by apply not_elem_of_nil in Hin.
  - cbn [modular_listMCPs_each].
    destruct (clients_get k (mcpClients o)) as [client|] eqn:Hc.
    + destruct (isReady client) eqn:Hready; cbn [andb].
      * destruct (sendRequest client "tools/list" (Json.Obj []))
          as [[client' e] h].
        destruct (Henv k (requestId client')) as (m & removed & ->).
        by exists m.
      * apply elem_of_cons in Hin as [->|Hin]; [congruence|].
        destruct (IH o) as [m Hm]; [by exists k0, c0|].
        destruct (modular_listMCPs_each env true o ks) as [[o2 e2] res].
        cbn in *. subst res. by exists m.
    + apply elem_of_cons in Hin as [->|Hin]; [congruence|].
      apply IH. by exists k0, c0.
Qed.

Lemma settle_modular_keys k id removed o :
  clients_keys (mcpClients (settle_modular k id removed o)) =
  clients_keys (mcpClients o).
Proof. destruct removed; [apply forget_call_keys | done]. Qed.

Lemma modular_listMCPs_each_answered env include :
  (include = true -> forall k id, exists r removed, env k id = (Resolved r, removed)) ->
  forall (ks : list string) (o : Orchestrator),
    (forall k, k ∈ ks -> k ∈ clients_keys (mcpClients o)) ->
    exists entries,
      snd (modular_listMCPs_each env include o ks) = inr entries /\
      map entry_name entries = ks.
Proof.
  intros Henv. induction ks as [|k ks IH]; intros o Hall.
  - by exists [].
  - cbn [modular_listMCPs_each].
    destruct (proj2 (clients_get_keys k (mcpClients o))
                (Hall k ltac:(apply elem_of_cons; by left))) as [client Hc].
    rewrite Hc.
    destruct (include && isReady client) eqn:Hb.
    + apply andb_true_iff in Hb as [-> Hready].
      destruct (sendRequest client "tools/list" (Json.Obj []))
        as [[client' e] h].
      destruct (Henv eq_refl k (requestId client')) as (r & removed & ->).
      destruct (IH (settle_modular k (requestId client') removed
                      (set_mcpClients (clients_set k client' (mcpClients o)) o)))
        as (entries & He & Hn).
      { intros k' Hk'. rewrite settle_modular_keys. cbn.
        rewrite clients_keys_set by (by eexists).
        apply Hall, elem_of_cons. by right. }
      destruct (modular_listMCPs_each env true _ ks) as [[o2 e2] res].
      cbn in *. subst res. eexists. split; [done|]. cbn. by rewrite Hn.
    + destruct (IH o) as (entries & He & Hn).
      { intros k' Hk'. apply Hall, elem_of_cons. by right. }
      destruct (modular_listMCPs_each env include o ks) as [[o2 e2] res].
      cbn in *. subst res. eexists. split; [done|]. cbn. by rewrite Hn.
Qed.

(** X11. the listing of the modular orchestrator does not survive a failed
    [tools/list]: when tools are asked for, some registered client is
    ready and every call is rejected, the whole listing is rejected and
    no entry is returned.  When every call is answered it returns one
    entry per registered client, and so does every listing that did not
    ask for tools. *)
Theorem modular_listMCPs_fails_as_a_whole (env : ModularEnv)
    (o : Orchestrator) (include_tools : bool) :
  ((forall k id, exists m removed, env k id = (Rejected m, removed)) ->
   include_tools = true ->
   (exists k c, clients_get k (mcpClients o) = Some c /\ isReady c = true) ->
   exists m, snd (modular_listMCPs env o include_tools) = inl m) /\
  ((include_tools = true ->
    forall k id, exists r removed, env k id = (Resolved r, removed)) ->
   exists entries,
     snd (modular_listMCPs env o include_tools) =
       inr (List.length (mcpClients o), entries) /\
     map entry_name entries = clients_keys (mcpClients o)).
Proof.
  unfold modular_listMCPs. split.
  - intros Henv -> (k & c & Hc & Hr).
    destruct (modular_listMCPs_each_rejected env Henv
                (clients_keys (mcpClients o)) o) as [m Hm].
    { exists k, c. split; [|done]. apply clients_get_keys. by eexists. }
    destruct (modular_listMCPs_each env true o _) as [[o' e] res].
    cbn in *. subst res. by exists m.
  - intros Henv.
    destruct (modular_listMCPs_each_answered env include_tools Henv
                (clients_keys (mcpClients o)) o) as (entries & He & Hn); [done|].
    destruct (modular_listMCPs_each env include_tools o _) as [[o' e] res].
    cbn in *. subst res. exists entries. split; [|done].
    by rewrite <- clients_keys_length, <- Hn, length_map.
Qed.

(** ** Task routing *)

Lemma list_sum_cons (x : nat) (l : list nat) :
  list_sum (x :: l) = (x + list_sum l)%nat.
Proof. reflexivity. Qed.

Lemma occurrences_mono points text words :
  forall w, w ∈ words -> Text.includes text w = true ->
  (points <= occurrences points text words)%nat.
Proof.
  unfold occurrences. induction words as [|x words IH]; intros w Hin Hw.
  - by apply not_elem_of_nil in Hin.
  - cbn [map]. rewrite list_sum_cons. apply elem_of_cons in Hin as [<-|Hin].
    + rewrite Hw. lia.
    + specialize (IH w Hin Hw). destruct (Text.includes text x); lia.
Qed.

Lemma keyword_points_le taskLower lowerName :
  forall table1 table2 : list (string * list string),
    table1 `sublist_of` table2 ->
    (list_sum
       (map (fun entry : string * list string =>
               if Text.includes lowerName (fst entry)
               then occurrences 3 taskLower (snd entry) else 0%nat) table1)
     <=
     list_sum
       (map (fun entry : string * list string =>
               if Text.includes lowerName (fst entry)
               then occurrences 3 taskLower (snd entry) else 0%nat) table2))%nat.
Proof.
  induction 1 as [|x l1 l2 _ IH|x l1 l2 _ IH]; cbn [map];
    rewrite ?list_sum_cons; [done|lia|lia].
Qed.

Lemma keywords_modular_sublist : keywords_modular `sublist_of` keywords_index.
Proof.
  unfold keywords_modular, keywords_index.
  do 2 apply sublist_skip. apply sublist_nil_l.
Qed.

Lemma analyze_score_le taskLower k c :
  (analyze_score keywords_modular taskLower k c <=
   analyze_score keywords_index taskLower k c)%nat.
Proof.
  unfold analyze_score.
  pose proof (keyword_points_le taskLower (Text.toLowerCase k) _ _
                keywords_modular_sublist). lia.
Qed.

Lemma analyze_clients_ready table taskLower (clients : list (string * MCPClient)) :
  analyze_clients table taskLower clients `sublist_of`
  map fst (List.filter (fun kc : string * MCPClient => isReady (snd kc)) clients).
Proof.
  induction clients as [|[k c] clients IH]; cbn -[Nat.ltb]; [done|].
  destruct (isReady c); cbn -[Nat.ltb]; [|done].
  destruct (0 <? analyze_score table taskLower k c)%nat;
    [by apply sublist_skip | by apply sublist_cons].
Qed.

Lemma analyze_clients_elem table taskLower (clients : list (string * MCPClient)) k :
  k ∈ analyze_clients table taskLower clients <->
  exists c, (k, c) ∈ clients /\ isReady c = true /\
            (0 < analyze_score table taskLower k c)%nat.
Proof.
  induction clients as [|[k' c'] clients IH]; cbn -[Nat.ltb].
  - split; [by intros ?%not_elem_of_nil|].
    by intros (c & ?%not_elem_of_nil & _).
  - destruct (isReady c') eqn:Hr;
      [destruct (0 <? analyze_score table taskLower k' c')%nat eqn:Hs|].
    + rewrite elem_of_cons, IH. apply Nat.ltb_lt in Hs. split.
      * intros [->|(c & Hin & H)].
        -- exists c'. split; [apply elem_of_cons; by left|done].
        -- exists c. split; [apply elem_of_cons; by right|done].
      * intros (c & Hin & Hc & Hsc).
        apply elem_of_cons in Hin as [[= -> ->]|Hin]; [by left|].
        right. by exists c.
    + rewrite IH. apply Nat.ltb_ge in Hs. split.
      * intros (c & Hin & H). exists c.
        split; [apply elem_of_cons; by right|done].
      * intros (c & Hin & Hc & Hsc).
        apply elem_of_cons in Hin as [[= -> ->]|Hin]; [lia|].
        by exists c.
    + rewrite IH. split.
      * intros (c & Hin & H). exists c.
        split; [apply elem_of_cons; by right|done].
      * intros (c & Hin & Hc & Hsc).
        apply elem_of_cons in Hin as [[= -> ->]|Hin]; [congruence|].
        by exists c.
Qed.

Lemma analyze_clients_sublist taskLower (clients : list (string * MCPClient)) :
  analyze_clients keywords_modular taskLower clients `sublist_of`
  analyze_clients keywords_index taskLower clients.
Proof.
  induction clients as [|[k c] clients IH]; cbn -[Nat.ltb]; [done|].
  destruct (isReady c); [|done].
  pose proof (analyze_score_le taskLower k c) as Hle.
  destruct (0 <? analyze_score keywords_modular taskLower k c)%nat eqn:Hm.
  - apply Nat.ltb_lt in Hm.
    assert ((0 <? analyze_score keywords_index taskLower k c)%nat = true) as ->
      by (apply Nat.ltb_lt; lia).
    by apply sublist_skip.
  - destruct (0 <? analyze_score keywords_index taskLower k c)%nat;
      [by apply sublist_cons | done].
Qed.

(** X12. [analyzeTask] names ready clients only, each at most as often as it
    is registered and in registration order.  A ready client is named
    as soon as the task, in lower case, mentions its name or one of its
    capabilities in lower case.  The tasks module, whose keyword table
    is the first two rows of the other one, names a sublist of what
    [src/index.ts] names. *)
Theorem analyzeTask_names_ready_clients (i : Implementation) (task : string)
    (clients : Clients) :
  analyzeTask i task clients `sublist_of`
    map fst (List.filter (fun kc : string * MCPClient => isReady (snd kc))
                         clients) /\
  (forall k c, (k, c) ∈ clients -> isReady c = true ->
     Text.includes (Text.toLowerCase task) (Text.toLowerCase k) = true \/
     (exists cap, cap ∈ capabilities (config c) /\
        Text.includes (Text.toLowerCase task) (Text.toLowerCase cap) = true) ->
     k ∈ analyzeTask i task clients) /\
  analyzeTask ModularOrchestrator task clients `sublist_of`
    analyzeTask IndexOrchestrator task clients.
Proof.
  unfold analyzeTask. split; [apply analyze_clients_ready|].
  split; [|apply analyze_clients_sublist].
  intros k c Hin Hr H. apply analyze_clients_elem. exists c.
  split; [done|]. split; [done|]. unfold analyze_score.
  destruct H as [->|(cap & Hcap & Hinc)]; [lia|].
  pose proof (occurrences_mono 5 (Text.toLowerCase task)
                (map Text.toLowerCase (capabilities (config c)))
                (Text.toLowerCase cap)) as H.
  specialize (H ltac:(apply list_elem_of_fmap; by exists cap) Hinc). lia.
Qed.

(** ** Choosing tools *)

Lemma insert_by_score_perm x l : insert_by_score x l ≡ₚ x :: l.
Proof.
  induction l as [|y l IH]; cbn; [done|].
  destruct (score y <=? score x)%nat; [done|].
  rewrite IH. apply Permutation_swap.
Qed.

Lemma sort_by_score_perm l : sort_by_score l ≡ₚ l.
Proof.
  induction l as [|x l IH]; cbn; [done|].
  by rewrite insert_by_score_perm, IH.
Qed.

Lemma insert_by_score_sorted x l :
  StronglySorted by_score l -> StronglySorted by_score (insert_by_score x l).
Proof.
  induction 1 as [|y l Hs IH Hy]; cbn.
  - repeat constructor.
  - destruct (score y <=? score x)%nat eqn:Hc.
    + apply Nat.leb_le in Hc. constructor; [by constructor|].
      constructor; [done|].
      eapply Forall_impl; [exact Hy|]. unfold by_score. intros; lia.
    + apply Nat.leb_gt in Hc. constructor; [done|].
      rewrite insert_by_score_perm. constructor; [|done].
      unfold by_score. lia.
Qed.

Lemma sort_by_score_sorted l : StronglySorted by_score (sort_by_score l).
Proof.
  induction l as [|x l IH]; cbn; [constructor|].
  by apply insert_by_score_sorted.
Qed.

(** Tools of one score keep the order they had. *)
Lemma insert_by_score_filter (n : nat) x l :
  StronglySorted by_score l ->
  List.filter (fun t => (score t =? n)%nat) (insert_by_score x l) =
  List.filter (fun t => (score t =? n)%nat) (x :: l).
Proof.
  induction 1 as [|y l Hs IH Hy]; [done|].
  cbn [insert_by_score].
  destruct (score y <=? score x)%nat eqn:Hc; [done|].
  apply Nat.leb_gt in Hc.
  change (List.filter ?f (y :: ?r)) with
    (if f y then y :: List.filter f r else List.filter f r).
  rewrite IH.
  change (List.filter ?f (x :: y :: l)) with
    (if f x then x :: (if f y then y :: List.filter f l else List.filter f l)
     else (if f y then y :: List.filter f l else List.filter f l)).
  change (List.filter ?f (x :: l)) with
    (if f x then x :: List.filter f l else List.filter f l).
  cbv beta.
  destruct (score x =? n)%nat eqn:Hx, (score y =? n)%nat eqn:Hyn; try done.
  apply Nat.eqb_eq in Hx, Hyn. lia.
Qed.

Lemma sort_by_score_filter (n : nat) l :
  List.filter (fun t => (score t =? n)%nat) (sort_by_score l) =
  List.filter (fun t => (score t =? n)%nat) l.
Proof.
  induction l as [|x l IH]; [done|].
  cbn [sort_by_score].
  rewrite insert_by_score_filter by apply sort_by_score_sorted.
  cbn. by rewrite IH.
Qed.

Lemma occurrences_le points text words :
  (occurrences points text words <= points * List.length words)%nat.
Proof.
  unfold occurrences. induction words as [|w words IH];
    cbn [map List.length]; rewrite ?list_sum_cons; [cbn; lia|].
  destruct (Text.includes text w); lia.
Qed.

Lemma tool_score_le taskLower t : (tool_score taskLower t <= 45)%nat.
Proof.
  unfold tool_score, actionWords. cbv zeta. cbn [map].
  rewrite !list_sum_cons. change (list_sum []) with 0%nat.
  repeat match goal with |- context [if ?b then _ else _] => destruct b end;
    lia.
Qed.

Lemma selectBestTools_elem (tools : list Tool) (task : string) :
  Forall (fun t => scored t ∈ tools /\
                   score t = tool_score (Text.toLowerCase task) (scored t) /\
                   (0 < score t <= 45)%nat) (selectBestTools tools task).
Proof.
  unfold selectBestTools.
  rewrite sort_by_score_perm. apply Forall_forall. intros t Ht.
  apply list_elem_of_In, filter_In in Ht as [Ht Hpos].
  apply list_elem_of_In in Ht. unfold score_tools in Ht.
  apply list_elem_of_fmap in Ht as (tool & -> & Hin). cbn [scored score] in *.
  apply Nat.ltb_lt in Hpos.
  pose proof (tool_score_le (Text.toLowerCase task) tool). done.
Qed.

(** X13. [selectBestTools] returns exactly the tools of positive score, each
    a listed tool with its own score, sorted by decreasing score; tools
    of equal score stay in the order the backend listed them.  A score
    is at most 45. *)
Theorem selectBestTools_sorts_by_score (tools : list Tool) (task : string) :
  let taskLower := Text.toLowerCase task in
  let best := selectBestTools tools task in
  StronglySorted by_score best /\
  best ≡ₚ List.filter (fun t => (0 <? score t)%nat) (score_tools task tools) /\
  (forall n : nat,
     List.filter (fun t => (score t =? n)%nat) best =
     List.filter (fun t => (score t =? n)%nat)
       (List.filter (fun t => (0 <? score t)%nat) (score_tools task tools))) /\
  Forall (fun t => scored t ∈ tools /\
                   score t = tool_score taskLower (scored t) /\
                   (0 < score t <= 45)%nat) best.
Proof.
  cbv zeta.
  split; [apply sort_by_score_sorted|].
  split; [apply sort_by_score_perm|]. split.
  - intros n. apply sort_by_score_filter.
  - apply selectBestTools_elem.
Qed.

(** ** Titles and branch names *)

Lemma take_length n s : (String.length (Text.take n s) <= n)%nat.
Proof.
  revert s. induction n as [|n IH]; intros [|c s]; cbn; try lia.
  specialize (IH s). lia.
Qed.

Lemma take_all n s : (String.length s <= n)%nat -> Text.take n s = s.
Proof.
  revert s. induction n as [|n IH]; intros [|c s]; cbn; try done; try lia.
  intros H. rewrite IH; [done|lia].
Qed.

Lemma count_app c a b :
  Text.count c (a +:+ b) = (Text.count c a + Text.count c b)%nat.
Proof.
  induction a as [|x a IH]; [done|].
  rewrite append_cons. cbn. rewrite IH. lia.
Qed.

Lemma count_take c n s : (Text.count c (Text.take n s) <= Text.count c s)%nat.
Proof.
  revert s. induction n as [|n IH]; intros [|x s]; cbn; try lia.
  specialize (IH s). lia.
Qed.

Lemma split_nonempty sep s : Text.split sep s <> [].
Proof.
  destruct s as [|c s]; cbn; [done|].
  destruct (decide (c = sep)); [done|].
  by destruct (Text.split sep s).
Qed.

Lemma split_no_sep sep s :
  Forall (fun w => Text.count sep w = 0%nat) (Text.split sep s).
Proof.
  induction s as [|c s IH]; cbn.
  - by constructor.
  - destruct (decide (c = sep)) as [->|Hne]; [by constructor|].
    destruct IH as [|w ws Hw Hws]; cbn.
    + constructor; [|done]. cbn. by rewrite decide_False.
    + constructor; [|done]. cbn. by rewrite decide_False.
Qed.

Lemma join_cons2 sep p q rest :
  Json.join sep (p :: q :: rest) = p +:+ sep +:+ Json.join sep (q :: rest).
Proof. reflexivity. Qed.

Lemma join_split sep s :
  Json.join (String sep "") (Text.split sep s) = s.
Proof.
  induction s as [|c s IH]; [done|].
  cbn [Text.split]. pose proof (split_nonempty sep s) as Hne.
  destruct (decide (c = sep)) as [->|Hc].
  - destruct (Text.split sep s) as [|w ws]; [done|].
    rewrite join_cons2, IH. by rewrite append_nil_l, append_cons, append_nil_l.
  - destruct (Text.split sep s) as [|w ws]; [done|]. cbn [Frame.cons_head].
    destruct ws as [|w' ws].
    + cbn in IH |- *. by rewrite IH.
    + rewrite join_cons2 in IH |- *. by rewrite append_cons, IH.
Qed.

Lemma count_join (ws : list string) :
  Forall (fun w => Text.count space w = 0%nat) ws ->
  Text.count space (Json.join " " ws) = (List.length ws - 1)%nat.
Proof.
  induction 1 as [|w ws Hw Hws IH]; [done|].
  destruct ws as [|w' ws];
    [change (Json.join " " [w]) with w; by rewrite Hw|].
  rewrite join_cons2, !count_app, IH, Hw.
  change (Text.count space " ") with 1%nat. cbn [List.length]. lia.
Qed.

(** X14. the title [extractTitle] builds has at most 50 characters and at
    most three spaces, those between its at most four words. *)
Theorem extractTitle_bounds (task : string) :
  (String.length (extractTitle task) <= 50)%nat /\
  (Text.count space (extractTitle task) <= 3)%nat.
Proof.
  unfold extractTitle. cbv zeta. split; [apply take_length|].
  etrans; [apply count_take|].
  rewrite count_join.
  - rewrite length_firstn. lia.
  - apply Forall_take.
    pose proof (split_no_sep space task) as H.
    induction H as [|w ws Hw Hws IH]; cbn; [constructor|].
    destruct (negb _); [by constructor|done].
Qed.

Lemma filter_stopWords_id (ws : list string) :
  Forall (fun word => Text.toLowerCase word ∉ stopWords) ws ->
  List.filter
    (fun word => negb (bool_decide (Text.toLowerCase word ∈ stopWords))) ws = ws.
Proof.
  induction 1 as [|w ws Hw Hws IH]; [done|].
  cbn [List.filter]. rewrite bool_decide_eq_false_2 by done.
  cbn [negb]. by rewrite IH.
Qed.

(** X15. a task of at most four words, none of them filtered, and of at most
    50 characters is its own title: joining undoes the split. *)
Theorem extractTitle_keeps_short_task (task : string) :
  (List.length (Text.split space task) <= 4)%nat ->
  Forall (fun word => Text.toLowerCase word ∉ stopWords)
         (Text.split space task) ->
  (String.length task <= 50)%nat ->
  extractTitle task = task.
Proof.
  intros Hlen Hstop Hshort. unfold extractTitle. cbv zeta.
  rewrite filter_stopWords_id by done.
  rewrite firstn_all2 by done.
  change " " with (String space ""). rewrite join_split.
  by apply take_all.
Qed.

Lemma keep_all_chars f s : all_chars f (Text.keep f s) = true.
Proof.
  induction s as [|c s IH]; [done|]. cbn.
  destruct (f c) eqn:Hc; [|done]. cbn. by rewrite Hc.
Qed.

Lemma alnum_not_space c :
  Text.is_lower_alnum c = true -> Frame.is_space c = false.
Proof.
  destruct c as [[] [] [] [] [] [] [] []]; vm_compute; congruence.
Qed.

Lemma alnum_not_dash c : Text.is_lower_alnum c = true -> c <> Text.dash.
Proof.
  destruct c as [[] [] [] [] [] [] [] []]; vm_compute; congruence.
Qed.

Lemma dash_runs_spec s :
  all_chars (fun c => Text.is_lower_alnum c || Frame.is_space c) s = true ->
  forall in_run,
    all_chars branch_char (Text.dash_runs in_run s) = true /\
    single_dashes (Text.dash_runs in_run s) = true /\
    (in_run = true -> starts_with_dash (Text.dash_runs in_run s) = false).
Proof.
  induction s as [|c s IH]; [done|].
  cbn [all_chars]. intros [Hc Hs]%andb_true_iff in_run.
  specialize (IH Hs). cbn [Text.dash_runs].
  destruct (Frame.is_space c) eqn:Hsp.
  - destruct in_run.
    + apply (IH true).
    + destruct (IH true) as (Ha & Hd & Hst). specialize (Hst eq_refl).
      split; [|split; [|done]].
      * cbn. unfold branch_char at 1. rewrite bool_decide_eq_true_2 by done.
        by rewrite orb_true_r.
      * destruct (Text.dash_runs true s) as [|b r]; [done|].
        cbn in Hst. change (single_dashes (String Text.dash (String b r)))
          with (negb (bool_decide (Text.dash = Text.dash) &&
                      bool_decide (b = Text.dash)) && single_dashes (String b r)).
        rewrite Hst, Hd. by rewrite andb_false_r.
  - rewrite orb_false_r in Hc.
    destruct (IH false) as (Ha & Hd & _).
    split; [|split].
    + cbn. unfold branch_char at 1. by rewrite Hc, Ha.
    + destruct (Text.dash_runs false s) as [|b r]; [done|].
      change (single_dashes (String c (String b r)))
        with (negb (bool_decide (c = Text.dash) &&
                    bool_decide (b = Text.dash)) && single_dashes (String b r)).
      rewrite Hd, (bool_decide_eq_false_2 (c = Text.dash))
        by by apply alnum_not_dash.
      done.
    + intros _. cbn. apply bool_decide_eq_false_2. by apply alnum_not_dash.
Qed.

Lemma take_all_chars f n s :
  all_chars f s = true -> all_chars f (Text.take n s) = true.
Proof.
  revert s. induction n as [|n IH]; intros [|c s]; cbn; try done.
  intros [-> Hs]%andb_true_iff. by apply IH.
Qed.

Lemma take_single_dashes n s :
  single_dashes s = true -> single_dashes (Text.take n s) = true.
Proof.
  revert s. induction n as [|n IH]; intros [|a s]; try done.
  destruct s as [|b s]; [by destruct n|].
  change (single_dashes (String a (String b s)))
    with (negb (bool_decide (a = Text.dash) && bool_decide (b = Text.dash)) &&
          single_dashes (String b s)).
  intros [Hab Hs]%andb_true_iff. specialize (IH _ Hs).
  destruct n as [|n]; [done|].
  change (Text.take (S (S n)) (String a (String b s)))
    with (String a (Text.take (S n) (String b s))).
  change (Text.take (S n) (String b s)) with (String b (Text.take n s)) in *.
  change (single_dashes (String a (String b (Text.take n s))))
    with (negb (bool_decide (a = Text.dash) && bool_decide (b = Text.dash)) &&
          single_dashes (String b (Text.take n s))).
  by rewrite Hab, IH.
Qed.

Lemma single_dashes_no_pair s :
  single_dashes s = true ->
  forall a b, s <> a +:+ String Text.dash (String Text.dash b).
Proof.
  induction s as [|x s IH]; intros Hs a b Heq.
  - by destruct a.
  - destruct a as [|y a].
    + rewrite append_nil_l in Heq. injection Heq as -> ->.
      cbn in Hs. by rewrite !bool_decide_eq_true_2 in Hs.
    + rewrite append_cons in Heq. injection Heq as -> Heq.
      apply (IH ltac:(destruct s; [done|]; cbn in Hs;
                      by apply andb_true_iff in Hs as [_ ?]) a b Heq).
Qed.

(** X16. [generateBranchName] always gives [feature/] followed by at most 30
    characters, each a lower-case ASCII letter, a digit or a dash, with
    no two dashes side by side, whatever the task holds. *)
Theorem generateBranchName_is_clean (task : string) :
  exists clean,
    generateBranchName task = "feature/" +:+ clean /\
    (String.length clean <= 30)%nat /\
    all_chars branch_char clean = true /\
    (forall a b, clean <> a +:+ String Text.dash (String Text.dash b)).
Proof.
  unfold generateBranchName. cbv zeta. eexists. split; [done|].
  split; [apply take_length|].
  destruct (dash_runs_spec _
              (keep_all_chars
                 (fun c => Text.is_lower_alnum c || Frame.is_space c)
                 (Text.toLowerCase task)) false) as (Ha & Hd & _).
  split; [by apply take_all_chars|].
  apply single_dashes_no_pair. by apply take_single_dashes.
Qed.

(** ** Parameters and plans *)

Lemma js_replace_keys k v fields :
  map fst (js_replace k v fields) = map fst fields.
Proof.
  induction fields as [|[k' x] fields IH]; [done|]. cbn.
  destruct (decide (k = k')) as [->|Hne]; cbn; [done|by rewrite IH].
Qed.

Lemma js_add_perm k v fields : js_add k v fields ≡ₚ (k, v) :: fields.
Proof.
  induction fields as [|[k' x] fields IH]; [done|]. cbn [js_add].
  destruct (array_index k) as [n|], (array_index k') as [n'|];
    try done; try (rewrite IH; apply Permutation_swap).
  destruct (n <? n')%N; [done|]. rewrite IH. apply Permutation_swap.
Qed.

Lemma js_add_last k v fields :
  array_index k = None -> js_add k v fields = fields ++ [(k, v)].
Proof.
  intros Hk. induction fields as [|[k' x] fields IH]; [done|].
  cbn [js_add]. rewrite Hk. cbn. by rewrite IH.
Qed.

Lemma assoc_None_keys k (fields : list (string * Json.value)) :
  Json.assoc k fields = None <-> k ∉ map fst fields.
Proof.
  induction fields as [|[k' x] fields IH]; cbn.
  - split; [intros _; apply not_elem_of_nil | done].
  - rewrite not_elem_of_cons. destruct (decide (k = k')) as [->|Hne].
    + split; [done | by intros [? _]].
    + rewrite IH. split; [done | by intros [_ ?]].
Qed.

Lemma assoc_js_replace k k' v fields :
  is_Some (Json.assoc k' fields) ->
  Json.assoc k (js_replace k' v fields) =
  if decide (k = k') then Some v else Json.assoc k fields.
Proof.
  induction fields as [|[k0 x] fields IH]; cbn.
  - by intros [? ?].
  - destruct (decide (k' = k0)) as [->|Hne]; cbn.
    + intros _. by destruct (decide (k = k0)).
    + intros H. rewrite IH by done.
      destruct (decide (k = k0)) as [->|?]; [|done].
      by rewrite decide_False.
Qed.

Lemma assoc_js_add k k' v fields :
  Json.assoc k' fields = None ->
  Json.assoc k (js_add k' v fields) =
  if decide (k = k') then Some v else Json.assoc k fields.
Proof.
  induction fields as [|[k0 x] fields IH]; intros Hk'.
  - done.
  - cbn in Hk'. destruct (decide (k' = k0)) as [|Hne]; [done|].
    specialize (IH Hk').
    assert (Hrec : Json.assoc k ((k0, x) :: js_add k' v fields) =
                   if decide (k = k') then Some v
                   else Json.assoc k ((k0, x) :: fields)).
    { cbn. rewrite IH. destruct (decide (k = k0)) as [->|?]; [|done].
      by rewrite decide_False. }
    cbn [js_add].
    destruct (array_index k') as [n|], (array_index k0) as [n'|];
      try exact Hrec; try done.
    destruct (n <? n')%N; [done | exact Hrec].
Qed.

Lemma assoc_js_set k k' v fields :
  Json.assoc k (js_set k' v fields) =
  if decide (k = k') then Some v else Json.assoc k fields.
Proof.
  unfold js_set. case_bool_decide as Hp.
  - by apply assoc_js_replace.
  - apply assoc_js_add. by destruct (Json.assoc k' fields); [destruct Hp|].
Qed.

Lemma js_set_keys k v fields :
  forall k0, k0 ∈ map fst (js_set k v fields) ->
             k0 = k \/ k0 ∈ map fst fields.
Proof.
  intros k0. unfold js_set. case_bool_decide as Hp.
  - rewrite js_replace_keys. by right.
  - rewrite js_add_perm. cbn. intros [->|?]%elem_of_cons; [by left|by right].
Qed.

Lemma js_set_NoDup k v fields :
  NoDup (map fst fields) -> NoDup (map fst (js_set k v fields)).
Proof.
  intros Hnd. unfold js_set. case_bool_decide as Hp.
  - by rewrite js_replace_keys.
  - rewrite js_add_perm. cbn. apply NoDup_cons. split; [|done].
    apply assoc_None_keys. by destruct (Json.assoc k fields); [destruct Hp|].
Qed.

Lemma smart_value_total i task paramName schema :
  schema <> Json.Null -> is_Some (smart_value i task paramName schema).
Proof.
  intros Hs. unfold smart_value. cbv zeta.
  repeat match goal with
         | |- is_Some (Some _) => by eexists
         | |- is_Some (if ?b then _ else _) => destruct b
         | |- is_Some (match ?s with Json.Null => _ | _ => _ end) =>
             destruct s; [done|..]
         end.
Qed.

Lemma smart_value_title i task paramName schema :
  title_named paramName = true ->
  smart_value i task paramName schema =
  Some (Some (Json.Str (extractTitle task))).
Proof. unfold title_named, smart_value. cbv zeta. by intros ->. Qed.

Lemma smart_params_spec i task :
  forall entries params,
    Forall (fun e : string * Json.value => snd e <> Json.Null) entries ->
    exists params',
      smart_params i task entries params = Some params' /\
      (forall k, k ∈ map fst params' ->
                 k ∈ map fst params \/ k ∈ map fst entries) /\
      (NoDup (map fst params) -> NoDup (map fst params')) /\
      (forall k, title_named k = true ->
         k ∈ map fst entries \/
         Json.assoc k params = Some (Json.Str (extractTitle task)) ->
         Json.assoc k params' = Some (Json.Str (extractTitle task))).
Proof.
  induction entries as [|[paramName schema] entries IH]; intros params Hok.
  - exists params. cbn. split; [done|]. split; [by left|]. split; [done|].
    intros k _ [?%not_elem_of_nil|?]; done.
  - apply Forall_cons in Hok as [Hs Hok]. cbn in Hs. cbn [smart_params].
    destruct (smart_value_total i task paramName schema Hs) as [ov Hov].
    pose proof (smart_value_title i task paramName schema) as Htitle.
    rewrite Hov in *. destruct ov as [v|].
    + destruct (IH (js_set paramName v params) Hok)
        as (params' & -> & Hkeys & Hnd & Ht).
      exists params'. split; [done|]. split; [|split].
      * intros k Hk. destruct (Hkeys k Hk) as [Hin|Hin].
        -- apply js_set_keys in Hin as [->|Hin]; [|by left].
           right. cbn. apply elem_of_cons. by left.
        -- right. cbn. apply elem_of_cons. by right.
      * intros H. by apply Hnd, js_set_NoDup.
      * intros k Hk Hin. apply Ht; [done|].
        cbn [map fst] in Hin. rewrite assoc_js_set.
        destruct (decide (k = paramName)) as [->|Hne].
        -- right. specialize (Htitle Hk). congruence.
        -- destruct Hin as [[?|Hin]%elem_of_cons|Hin];
             [done|by left|by right].
    + destruct (IH params Hok) as (params' & -> & Hkeys & Hnd & Ht).
      exists params'. split; [done|]. split; [|split; [done|]].
      * intros k Hk. destruct (Hkeys k Hk) as [Hin|Hin]; [by left|].
        right. cbn. apply elem_of_cons. by right.
      * intros k Hk Hin. apply Ht; [done|].
        cbn [map fst] in Hin.
        destruct Hin as [[->|Hin]%elem_of_cons|Hin]; [|by left|by right].
        specialize (Htitle Hk). congruence.
Qed.

Lemma generateSmartParams_unfold i t task :
  generateSmartParams i t task = smart_params i task (property_schemas t) [].
Proof.
  unfold generateSmartParams, property_schemas.
  by destruct (Json.truthy (schema_properties t)).
Qed.

(** X17. on a tool none of whose property schemas is [null],
    [generateSmartParams] returns an object whose keys are distinct
    property names of the tool's input schema, and in which every
    property whose name mentions [title] or [name] holds the title
    extracted from the task, whatever its schema says.  Without an
    input schema, or without properties, the object is empty. *)
Theorem generateSmartParams_fills_known_properties (i : Implementation)
    (t : Tool) (task : string) :
  well_schemed t ->
  exists params,
    generateSmartParams i t task = Some params /\
    NoDup (map fst params) /\
    (forall k, k ∈ map fst params -> k ∈ map fst (property_schemas t)) /\
    (forall k, k ∈ map fst (property_schemas t) -> title_named k = true ->
       Json.assoc k params = Some (Json.Str (extractTitle task))) /\
    (Json.truthy (schema_properties t) = false -> params = []).
Proof.
  intros Hok. rewrite generateSmartParams_unfold.
  destruct (smart_params_spec i task (property_schemas t) [] Hok)
    as (params & Hp & Hkeys & Hnd & Ht).
  exists params. split; [done|]. split; [apply Hnd; constructor|].
  split; [|split].
  - intros k Hk. by destruct (Hkeys k Hk) as [?%not_elem_of_nil|?].
  - intros k Hk Hn. apply Ht; [done|by left].
  - intros Hf. unfold property_schemas in Hp. rewrite Hf in Hp.
    cbn in Hp. congruence.
Qed.

Lemma smart_value_agree task paramName schema :
  plain_default schema ->
  smart_value IndexOrchestrator task paramName schema =
  smart_value ModularOrchestrator task paramName schema.
Proof. unfold plain_default, smart_value. cbv zeta. by intros ->. Qed.

Lemma smart_params_agree task :
  forall entries params,
    Forall (fun e : string * Json.value => plain_default (snd e)) entries ->
    smart_params IndexOrchestrator task entries params =
    smart_params ModularOrchestrator task entries params.
Proof.
  induction entries as [|[paramName schema] entries IH]; intros params Hok;
    [done|].
  apply Forall_cons in Hok as [Hs Hok]. cbn [smart_params].
  rewrite (smart_value_agree task paramName schema Hs).
  destruct (smart_value ModularOrchestrator task paramName schema)
    as [[v|]|]; [by apply IH|by apply IH|done].
Qed.

(** X18. the two [generateSmartParams] give the same parameters, or throw
    alike, on every tool none of whose property schemas carries a falsy
    default ([false], [0], the empty string or [null]).  Only such a
    default, which [src/index.ts] skips and the tasks module passes on,
    can make them differ. *)
Theorem generateSmartParams_variants_agree (t : Tool) (task : string) :
  Forall (fun e : string * Json.value => plain_default (snd e))
         (property_schemas t) ->
  generateSmartParams IndexOrchestrator t task =
  generateSmartParams ModularOrchestrator t task.
Proof.
  intros Hok. rewrite !generateSmartParams_unfold.
  by apply smart_params_agree.
Qed.

(** *** The execution plan *)

Lemma steps_of_tools_spec i task mcpName (tools : list Tool) :
  forall selected,
    Forall (fun s => scored s ∈ tools /\
                     (0 < tool_score (Text.toLowerCase task) (scored s))%nat /\
                     well_schemed (scored s)) selected ->
    exists steps,
      steps_of_tools i task mcpName selected = Some steps /\
      map step_tool steps = map (fun s => tool_name (scored s)) selected /\
      Forall (fun st => step_mcp st = mcpName /\
                exists t params, t ∈ tools /\ step_tool st = tool_name t /\
                  (0 < tool_score (Text.toLowerCase task) t)%nat /\
                  generateSmartParams i t task = Some params /\
                  step_params st = Json.Obj params) steps.
Proof.
  induction 1 as [|s selected (Hin & Hpos & Hok) _ IH].
  - exists []. by repeat constructor.
  - destruct IH as (steps & Hsteps & Hnames & Hall).
    cbn [steps_of_tools]. rewrite generateSmartParams_unfold.
    destruct (smart_params_spec i task (property_schemas (scored s)) [] Hok)
      as (params & Hp & _).
    rewrite Hp, Hsteps. eexists. split; [done|]. split.
    + cbn. by rewrite Hnames.
    + constructor; [|done]. cbn. split; [done|].
      exists (scored s), params. rewrite generateSmartParams_unfold. done.
Qed.

Lemma plan_of_entry_spec i task (entry : string * list Tool) :
  Forall well_schemed (snd entry) ->
  exists steps,
    plan_of_entry i task entry = Some steps /\
    (List.length steps <= 2)%nat /\
    map step_tool steps =
      map (fun s => tool_name (scored s))
          (List.firstn 2 (selectBestTools (snd entry) task)) /\
    Forall (fun st => step_mcp st = fst entry /\
              exists t params, t ∈ snd entry /\ step_tool st = tool_name t /\
                (0 < tool_score (Text.toLowerCase task) t)%nat /\
                generateSmartParams i t task = Some params /\
                step_params st = Json.Obj params) steps.
Proof.
  intros Hok. unfold plan_of_entry.
  destruct (steps_of_tools_spec i task (fst entry) (snd entry)
              (List.firstn 2 (selectBestTools (snd entry) task)))
    as (steps & Hs & Hn & Hall).
  { apply Forall_take.
    eapply Forall_impl; [apply selectBestTools_elem|].
    intros s (Hin & Hsc & Hpos). split; [done|]. split; [lia|].
    rewrite Forall_forall in Hok. by apply Hok. }
  exists steps. split; [done|]. split; [|done].
  rewrite <- (length_map step_tool), Hn, length_map, length_firstn. lia.
Qed.

(** X19. step 3 of [orchestrateTask].  When no property schema of a listed
    tool is [null], the plan is built, has at most two steps for each
    entry of the tool listing, and each of its steps calls, on the
    connection of its entry, a tool that connection listed, of positive
    score for the task, with the parameters [generateSmartParams]
    gives for it.  A connection none of whose tools scores contributes
    no step. *)
Theorem createPlan_takes_two_best_tools (i : Implementation) (task : string)
    (availableTools : list (string * list Tool)) :
  Forall (fun entry : string * list Tool => Forall well_schemed (snd entry))
         availableTools ->
  exists plan,
    createPlan i task availableTools = Some plan /\
    (List.length plan <= 2 * List.length availableTools)%nat /\
    Forall (planned i task availableTools) plan /\
    map step_tool plan =
      List.concat (map (fun entry : string * list Tool =>
                     map (fun s => tool_name (scored s))
                         (List.firstn 2 (selectBestTools (snd entry) task)))
                  availableTools).
Proof.
  induction 1 as [|entry rest Hentry _ IH].
  - exists []. by repeat constructor.
  - destruct IH as (more & Hmore & Hlen & Hall & Hnames).
    destruct (plan_of_entry_spec i task entry Hentry)
      as (steps & Hsteps & Hlen1 & Hn1 & Hall1).
    cbn [createPlan]. rewrite Hsteps, Hmore.
    exists (steps ++ more). split; [done|]. split; [|split].
    + rewrite length_app. cbn [List.length]. lia.
    + apply Forall_app. split.
      * eapply Forall_impl; [exact Hall1|].
        intros st (Hm & t & params & Hin & Hrest).
        exists (snd entry), t, params. split; [|done].
        rewrite Hm. apply elem_of_cons. left. by destruct entry.
      * eapply Forall_impl; [exact Hall|].
        intros st (tools & t & params & Hin & Hrest).
        exists tools, t, params. split; [|done].
        apply elem_of_cons. by right.
    + rewrite map_app, Hn1, Hnames. done.
Qed.

(** ** The tools of the required connections *)

Lemma js_set_fresh k v fields :
  array_index k = None -> k ∉ map fst fields ->
  js_set k v fields = fields ++ [(k, v)].
Proof.
  intros Hi Hk. unfold js_set.
  apply assoc_None_keys in Hk. rewrite Hk.
  rewrite bool_decide_eq_false_2 by (by intros [? ?]).
  by apply js_add_last.
Qed.

Lemma available_set k k' c' o :
  available (set_mcpClients (clients_set k c' (mcpClients o)) o) k' =
  if decide (k' = k) then isReady c' else available o k'.
Proof.
  unfold available. cbn. destruct (decide (k' = k)) as [->|Hne].
  - by rewrite clients_get_set_eq.
  - by rewrite clients_get_set_ne.
Qed.

Lemma available_forget k id o k' :
  available (forget_call k id o) k' = available o k'.
Proof.
  unfold forget_call.
  destruct (clients_get k (mcpClients o)) as [c|] eqn:Hc; [|done].
  rewrite available_set. destruct (decide (k' = k)) as [->|]; [|done].
  unfold available. by rewrite Hc.
Qed.

Lemma sendMCPRequest_isReady c method params :
  isReady (fst (fst (sendMCPRequest c method params))) = isReady c.
Proof. unfold sendMCPRequest. by destruct (process c). Qed.

Lemma slot_assigned_cases (slot : ToolsSlot) :
  slot = SlotAssigned \/ slot <> SlotAssigned.
Proof. destruct slot; [by left | by right | by right]. Qed.

Lemma getAvailableTools_begin_one_spec o tools n :
  let r := getAvailableTools_begin_one o tools n in
  let slot := snd r in
  let tools1 := snd (fst r) in
  let e := snd (fst (fst r)) in
  let o1 := fst (fst (fst r)) in
  (forall k, available o1 k = available o k) /\
  (slot = SlotAssigned <-> available o n = false) /\
  (slot = SlotAssigned -> o1 = o /\ e = [] /\
     tools1 = js_set n (Json.Arr []) tools) /\
  (slot <> SlotAssigned -> tools1 = tools).
Proof.
  cbv zeta. unfold getAvailableTools_begin_one, available.
  destruct (clients_get n (mcpClients o)) as [client|] eqn:Hc.
  - destruct (isReady client) eqn:Hr.
    + pose proof (sendMCPRequest_isReady client "tools/list" (Json.Obj []))
        as Hs.
      destruct (sendMCPRequest client "tools/list" (Json.Obj []))
        as [[client' e] h].
      cbn in Hs.
      assert (Hav : forall k,
        match clients_get k (clients_set n client' (mcpClients o)) with
        | Some c => isReady c | None => false end =
        match clients_get k (mcpClients o) with
        | Some c => isReady c | None => false end).
      { intros k. destruct (decide (k = n)) as [->|Hne].
        - rewrite clients_get_set_eq, Hc. congruence.
        - by rewrite clients_get_set_ne. }
      destruct h; cbn; (split; [exact Hav|]);
        (split; [split; intros; congruence|]); split; intros; congruence.
    + cbn. split; [done|]. split; [done|]. split; [done|]. by intros [].
  - cbn. split; [done|]. split; [done|]. split; [done|]. by intros [].
Qed.

Lemma getAvailableTools_begin_spec :
  forall (names : list string) (o : Orchestrator)
         (tools : list (string * Json.value)),
    NoDup names ->
    Forall (fun n => array_index n = None) names ->
    (forall n, n ∈ names -> n ∉ map fst tools) ->
    let r := getAvailableTools_begin o tools names in
    let slots := snd r in
    map fst slots = names /\
    snd (fst r) =
      tools ++ map (fun s => (fst s, Json.Arr [])) (List.filter assigned slots) /\
    Forall (fun s : string * ToolsSlot =>
              assigned s = negb (available o (fst s))) slots /\
    Forall (fun ke : string * Effect => available o (fst ke) = true)
           (snd (fst (fst r))) /\
    (forall k, available (fst (fst (fst r))) k = available o k).
Proof.
  induction names as [|n names IH]; intros o tools Hnd Hidx Hfresh; cbv zeta.
  - cbn. rewrite app_nil_r. repeat split; constructor.
  - apply NoDup_cons in Hnd as [Hn Hnd].
    apply Forall_cons in Hidx as [Hi Hidx].
    cbn [getAvailableTools_begin].
    pose proof (getAvailableTools_begin_one_spec o tools n) as H1.
    cbv zeta in H1.
    destruct (getAvailableTools_begin_one o tools n) as [[[o1 e1] tools1] slot].
    cbn [fst snd] in H1. destruct H1 as (Hav & Hslot & Hass & Hother).
    assert (Hkeys1 : forall k, k ∈ map fst tools1 -> k = n \/ k ∈ map fst tools).
    { intros k Hk. destruct (slot_assigned_cases slot) as [Hs|Hs].
      - destruct (Hass Hs) as (_ & _ & ->). by apply js_set_keys in Hk.
      - rewrite (Hother Hs) in Hk. by right. }
    specialize (IH o1 tools1 Hnd Hidx). cbv zeta in IH.
    destruct IH as (IHn & IHt & IHs & IHe & IHa).
    { intros k Hk Hin. destruct (Hkeys1 k Hin) as [->|Hin']; [done|].
      apply (Hfresh k); [apply elem_of_cons; by right|done]. }
    destruct (getAvailableTools_begin o1 tools1 names)
      as [[[o2 e2] tools2] slots].
    cbn [fst snd] in *.
    split; [by rewrite <- IHn|]. split; [|split; [|split]].
    + rewrite IHt. unfold assigned at 2. cbn [List.filter snd fst].
      destruct (slot_assigned_cases slot) as [Hs|Hs].
      * destruct (Hass Hs) as (_ & _ & ->). subst slot.
        rewrite js_set_fresh; [|done|].
        -- by rewrite <- app_assoc.
        -- apply Hfresh, elem_of_cons. by left.
      * rewrite (Hother Hs). by destruct slot.
    + constructor.
      * cbn. unfold assigned. cbn.
        destruct (available o n) eqn:Ha.
        -- destruct slot; try done. by pose proof (proj1 Hslot eq_refl).
        -- by rewrite (proj2 Hslot eq_refl).
      * eapply Forall_impl; [exact IHs|]. intros s Hs. by rewrite Hs, Hav.
    + apply Forall_app. split.
      * apply Forall_forall. intros [k e] Hin.
        apply list_elem_of_fmap in Hin as (e' & [= -> ->] & Hin'). cbn.
        destruct (available o n) eqn:Ha; [done|].
        destruct (Hass (proj2 Hslot eq_refl)) as (_ & -> & _).
        by apply not_elem_of_nil in Hin'.
      * eapply Forall_impl; [exact IHe|]. intros ke Hke. by rewrite <- Hav.
    + intros k. by rewrite IHa.
Qed.

Lemma assign_thrown_spec :
  forall (slots : list (string * ToolsSlot)) (tools : list (string * Json.value)),
    NoDup (map fst slots) ->
    Forall (fun n => array_index n = None) (map fst slots) ->
    (forall s, s ∈ slots -> thrown s = true -> fst s ∉ map fst tools) ->
    assign_thrown slots tools =
    tools ++ map (fun s => (fst s, Json.Arr [])) (List.filter thrown slots).
Proof.
  induction slots as [|[n slot] slots IH]; intros tools Hnd Hidx Hfresh.
  - cbn. by rewrite app_nil_r.
  - cbn in Hnd, Hidx. apply NoDup_cons in Hnd as [Hn Hnd].
    apply Forall_cons in Hidx as [Hi Hidx].
    assert (Hrest : forall s, s ∈ slots -> thrown s = true ->
                              fst s ∉ map fst tools).
    { intros s Hs. apply Hfresh, elem_of_cons. by right. }
    destruct slot; cbn [assign_thrown List.filter thrown snd fst map].
    + by apply IH.
    + rewrite js_set_fresh;
        [|done|apply (Hfresh (n, SlotThrown)); [apply elem_of_cons; by left|done]].
      rewrite IH; [by rewrite <- app_assoc|done|done|].
      intros s Hs Ht. rewrite map_app. cbn.
      rewrite elem_of_app, list_elem_of_singleton.
      intros [Hin|Heq]; [by apply (Hrest s)|].
      apply Hn. apply list_elem_of_fmap. by exists s.
    + by apply IH.
Qed.

Lemma NoDup_fst_lookup {A} (l : list (string * A)) i j a b :
  NoDup (map fst l) -> l !! i = Some a -> l !! j = Some b ->
  fst a = fst b -> i = j.
Proof.
  intros Hnd Hi Hj Hab.
  eapply NoDup_lookup; [exact Hnd| |].
  - rewrite list_lookup_fmap, Hi. done.
  - rewrite list_lookup_fmap, Hj. cbn. by rewrite Hab.
Qed.

Lemma tools_settle_fold (slots : list (string * ToolsSlot)) :
  NoDup (map fst slots) ->
  Forall (fun n => array_index n = None) (map fst slots) ->
  forall (schedule : list ToolsSettlement) (o : Orchestrator)
         (tools : list (string * Json.value)) (fulfilled : list bool),
    NoDup (map ts_index schedule) ->
    (forall s, s ∈ schedule ->
       exists n id, slots !! ts_index s = Some (n, SlotAwaiting id) /\
                    fulfilled !! ts_index s = Some false /\
                    n ∉ map fst tools) ->
    exists o',
      foldl (tools_settle slots) (o, tools, fulfilled) schedule =
        (o', tools ++ omap (settled_entry slots) schedule,
         foldl (fun f s => <[ts_index s := true]> f) fulfilled schedule) /\
      (forall k, available o' k = available o k).
Proof.
  intros Hnd Hidx.
  induction schedule as [|s schedule IH]; intros o tools fulfilled Hsn Hall.
  - exists o. cbn. by rewrite app_nil_r.
  - cbn in Hsn. apply NoDup_cons in Hsn as [Hs Hsn].
    destruct (Hall s ltac:(apply elem_of_cons; by left))
      as (n & id & Hslot & Hf & Hfresh).
    cbn [foldl]. unfold tools_settle at 2. rewrite Hslot, Hf.
    assert (Hin : array_index n = None).
    { rewrite Forall_forall in Hidx. apply Hidx.
      apply list_elem_of_fmap. exists (n, SlotAwaiting id).
      split; [done|]. by eapply list_elem_of_lookup_2. }
    rewrite js_set_fresh by done.
    destruct (IH (forget_call n id o)
                (tools ++ [(n, listed_tools (ts_outcome s))])
                (<[ts_index s := true]> fulfilled) Hsn) as (o' & -> & Hav).
    { intros s' Hs'.
      destruct (Hall s' ltac:(apply elem_of_cons; by right))
        as (n' & id' & Hslot' & Hf' & Hfresh').
      assert (Hne : ts_index s <> ts_index s').
      { intros Heq. apply Hs. rewrite Heq. apply list_elem_of_fmap.
        by exists s'. }
      exists n', id'. split; [done|]. split.
      - by rewrite list_lookup_insert_ne.
      - rewrite map_app, elem_of_app. cbn. rewrite list_elem_of_singleton.
        intros [?| ->]; [done|]. apply Hne.
        by eapply (NoDup_fst_lookup slots _ _ _ _ Hnd Hslot Hslot'). }
    exists o'. split.
    + replace (omap (settled_entry slots) (s :: schedule))
        with ((n, listed_tools (ts_outcome s)) ::
              omap (settled_entry slots) schedule).
      * by rewrite <- app_assoc.
      * change (omap (settled_entry slots) (s :: schedule))
          with (match settled_entry slots s with
                | Some y => y :: omap (settled_entry slots) schedule
                | None => omap (settled_entry slots) schedule
                end).
        unfold settled_entry at 2. by rewrite Hslot.
    + intros k. by rewrite Hav, available_forget.
Qed.

Lemma fulfilled_fold_lookup (schedule : list ToolsSettlement) :
  forall (fulfilled : list bool) (j : nat),
    foldl (fun f s => <[ts_index s := true]> f) fulfilled schedule !! j =
    if bool_decide (j ∈ map ts_index schedule)
    then (fun _ => true) <$> fulfilled !! j
    else fulfilled !! j.
Proof.
  induction schedule as [|s schedule IH]; intros fulfilled j; [done|].
  cbn [foldl map]. rewrite IH.
  destruct (decide (j = ts_index s)) as [->|Hne].
  - rewrite (bool_decide_eq_true_2 (_ ∈ _ :: _)) by (apply elem_of_cons; by left).
    destruct (decide (ts_index s < List.length fulfilled)%nat) as [Hlt|Hge].
    + rewrite list_lookup_insert_eq by done.
      destruct (lookup_lt_is_Some_2 fulfilled (ts_index s) Hlt) as [b ->].
      by case_bool_decide.
    + rewrite list_insert_ge by lia.
      rewrite (lookup_ge_None_2 fulfilled) by lia. by case_bool_decide.
  - rewrite list_lookup_insert_ne by done.
    case_bool_decide as H1; case_bool_decide as H2; try done.
    + exfalso. apply H2, elem_of_cons. by right.
    + exfalso. apply elem_of_cons in H2 as [?|?]; done.
Qed.


Lemma getAvailableTools_begin_available :
  forall (names : list string) (o : Orchestrator)
         (tools : list (string * Json.value)),
    Forall (fun n => available o n = true) names ->
    let r := getAvailableTools_begin o tools names in
    map fst (snd r) = names /\
    Forall (fun s : string * ToolsSlot => assigned s = false) (snd r) /\
    snd (fst r) = tools.
Proof.
  induction names as [|n names IH]; intros o tools Hav; [done|].
  apply Forall_cons in Hav as [Hn Hav]. cbv zeta.
  cbn [getAvailableTools_begin].
  pose proof (getAvailableTools_begin_one_spec o tools n) as H1.
  cbv zeta in H1.
  destruct (getAvailableTools_begin_one o tools n) as [[[o1 e1] tools1] slot].
  cbn [fst snd] in H1. destruct H1 as (Hav1 & Hslot & _ & Hother).
  assert (Hs : slot <> SlotAssigned).
  { intros Hs. apply Hslot in Hs. congruence. }
  rewrite (Hother Hs).
  specialize (IH o1 tools). cbv zeta in IH.
  destruct IH as (IHn & IHs & IHt).
  { eapply Forall_impl; [exact Hav|]. intros k Hk. by rewrite Hav1. }
  destruct (getAvailableTools_begin o1 tools names) as [[[o2 e2] tools2] slots].
  cbn [fst snd map] in *. split; [by rewrite IHn|]. split; [|done].
  constructor; [|done]. unfold assigned. cbn. by destruct slot.
Qed.

(** X21. step 2 of [orchestrateTask] in [src/index.ts] never takes the
    branch for a connection that is not available: with one client per
    key, every name [analyzeTask] returns is registered and ready when
    [getAvailableTools] looks it up, so each required connection is
    asked for its tools, and the object of tools is still empty when
    the last call has been made. *)
Theorem orchestrateTask_asks_every_required_client (o : Orchestrator)
    (task : string) :
  NoDup (clients_keys (mcpClients o)) ->
  let required := analyzeTask IndexOrchestrator task (mcpClients o) in
  let r := getAvailableTools_begin o [] required in
  Forall (fun n => available o n = true) required /\
  map fst (snd r) = required /\
  Forall (fun s : string * ToolsSlot => assigned s = false) (snd r) /\
  snd (fst r) = [].
Proof.
  intros Hnd. cbv zeta.
  assert (Hav : Forall (fun n => available o n = true)
                       (analyzeTask IndexOrchestrator task (mcpClients o))).
  { apply Forall_forall. intros n Hn. unfold analyzeTask in Hn.
    apply analyze_clients_elem in Hn as (c & Hin & Hr & _).
    apply list_elem_of_lookup_1 in Hin as [j Hj].
    unfold available.
    by rewrite (clients_get_lookup _ _ _ _ Hnd Hj). }
  split; [done|]. by apply getAvailableTools_begin_available.
Qed.

(** ** Connecting *)

Section ConnectingProperties.

Context `{platform : Platform}.

(** With no call pending, the frame loop leaves the client alone. *)
Lemma dispatch_idle (c : MCPClient) (text : string) :
  pendingRequests c = ∅ ->
  fst (dispatch handleMCPResponse c text) = c /\
  Forall (fun e => e = ParseError) (snd (dispatch handleMCPResponse c text)).
Proof.
  intros Hp. unfold dispatch.
  destruct (JSON_parse text) as [m|]; [|by repeat constructor].
  unfold handleMCPResponse. rewrite Hp.
  destruct m; try (by repeat constructor).
  destruct (Json.prop "id" _) as [[| |id| | |]|]; try (by repeat constructor).
  rewrite lookup_empty.
  rewrite bool_decide_eq_false_2 by (by intros [? ?]).
  rewrite andb_false_r. by repeat constructor.
Qed.

Lemma processLines_idle (c : MCPClient) (lines : list string) :
  pendingRequests c = ∅ ->
  fst (processLines handleMCPResponse c lines) = c /\
  Forall (fun e => e = ParseError)
         (snd (processLines handleMCPResponse c lines)).
Proof.
  intros Hp. induction lines as [|line lines [IHc IHe]]; [by split|].
  cbn [processLines]. case_decide; [done|].
  destruct (dispatch_idle c (Frame.trim line) Hp) as [Hc He].
  destruct (dispatch handleMCPResponse c (Frame.trim line)) as [c1 e1].
  cbn in Hc, He. subst c1.
  destruct (processLines handleMCPResponse c lines) as [c2 e2].
  cbn in *. split; [done|]. by apply Forall_app.
Qed.

Lemma on_stdout_data_idle (c : MCPClient) (data : Buffer) :
  pendingRequests c = ∅ ->
  let r := on_stdout_data c data in
  pendingRequests (fst r) = ∅ /\
  requestId (fst r) = requestId c /\
  process (fst r) = process c /\
  config (fst r) = config c /\
  Forall (fun e => e = ParseError) (snd r).
Proof.
  intros Hp. cbv zeta.
  unfold on_stdout_data, processMessages, processMessagesWith.
  match goal with |- context [processLines _ ?c0 ?ls] =>
    destruct (processLines_idle c0 ls) as [Hc He]; [by destruct c|];
    destruct (processLines handleMCPResponse c0 ls) as [c1 e1]
  end.
  cbn in Hc, He. subst c1. by destruct c.
Qed.

Lemma connecting_quiet (chunks : list Buffer) :
  Forall quiet chunks ->
  forall c : MCPClient,
    pendingRequests c = ∅ ->
    let r := connecting (c, StillWaiting) (map WaitData chunks) in
    snd (fst r) = StillWaiting /\
    pendingRequests (fst (fst r)) = ∅ /\
    requestId (fst (fst r)) = requestId c /\
    process (fst (fst r)) = process c /\
    config (fst (fst r)) = config c /\
    Forall (fun e => e = ParseError) (snd r).
Proof.
  induction 1 as [|data chunks Hq _ IH]; intros c Hp; cbv zeta.
  - cbn. by repeat split.
  - cbn [map connecting connecting_step waitForProcessReady_step].
    unfold quiet in Hq. rewrite Hq.
    pose proof (on_stdout_data_idle c data Hp) as H1. cbv zeta in H1.
    destruct (on_stdout_data c data) as [c1 e1]. cbn [fst snd] in H1.
    destruct H1 as (Hp1 & Hr1 & Hpr1 & Hc1 & He1).
    specialize (IH c1 Hp1). cbv zeta in IH.
    destruct (connecting (c1, StillWaiting) (map WaitData chunks))
      as [[c2 w2] e2].
    cbn [fst snd] in *. destruct IH as (-> & Hp2 & Hr2 & Hpr2 & Hc2 & He2).
    split; [done|]. split; [done|]. split; [congruence|].
    split; [congruence|]. split; [congruence|]. by apply Forall_app.
Qed.

Lemma connecting_app (st : MCPClient * Waiting) (evs1 evs2 : list WaitEvent) :
  connecting st (evs1 ++ evs2) =
  let '(st1, e1) := connecting st evs1 in
  let '(st2, e2) := connecting st1 evs2 in
  (st2, e1 ++ e2).
Proof.
  revert st. induction evs1 as [|ev evs1 IH]; intros st.
  - cbn. by destruct (connecting st evs2).
  - cbn [app connecting]. destruct (connecting_step st ev) as [st1 e1].
    rewrite IH. destruct (connecting st1 evs1) as [st2 e2].
    destruct (connecting st2 evs2) as [st3 e3]. by rewrite app_assoc.
Qed.

(** X22. [connectToDockerMCP] of [src/index.ts] writes nothing to a spawned
    process until one chunk of its output holds the word jsonrpc in
    double quotes.  While every chunk lacks it, the wait goes on, no
    request id is taken and nothing is pending, whatever the frame
    reader makes of the output; when the timer fires first, the
    connection attempt fails with the timeout message naming the
    endpoint and still nothing was written.  The first chunk that
    holds the word ends the wait, and the [initialize] request, with
    id 1, is the first thing written. *)
Theorem connect_writes_nothing_before_the_token (cfg : MCPConfig)
    (p : ChildProcess) (chunks : list Buffer) (data : Buffer) :
  Forall quiet chunks ->
  let fresh := (new_client cfg p, StillWaiting) in
  let silent := connecting fresh (map WaitData chunks) in
  let timed_out := connecting fresh (map WaitData chunks ++ [WaitTimeout]) in
  let woken := connecting fresh (map WaitData chunks ++ [WaitData data]) in
  (snd (fst silent) = StillWaiting /\
   requestId (fst (fst silent)) = 0 /\
   pendingRequests (fst (fst silent)) = ∅ /\
   Forall (fun e => e = ParseError) (snd silent) /\
   connectToDockerMCP_after_wait (fst (fst silent)) (snd (fst silent)) = None) /\
  (Forall (fun e => e = ParseError) (snd timed_out) /\
   connectToDockerMCP_after_wait (fst (fst timed_out)) (snd (fst timed_out)) =
     Some (fst (fst silent), [],
           HandshakeFailed ("Timeout waiting for " +:+ name cfg))) /\
  (~ quiet data ->
   Forall (fun e => e = ParseError) (snd woken) /\
   exists c,
     connectToDockerMCP_after_wait (fst (fst woken)) (snd (fst woken)) =
       Some (c,
             [SetTimeout 1 (timeoutMs (new_client cfg p));
              StdinWrite (Json.stringify (request 1 "initialize" initialize_params)
                          +:+ nl)],
             AwaitInitialize (Awaiting 1))).
Proof.
  intros Hq. cbv zeta.
  pose proof (connecting_quiet chunks Hq (new_client cfg p) eq_refl) as H.
  cbv zeta in H. rewrite !connecting_app.
  destruct (connecting (new_client cfg p, StillWaiting) (map WaitData chunks))
    as [[c w] e].
  cbn [fst snd] in *. destruct H as (-> & Hp & Hr & Hpr & Hc & He).
  split; [by repeat split|]. split.
  - cbn. rewrite app_nil_r, Hc. done.
  - intros Hd. unfold quiet in Hd. apply not_false_is_true in Hd.
    cbn [connecting connecting_step waitForProcessReady_step]. rewrite Hd.
    pose proof (on_stdout_data_idle c data Hp) as H1. cbv zeta in H1.
    destruct (on_stdout_data c data) as [c1 e1]. cbn [fst snd] in *.
    destruct H1 as (Hp1 & Hr1 & Hpr1 & Hc1 & He1).
    split; [rewrite app_nil_r; by apply Forall_app|].
    unfold connectToDockerMCP_after_wait, initializeMCPClient_begin,
      sendMCPRequest.
    rewrite Hpr1, Hpr. cbn [process new_client].
    rewrite Hr1, Hr. cbn [requestId new_client].
    unfold timeoutMs. rewrite Hc1, Hc. cbn [config new_client].
    eexists. reflexivity.
Qed.

End ConnectingProperties.

(** * Worked runs *)

(** ** Steps on unavailable connections *)

Lemma executeTask_unavailable_witness :
  available Scenario.empty_orchestrator "alpha" = false /\
  exists r,
    executeTask_begin Scenario.empty_orchestrator 0 "alpha" "read"
      (Json.Obj []) = (Scenario.empty_orchestrator, [], inl r) /\
    r = error_result "alpha" "read" "MCP not available" 0 /\
    status r = StatusError /\
    error r = Some "MCP not available".
Proof.
  split; [reflexivity|].
  apply (executeTask_unavailable Scenario.empty_orchestrator 0 "alpha" "read"
           (Json.Obj [])).
  reflexivity.
Defined.

(** The message of such a result is not "endpoint not available". *)
Lemma executeTask_message_counterexample :
  exists r,
    available Scenario.empty_orchestrator "alpha" = false /\
    executeTask_begin Scenario.empty_orchestrator 0 "alpha" "read"
      (Json.Obj []) = (Scenario.empty_orchestrator, [], inl r) /\
    status r = StatusError /\
    error r = Some "MCP not available" /\
    error r <> Some "endpoint not available".
Proof.
  eexists. repeat split. cbn. intros [=].
Qed.

(** ** Pending calls at process exit and at shutdown *)

(** With two calls pending, the exit of the process rejects neither, and
    neither does [stop()]: both are still pending afterwards. *)
Lemma exit_fails_no_pending_call_counterexample :
  exists c o,
    c = Scenario.two_pending /\
    o = Scenario.orchestrator_with [c] /\
    is_Some (pendingRequests c !! 1) /\
    is_Some (pendingRequests c !! 2) /\
    snd (on_exit c) = [ScheduleReconnect] /\
    ~ (exists msg, In (Reject 1 msg) (snd (on_exit c))) /\
    ~ (exists msg, In (Reject 2 msg) (snd (on_exit c))) /\
    is_Some (pendingRequests (fst (on_exit c)) !! 1) /\
    is_Some (pendingRequests (fst (on_exit c)) !! 2) /\
    stop o = (o, [ClearInterval; Kill Scenario.proc1]).
Proof.
  eexists _, _. split; [reflexivity|]. split; [reflexivity|].
  repeat split; try (by eexists).
  - intros [msg [H|[]]]. discriminate H.
  - intros [msg [H|[]]]. discriminate H.
Qed.

(** ** Chunking *)


(** Both answers are delivered, whatever the chunking. *)
Example chunked_responses_resolve_both :
  let whole := Scenario.line (Scenario.response 1) +:+
               Scenario.line (Scenario.response 2) in
  snd (feed (on_stdout_data (platform := Scenario.platform))
         Scenario.two_pending
         [String.substring 0 20 whole; String.substring 20 40 whole;
          String.substring 60 (String.length whole) whole]) =
  [ClearTimeout 1; Resolve 1 (Some (Json.Obj []));
   ClearTimeout 2; Resolve 2 (Some (Json.Obj []))].
Proof. reflexivity. Qed.

(** ** Resolution of pending calls *)


(** A duplicate response and a late timer change nothing: each call is
    settled once, by whichever came first. *)
Example duplicate_and_late_events_are_discarded :
  snd (run (listener_of (platform := Scenario.platform) IndexOrchestrator)
         Scenario.alpha Scenario.racing_events) =
  [SetTimeout 1 30000;
   StdinWrite (Scenario.line (request 1 "tools/call" (Json.Obj [])));
   SetTimeout 2 30000;
   StdinWrite (Scenario.line (request 2 "ping" (Json.Obj [])));
   ClearTimeout 1; Resolve 1 (Some (Json.Obj []));
   Reject 2 "Timeout for ping in alpha"].
Proof. reflexivity. Qed.

(** ** Health check by name *)

Lemma checkHealth_unknown_name_witness :
  "ghost" <> "" /\
  clients_get "ghost"
    (mcpClients (Scenario.orchestrator_with [Scenario.ready Scenario.alpha]))
    = None /\
  checkHealth Scenario.answering
    (Scenario.orchestrator_with [Scenario.ready Scenario.alpha]) 0
    (Some "ghost")
  = (Scenario.orchestrator_with [Scenario.ready Scenario.alpha], [], []).
Proof.
  assert (H1 : "ghost" <> "") by discriminate.
  split; [exact H1|]. split; [reflexivity|].
  exact (checkHealth_unknown_name Scenario.answering
           (Scenario.orchestrator_with [Scenario.ready Scenario.alpha]) 0
           "ghost" H1 eq_refl).
Defined.

(** The empty name is no registered connection, yet it is read as an
    absent name: every connection is probed and reported. *)
Lemma checkHealth_empty_name_counterexample :
  exists o,
    o = Scenario.orchestrator_with [Scenario.ready Scenario.alpha] /\
    clients_get "" (mcpClients o) = None /\
    snd (checkHealth Scenario.answering o 0 (Some "")) =
      [{| hr_name := "alpha"; hr_status := Healthy;
          hr_response_time_ms := Some 10; hr_error := None;
          hr_container := "alpha-box" |}] /\
    snd (fst (checkHealth Scenario.answering o 0 (Some ""))) =
      [("alpha", SetTimeout 1 30000);
       ("alpha", StdinWrite (Scenario.line (request 1 "ping" (Json.Obj []))))].
Proof. eexists. repeat split. Qed.

(** ** Fan-out *)

(** Three steps, the second on a connection that does not exist, the
    third settling before the first: three results, in step order. *)
Example parallel_batch_with_unknown_connection :
  execute_plan_parallel
    (Scenario.orchestrator_with [Scenario.ready Scenario.alpha]) 0 Scenario.three_steps
    [{| st_index := 2; st_outcome := Resolved (Some (Json.Num 3)); st_now := 5 |};
     {| st_index := 0; st_outcome := Rejected "Timeout for tools/call in alpha";
        st_now := 30000 |}] =
  Some [error_result "alpha" "read" "Timeout for tools/call in alpha" 30000;
        error_result "ghost" "list" "MCP not available" 0;
        success_result "alpha" "write" (Some (Json.Num 3)) 5].
Proof. reflexivity. Qed.

Example sequential_batch_with_unknown_connection :
  execute_plan_sequential Scenario.answering
    (Scenario.orchestrator_with [Scenario.ready Scenario.alpha]) 0 Scenario.three_steps =
  [success_result "alpha" "read" (Some (Json.Obj [])) 10;
   error_result "ghost" "list" "MCP not available" 0;
   success_result "alpha" "write" (Some (Json.Obj [])) 0].
Proof. reflexivity. Qed.

(** In the sequential branch the third step is issued only after the
    first two results are recorded; the failed second step issues
    nothing and stops nothing. *)
Example sequential_trace_order :
  map (fun ev => match ev with
                 | Issued k _ _ => (k, true)
                 | Recorded k _ => (k, false)
                 end)
      (snd (fst (execute_sequential Scenario.answering
                   (Scenario.orchestrator_with [Scenario.ready Scenario.alpha])
                   0 0 Scenario.three_steps))) =
  [(0, true); (0, true); (0, false); (1, false);
   (2, true); (2, true); (2, false)]%nat.
Proof. reflexivity. Qed.

(** ** Wire format *)

(** The ping of the modular orchestrator's health check, as written. *)
Example sendRequest_ping_payload :
  snd (fst (sendRequest Scenario.alpha "ping" (Json.Obj []))) =
    [SetTimeout 1 30000;
     StdinWrite (Json.stringify (request 1 "ping" (Json.Obj [])))] /\
  String.length (Json.stringify (request 1 "ping" (Json.Obj []))) = 52%nat /\
  last_char (Json.stringify (request 1 "ping" (Json.Obj []))) = Some "}"%char /\
  Frame.split_nl (Json.stringify (request 1 "ping" (Json.Obj []))) =
    [Json.stringify (request 1 "ping" (Json.Obj []))].
Proof. repeat split. Qed.

(** ** Requests as frames *)

Lemma written_request_is_one_frame_witness :
  messageBuffer Scenario.alpha = "" /\
  ~ Frame.has_newline (Json.stringify Sample.ping) /\
  Frame.split_nl (Json.stringify Sample.ping +:+ nl) =
    [Json.stringify Sample.ping; ""].
Proof.
  split; [reflexivity|].
  pose proof (written_request_is_one_frame (platform := Scenario.platform)
                Scenario.alpha 1 "ping" (Json.Obj []) handleMCPResponse
                (Scenario.line Sample.ping) eq_refl eq_refl) as H.
  exact (conj (proj1 H) (proj1 (proj2 H))).
Defined.

Lemma blank_lines_are_skipped_witness :
  Frame.trim "  " = "" /\
  processLines (platform := Scenario.platform) handleMCPResponse
    Scenario.alpha [Json.stringify (Scenario.response 1); "  "] =
  processLines (platform := Scenario.platform) handleMCPResponse
    Scenario.alpha [Json.stringify (Scenario.response 1)].
Proof.
  split; [reflexivity|].
  exact (proj1 (blank_lines_are_skipped (platform := Scenario.platform)
                  handleMCPResponse Scenario.alpha
                  [Json.stringify (Scenario.response 1)] [] "  " eq_refl)).
Defined.

(** ** Attaching to a container *)

(** The inspection printed "true" in two chunks, padded; it is accepted
    with exit code 0 and refused with exit code 1. *)
Example ensureContainerRunning_of_a_chunked_inspection :
  ensureContainerRunning (platform := Scenario.platform) CheckOfIndex
    "alpha-box" Sample.inspected (Some 0) = None /\
  ensureContainerRunning (platform := Scenario.platform) CheckOfIndex
    "alpha-box" Sample.inspected (Some 1) =
    Some "Container alpha-box is not running" /\
  ensureContainerRunning (platform := Scenario.platform) CheckOfDockerModule
    "alpha-box" Sample.inspected None =
    Some "Container alpha-box not running".
Proof. repeat split. Qed.

(** ** A call and its answer *)


Lemma response_handlers_agree_witness :
  pendingRequests Scenario.two_pending !! 0 = None /\
  fst <$> handleMCPResponse Scenario.two_pending (Scenario.response 1) =
  fst <$> handleResponse Scenario.two_pending (Scenario.response 1).
Proof.
  assert (H0 : pendingRequests Scenario.two_pending !! 0 = None)
    by (vm_compute; reflexivity).
  split; [exact H0|].
  exact (proj1 (response_handlers_agree Scenario.two_pending
                  (Scenario.response 1) H0)).
Defined.

(** ** Health reports and listings *)

Lemma checkHealth_all_reports_every_client_witness :
  NoDup (clients_keys (mcpClients Sample.registry)) /\
  List.length (snd (checkHealth Scenario.answering Sample.registry 5 None)) =
  List.length (mcpClients Sample.registry).
Proof.
  assert (H : NoDup (clients_keys (mcpClients Sample.registry)))
    by apply NoDup_singleton.
  split; [exact H|].
  exact (proj1 (checkHealth_all_reports_every_client Scenario.answering
                  Sample.registry 5 H)).
Defined.

Lemma listMCPs_lists_every_client_witness :
  NoDup (clients_keys (mcpClients Sample.registry)) /\
  total_mcps (snd (listMCPs pretty Scenario.answering Sample.registry true)) =
  List.length (mcpClients Sample.registry).
Proof.
  assert (H : NoDup (clients_keys (mcpClients Sample.registry)))
    by apply NoDup_singleton.
  split; [exact H|].
  exact (proj1 (listMCPs_lists_every_client pretty Scenario.answering
                  Sample.registry true H)).
Defined.

(** With tools asked for, the ready client is sent one [tools/list] and
    its entry carries the tools of the answer, none here. *)
Example listMCPs_asks_the_ready_client :
  let r := listMCPs pretty Scenario.answering Sample.registry true in
  snd (fst r) =
    [("alpha", SetTimeout 1 30000);
     ("alpha", StdinWrite (Scenario.line
                 (request 1 "tools/list" (Json.Obj []))))] /\
  map info_tools (mcps (snd r)) = [Some (Json.Arr [])] /\
  ready_mcps (snd r) = 1%nat.
Proof. vm_compute. repeat split. Qed.

(** ** Routing a task *)

Lemma extractTitle_keeps_short_task_witness :
  (List.length (Text.split space "fix login bug") <= 4)%nat /\
  Forall (fun word => Text.toLowerCase word ∉ stopWords)
         (Text.split space "fix login bug") /\
  (String.length "fix login bug" <= 50)%nat /\
  extractTitle "fix login bug" = "fix login bug".
Proof.
  assert (H1 : (List.length (Text.split space "fix login bug") <= 4)%nat)
    by (vm_compute; lia).
  assert (H2 : Forall (fun word => Text.toLowerCase word ∉ stopWords)
                      (Text.split space "fix login bug")).
  { apply (bool_decide_unpack _). vm_compute. exact I. }
  assert (H3 : (String.length "fix login bug" <= 50)%nat)
    by (vm_compute; lia).
  split; [exact H1|]. split; [exact H2|]. split; [exact H3|].
  exact (extractTitle_keeps_short_task "fix login bug" H1 H2 H3).
Defined.

(** The filtered words go, and the title stops after four words. *)
Example extractTitle_drops_filtered_words :
  extractTitle "Quiero crear una tarjeta para el bug de login" =
  "tarjeta para bug de".
Proof. reflexivity. Qed.

Example generateBranchName_of_a_task :
  generateBranchName "Fix:  the LOGIN bug (v2)!" = "feature/fix-the-login-bug-v2".
Proof. reflexivity. Qed.

Lemma generateSmartParams_fills_known_properties_witness :
  well_schemed Sample.create_card /\
  exists params,
    generateSmartParams IndexOrchestrator Sample.create_card Sample.task =
      Some params /\
    NoDup (map fst params).
Proof.
  assert (H : well_schemed Sample.create_card).
  { unfold well_schemed. vm_compute. repeat constructor; discriminate. }
  split; [exact H|].
  destruct (generateSmartParams_fills_known_properties IndexOrchestrator
              Sample.create_card Sample.task H) as (params & Hp & Hnd & _).
  exists params. exact (conj Hp Hnd).
Defined.

Lemma generateSmartParams_variants_agree_witness :
  Forall (fun e : string * Json.value => plain_default (snd e))
         (property_schemas Sample.create_card) /\
  generateSmartParams IndexOrchestrator Sample.create_card Sample.task =
  generateSmartParams ModularOrchestrator Sample.create_card Sample.task.
Proof.
  assert (H : Forall (fun e : string * Json.value => plain_default (snd e))
                     (property_schemas Sample.create_card)).
  { repeat constructor. }
  split; [exact H|].
  exact (generateSmartParams_variants_agree Sample.create_card Sample.task H).
Defined.

(** A default of [false]: [src/index.ts] passes [true], the tasks module
    the default. *)
Example falsy_default_divides_the_variants :
  generateSmartParams IndexOrchestrator Sample.close_card Sample.task =
    Some [("force", Json.Bool true)] /\
  generateSmartParams ModularOrchestrator Sample.close_card Sample.task =
    Some [("force", Json.Bool false)].
Proof. split; reflexivity. Qed.

Lemma createPlan_takes_two_best_tools_witness :
  Forall (fun entry : string * list Tool => Forall well_schemed (snd entry))
         Sample.listing /\
  exists plan,
    createPlan IndexOrchestrator Sample.task Sample.listing = Some plan /\
    (List.length plan <= 2 * List.length Sample.listing)%nat.
Proof.
  assert (H : Forall (fun entry : string * list Tool =>
                        Forall well_schemed (snd entry)) Sample.listing).
  { repeat constructor; unfold well_schemed; vm_compute;
      repeat constructor; discriminate. }
  split; [exact H|].
  destruct (createPlan_takes_two_best_tools IndexOrchestrator Sample.task
              Sample.listing H) as (plan & Hp & Hlen & _).
  exists plan. exact (conj Hp Hlen).
Defined.

(** The plan for the sample task: the one tool that scores, with a title
    from the task and the boolean parameter set. *)
Example createPlan_of_the_sample_task :
  createPlan IndexOrchestrator Sample.task Sample.listing =
  Some [{| step_mcp := "alpha"; step_tool := "create_card";
           step_params :=
             Json.Obj [("title", Json.Str "a card for the");
                       ("archived", Json.Bool true)] |}].
Proof. reflexivity. Qed.

(** ** The tools of the required connections *)


(** The entries come in the order the calls ended, not in the order the
    names were asked for: the unknown name first, then the client that
    answered, then the one that timed out. *)
Example getAvailableTools_order_follows_settling :
  snd (getAvailableTools Sample.pair_registry ["alpha"; "beta"; "ghost"]
         Sample.beta_first) =
  Some [("ghost", Json.Arr []);
        ("beta", Json.Arr [Json.Obj [("name", Json.Str "get_board")]]);
        ("alpha", Json.Arr [])].
Proof. vm_compute. reflexivity. Qed.

Lemma orchestrateTask_asks_every_required_client_witness :
  NoDup (clients_keys (mcpClients Sample.pair_registry)) /\
  Forall (fun n => available Sample.pair_registry n = true)
         (analyzeTask IndexOrchestrator "list the files of alpha"
            (mcpClients Sample.pair_registry)).
Proof.
  assert (H : NoDup (clients_keys (mcpClients Sample.pair_registry))).
  { apply (bool_decide_unpack _). vm_compute. exact I. }
  split; [exact H|].
  exact (proj1 (orchestrateTask_asks_every_required_client
                  Sample.pair_registry "list the files of alpha" H)).
Defined.

(** ** Connecting *)

Lemma connect_writes_nothing_before_the_token_witness :
  Forall (quiet (platform := Scenario.platform)) Sample.banner /\
  snd (fst (connecting (platform := Scenario.platform)
              (new_client Scenario.alpha_config Scenario.proc1, StillWaiting)
              (map (@WaitData Scenario.platform) Sample.banner))) =
    StillWaiting.
Proof.
  assert (H : Forall (quiet (platform := Scenario.platform)) Sample.banner).
  { repeat constructor. }
  split; [exact H|].
  exact (proj1 (proj1 (connect_writes_nothing_before_the_token
                         (platform := Scenario.platform)
                         Scenario.alpha_config Scenario.proc1
                         Sample.banner
                         (Scenario.line (Scenario.response 1)) H))).
Defined.

(** The word is looked for in each chunk on its own: a message cut
    inside it reaches the frame reader whole and still does not end the
    wait. *)
Example token_cut_by_a_chunk_boundary_is_missed :
  let text := Scenario.line (Scenario.response 1) in
  let cut := [substring 0 5 text;
              substring 5 (String.length text - 5)%nat text] in
  text_of (platform := Scenario.platform) cut = text /\
  Text.includes text ready_token = true /\
  snd (fst (connecting (platform := Scenario.platform)
              (Scenario.alpha, StillWaiting)
              (map (@WaitData Scenario.platform) cut))) =
    StillWaiting.
Proof. vm_compute. repeat split. Qed.
